(** * Block unlocker of the mining pool: candidate matching and reward split

    A shallow embedding of [payouts/unlocker.go].  Pure helpers are Rocq
    functions; the unlocker itself runs in a small state monad that threads
    the outside world (node and stores), the sticky [halt]/[lastFail] pair
    and the trace of every external call.

    Go types are embedded as follows:
    - [int64] is [Z] with the wrap-around written out ([wrap64]);
    - [string] is [string] (a sequence of bytes), [len] is [String.length];
    - [*big.Int] is [Z], a nilable one is [option Z];
    - [*big.Rat] is [Qc], the rationals in lowest terms (as big.Rat keeps them);
    - [float64] is the primitive binary64 [float];
    - [map[string]T] is [gmap string T];
    - a run-time panic is the outcome [Panic]. *)

From Stdlib Require Import ZArith QArith Qcanon String Ascii List Lia.
From Stdlib Require Import Floats.PrimFloat Floats.SpecFloat Floats.FloatOps.
From stdpp Require Import base option list sorting gmap strings fin_maps.

#[local] Open Scope string_scope.
#[local] Open Scope list_scope.
#[local] Open Scope Z_scope.

(** ** Machine integers *)

Definition minInt64 : Z := - 2 ^ 63.
Definition maxInt64 : Z := 2 ^ 63 - 1.
Definition maxUint64 : Z := 2 ^ 64 - 1.

(** Two's complement wrap-around of [int64] arithmetic. *)
Definition wrap64 (z : Z) : Z := (z + 2 ^ 63) mod 2 ^ 64 - 2 ^ 63.

(** Wrap-around of [uint64] arithmetic. *)
Definition wrapU64 (z : Z) : Z := z mod 2 ^ 64.

Definition inInt64 (z : Z) : Prop := minInt64 <= z <= maxInt64.

(** Saturation to the [int64] range (what [strconv.ParseInt] returns next
    to a range error). *)
Definition clamp64 (z : Z) : Z := Z.max minInt64 (Z.min z maxInt64).

(** ** Errors *)

Inductive numErrorKind := ErrSyntax | ErrRange.

(** The [error] values that flow through the unlocker: the ones the
    collaborators hand back, [*strconv.NumError], and the ones the unlocker
    builds itself with [fmt.Errorf]. *)
Inductive error :=
| ErrExternal (msg : string)
| ErrNum (fn : string) (num : string) (kind : numErrorKind)
| ErrWrongNodeHeight (height : Z)
| ErrUncleRetrieve (uncleHash : string) (cause : error)
| ErrUncleNil (height : Z)
| ErrTxReceipt (cause : error).

(** A Go pair [(value, err)] as the callers read it: [err] is checked
    first. *)
Inductive result (A : Type) :=
| Ok (a : A)
| Err (e : error).
Arguments Ok {A} a.
Arguments Err {A} e.

(** ** package strconv *)

Definition byteZ (c : ascii) : Z := Z.of_N (N_of_ascii c).

(** The digit switch of [strconv.ParseUint]: ['0'..'9'], then
    [lower(c) = c | ('x' - 'X')] in ['a'..'z']. *)
Definition digitOf (c : ascii) : option Z :=
  let n := byteZ c in
  if (48 <=? n) && (n <=? 57) then Some (n - 48)
  else
    let l := Z.lor n 32 in
    if (97 <=? l) && (l <=? 122) then Some (l - 97 + 10) else None.

(** The loop of [strconv.ParseUint] for an explicit base (no underscores)
    and [bitSize = 64]. *)
Fixpoint ParseUint_loop (base : Z) (cs : list ascii) (n : Z)
  : Z * option numErrorKind :=
  match cs with
  | [] => (n, None)
  | c :: cs' =>
      match digitOf c with
      | None => (0, Some ErrSyntax)
      | Some d =>
          if base <=? d then (0, Some ErrSyntax)
          else if maxUint64 / base + 1 <=? n then (maxUint64, Some ErrRange)
          else
            let n' := wrapU64 (n * base) in
            let n1 := wrapU64 (n' + d) in
            if (n1 <? n') || (maxUint64 <? n1) then (maxUint64, Some ErrRange)
            else ParseUint_loop base cs' n1
      end
  end.

Definition ParseUint (s : string) (base : Z) : Z * option numErrorKind :=
  match s with
  | EmptyString => (0, Some ErrSyntax)
  | _ => ParseUint_loop base (list_ascii_of_string s) 0
  end.

(** [strconv.ParseInt(s, base, 64)] for [2 <= base <= 36]. *)
Definition ParseInt (s : string) (base : Z) : Z * option error :=
  match s with
  | EmptyString => (0, Some (ErrNum "ParseInt" s ErrSyntax))
  | String c rest =>
      let neg := Ascii.eqb c "-" in
      let s1 := if Ascii.eqb c "+" then rest else if neg then rest else s in
      match ParseUint s1 base with
      | (_, Some ErrSyntax) => (0, Some (ErrNum "ParseInt" s ErrSyntax))
      | (un, _) =>
          let cutoff := 2 ^ 63 in
          if negb neg && (cutoff <=? un) then
            (cutoff - 1, Some (ErrNum "ParseInt" s ErrRange))
          else if neg && (cutoff <? un) then
            (- cutoff, Some (ErrNum "ParseInt" s ErrRange))
          else
            let n := wrap64 un in
            (if neg then wrap64 (- n) else n, None)
      end
  end.

(** Decimal digits of a natural number, least significant first. *)
Fixpoint digitsLE (fuel : nat) (n : Z) : list Z :=
  match fuel with
  | O => []
  | S f => n mod 10 :: (if n <? 10 then [] else digitsLE f (n / 10))
  end.

Definition digitChar (d : Z) : ascii := ascii_of_N (Z.to_N (48 + d)).

(** [nat.utoa(10)]: decimal text of a natural number, no leading zero. *)
Definition utoa (n : Z) : string :=
  string_of_list_ascii
    (map digitChar (rev (digitsLE (S (Z.to_nat (Z.log2 n))) n))).

(** ** package strings *)

(** [strings.Replace(s, "0x", "", -1)]: every occurrence of ["0x"], left to
    right and without overlap, is dropped. *)
Fixpoint removeAll0x (s : string) : string :=
  match s with
  | EmptyString => EmptyString
  | String c rest =>
      match rest with
      | String c' rest' =>
          if Ascii.eqb c "0" && Ascii.eqb c' "x" then removeAll0x rest'
          else String c (removeAll0x rest)
      | EmptyString => s
      end
  end.

Definition isUpper (n : Z) : bool := (65 <=? n) && (n <=? 90).

(** One step of the byte loop of [strings.EqualFold]: equal bytes, or an
    upper-case letter and its lower-case form. *)
Definition foldEqByte (a b : ascii) : bool :=
  let sr := Z.min (byteZ a) (byteZ b) in
  let tr := Z.max (byteZ a) (byteZ b) in
  (tr =? sr) || (isUpper sr && (tr =? sr + 32)).

(** [strings.EqualFold] on the byte path it takes for ASCII text; the
    fields compared here are hexadecimal strings.  Bytes above 127 are
    compared as they are. *)
Fixpoint EqualFold (s t : string) : bool :=
  match s, t with
  | EmptyString, EmptyString => true
  | String a s', String b t' => foldEqByte a b && EqualFold s' t'
  | _, _ => false
  end.

Definition toLowerByte (c : ascii) : ascii :=
  if isUpper (byteZ c) then ascii_of_N (Z.to_N (byteZ c + 32)) else c.

(** [strings.ToLower] on ASCII text. *)
Fixpoint ToLower (s : string) : string :=
  match s with
  | EmptyString => EmptyString
  | String c s' => String (toLowerByte c) (ToLower s')
  end.

(** The height parse both handlers and both passes share:
    [strconv.ParseInt(strings.Replace(number, "0x", "", -1), 16, 64)]. *)
Definition parseNumber (number : string) : result Z :=
  match ParseInt (removeAll0x number) 16 with
  | (_, Some e) => Err e
  | (v, None) => Ok v
  end.

(** ** package math/big *)

(** [big.NewRat(a, b)]; [None] is the division-by-zero panic. *)
Definition NewRat (a b : Z) : option Qc :=
  if b =? 0 then None else Some (Qc_of_Z a / Qc_of_Z b)%Qc.

(** The exact value of a finite binary64 number. *)
Definition Q_of_finite (s : bool) (m : positive) (e : Z) : Q :=
  let sm := if s then Z.neg m else Z.pos m in
  if 0 <=? e then inject_Z (sm * 2 ^ e) else sm # Z.to_pos (2 ^ (- e)).

(** [new(big.Rat).SetFloat64(f)]: exactly [f]; [None] is the nil it
    returns when [f] is not finite. *)
Definition SetFloat64 (f : float) : option Qc :=
  match Prim2SF f with
  | S754_zero _ => Some (Qc_of_Z 0)
  | S754_finite s m e => Some (Q2Qc (Q_of_finite s m e))
  | S754_infinity _ | S754_nan => None
  end.

(** [x.FloatString(0)]: the integer nearest to [x], halves away from zero,
    in decimal.  An integer prints as it is; otherwise the quotient of the
    magnitudes is bumped when twice the remainder reaches the denominator,
    and the sign of the numerator comes first. *)
Definition FloatString0 (x : Qc) : string :=
  let a := Qnum x in
  let b := Z.pos (Qden x) in
  let sign := if a <? 0 then "-" else "" in
  if b =? 1 then sign +:+ utoa (Z.abs a)
  else
    let q := Z.abs a / b in
    let r := Z.abs a mod b in
    let q' := if b <=? r + r then q + 1 else q in
    sign +:+ utoa q'.

(** ** Data *)

Module BlockData.
(** [types.BlockData], the fields the unlocker touches.  [Reward] is
    assigned by the handlers before anything reads it. *)
Record t := mk {
  RoundHeight : Z;
  Height : Z;
  Nonce : string;
  Hash : string;
  UncleHeight : Z;
  Orphan : bool;
  Reward : Z;
  ExtraReward : option Z;
  State : Z
}.

(** Field assignments through the candidate pointer. *)
Definition setHeight (v : Z) (c : t) : t :=
  mk (RoundHeight c) v (Nonce c) (Hash c) (UncleHeight c) (Orphan c)
     (Reward c) (ExtraReward c) (State c).
Definition setHash (v : string) (c : t) : t :=
  mk (RoundHeight c) (Height c) (Nonce c) v (UncleHeight c) (Orphan c)
     (Reward c) (ExtraReward c) (State c).
Definition setUncleHeight (v : Z) (c : t) : t :=
  mk (RoundHeight c) (Height c) (Nonce c) (Hash c) v (Orphan c)
     (Reward c) (ExtraReward c) (State c).
Definition setOrphan (v : bool) (c : t) : t :=
  mk (RoundHeight c) (Height c) (Nonce c) (Hash c) (UncleHeight c) v
     (Reward c) (ExtraReward c) (State c).
Definition setReward (v : Z) (c : t) : t :=
  mk (RoundHeight c) (Height c) (Nonce c) (Hash c) (UncleHeight c)
     (Orphan c) v (ExtraReward c) (State c).
Definition setExtraReward (v : option Z) (c : t) : t :=
  mk (RoundHeight c) (Height c) (Nonce c) (Hash c) (UncleHeight c)
     (Orphan c) (Reward c) v (State c).
End BlockData.

Module Tx.
Record t := mk { Hash : string; GasPrice : string }.
End Tx.

Module TxReceipt.
Record t := mk { GasUsed : string }.
End TxReceipt.

Module GetBlockReply.
Record t := mk {
  Number : string;
  Hash : string;
  Nonce : string;
  SealFields : list string;
  Uncles : list string;
  Transactions : list Tx.t
}.
End GetBlockReply.

Record UnlockerConfig := mkConfig {
  PoolFee : float;
  PoolFeeAddress : string;
  Donate : bool;
  Depth : Z;
  ImmatureDepth : Z;
  KeepTxFees : bool
}.

Definition minDepth : Z := 16.

(** Donate 10% from pool fees to developers. *)
Definition donationFee : float := 10%float.
Definition donationAccount : string :=
  "0xb05146ed865f0ab592dd763bd84a2191700f3dfb".

(** Modelled from the spec: [util.Shannon], 10^9 wei, is declared in
    package [util], outside the files at hand. *)
Definition Shannon : Z := 1000000000.

(** ** Reward arithmetic *)

Definition weiToShannonInt64 (wei : Qc) : Z :=
  let shannon := Qc_of_Z Shannon in
  let inShannon := (wei / shannon)%Qc in
  fst (ParseInt (FloatString0 inShannon) 10).

(** Returns new value after fee deduction and fee value.  [None] is the
    nil dereference that follows a fee that is not a finite number. *)
Definition chargeFee (value : Qc) (fee : float) : option (Qc * Qc) :=
  match SetFloat64 (fee / 100)%float with
  | None => None
  | Some feePercent =>
      let feeValue := (value * feePercent)%Qc in
      Some ((value - feeValue)%Qc, feeValue)
  end.

(** [rewards[login] += v] on an [int64] map: a missing key reads as 0. *)
Definition addReward (login : string) (v : Z) (rewards : gmap string Z)
  : gmap string Z :=
  <[login := wrap64 (default 0 (rewards !! login) + v)]> rewards.

(** One iteration of the loop of [calculateRewardsForShares]. *)
Definition rewardStep (total : Z) (reward : Qc) (login : string) (n : Z)
    (acc : option (gmap string Z * gmap string Qc))
  : option (gmap string Z * gmap string Qc) :=
  match acc with
  | None => None
  | Some (rewards, percents) =>
      match NewRat n total with
      | None => None
      | Some p =>
          let workerReward := (reward * p)%Qc in
          Some (addReward login (weiToShannonInt64 workerReward) rewards,
                <[login := p]> percents)
      end
  end.

(** [None] is the panic of [big.NewRat] on a zero total. *)
Definition calculateRewardsForShares (shares : gmap string Z) (total : Z)
    (reward : Qc) : option (gmap string Z * gmap string Qc) :=
  map_fold (rewardStep total reward) (Some (∅, ∅)) shares.

(** [for _, val := range shares { totalShares += val }]. *)
Definition sumShares (shares : gmap string Z) : Z :=
  map_fold (fun _ val acc => wrap64 (acc + val)) 0 shares.


(** ** Candidate matching *)

Definition len (s : string) : Z := Z.of_nat (String.length s).

Definition matchCandidate (block : GetBlockReply.t) (candidate : BlockData.t)
  : bool :=
  (* Just compare hash if block is unlocked as immature *)
  if (0 <? len (BlockData.Hash candidate))
     && EqualFold (BlockData.Hash candidate) (GetBlockReply.Hash block)
  then true
  (* Geth-style candidate matching *)
  else if 0 <? len (GetBlockReply.Nonce block) then
    EqualFold (GetBlockReply.Nonce block) (BlockData.Nonce candidate)
  (* Parity's EIP *)
  else if Z.of_nat (length (GetBlockReply.SealFields block)) =? 2 then
    EqualFold (BlockData.Nonce candidate)
      (default "" (GetBlockReply.SealFields block !! 1%nat))
  else false.

(** ** The outside world

    The node client ([rpc]), the SQL store ([db]) and the share store
    ([backend]) are collaborators: each call reads and may change a world
    state [W] and hands back what the Go method returns.  The reward
    schedule ([types.GetConstReward], [types.GetRewardForUncle],
    [types.GetUncleReward]) and [util.String2Big] are pure functions of
    packages outside the files at hand; they are taken as parameters and
    are assumed to return fresh numbers.  Every store write hands back an
    error or nil, [WriteImmatureError] included, whose result the passes
    never read. *)
Record Deps (W : Type) := mkDeps {
  GetPendingBlock : W -> result (option GetBlockReply.t) * W;
  GetBlockByHeight : Z -> W -> result (option GetBlockReply.t) * W;
  GetUncleByBlockNumberAndIndex :
    Z -> Z -> W -> result (option GetBlockReply.t) * W;
  GetTxReceipt : string -> W -> result (option TxReceipt.t) * W;
  GetCandidates : Z -> W -> result (list BlockData.t) * W;
  GetImmatureBlocks : Z -> W -> result (list BlockData.t) * W;
  WritePendingOrphans : list BlockData.t -> W -> option error * W;
  WriteOrphan : BlockData.t -> W -> option error * W;
  WriteImmatureBlock :
    BlockData.t -> gmap string Z -> gmap string Qc -> W -> option error * W;
  WriteMaturedBlock :
    BlockData.t -> gmap string Z -> gmap string Qc -> W -> option error * W;
  WriteImmatureError : BlockData.t -> Z -> Z -> W -> option error * W;
  GetRoundShares : Z -> string -> W -> result (gmap string Z) * W;
  GetConstReward : Z -> bool -> Z;
  GetRewardForUncle : Z -> bool -> Z;
  GetUncleReward : Z -> Z -> bool -> Z;
  String2Big : string -> Z
}.
Arguments GetPendingBlock {W}.
Arguments GetBlockByHeight {W}.
Arguments GetUncleByBlockNumberAndIndex {W}.
Arguments GetTxReceipt {W}.
Arguments GetCandidates {W}.
Arguments GetImmatureBlocks {W}.
Arguments WritePendingOrphans {W}.
Arguments WriteOrphan {W}.
Arguments WriteImmatureBlock {W}.
Arguments WriteMaturedBlock {W}.
Arguments WriteImmatureError {W}.
Arguments GetRoundShares {W}.
Arguments GetConstReward {W}.
Arguments GetRewardForUncle {W}.
Arguments GetUncleReward {W}.
Arguments String2Big {W}.

(** Every external call leaves an event: its arguments and what came back.
    Log lines are recorded by their format string. *)
Inductive Event :=
| EvGetPendingBlock (r : result (option GetBlockReply.t))
| EvGetBlockByHeight (height : Z) (r : result (option GetBlockReply.t))
| EvGetUncle (height index : Z) (r : result (option GetBlockReply.t))
| EvGetTxReceipt (hash : string) (r : result (option TxReceipt.t))
| EvGetCandidates (maxHeight : Z) (r : result (list BlockData.t))
| EvGetImmatureBlocks (maxHeight : Z) (r : result (list BlockData.t))
| EvWritePendingOrphans (blocks : list BlockData.t) (r : option error)
| EvWriteOrphan (block : BlockData.t) (r : option error)
| EvWriteImmatureBlock (block : BlockData.t) (rewards : gmap string Z)
    (percents : gmap string Qc) (r : option error)
| EvWriteMaturedBlock (block : BlockData.t) (rewards : gmap string Z)
    (percents : gmap string Qc) (r : option error)
| EvWriteImmatureError (block : BlockData.t) (state errcode : Z)
    (r : option error)
| EvGetRoundShares (roundHeight : Z) (nonce : string)
    (r : result (gmap string Z))
| EvLog (format : string).

Inductive PanicKind := NilDereference | SliceBounds | DivisionByZero.

Inductive Outcome (A : Type) :=
| Done (a : A)
| Panic (why : PanicKind).
Arguments Done {A} a.
Arguments Panic {A} why.

(** [UnlockResult] of one run of [unlockCandidates]. *)
Record UnlockResult := mkResult {
  maturedBlocks : list BlockData.t;
  orphanedBlocks : list BlockData.t;
  orphans : Z;
  uncles : Z;
  blocks : Z
}.

(** The three shapes [calculateRewards] returns: an error and nothing
    else, six nils when the round has no shares, or the distribution. *)
Inductive Rewards :=
| RewardsErr (err : error)
| RewardsNone
| RewardsOk (revenue minersProfit poolProfit : Qc)
    (rewards : gmap string Z) (percents : gmap string Qc).

(** ** The unlocker *)

Section Unlocker.
Context {W : Type}.
Variable deps : Deps W.
Variable config : UnlockerConfig.
Variable mainNet : bool.

(** The mutable part of [BlockUnlocker], the world and the trace. *)
Record St := mkSt {
  world : W;
  halt : bool;
  lastFail : option error;
  trace : list Event
}.

Definition M (A : Type) : Type := St -> Outcome A * St.

Definition ret {A} (a : A) : M A := fun st => (Done a, st).

Definition bind {A B} (m : M A) (k : A -> M B) : M B :=
  fun st =>
    match m st with
    | (Done a, st') => k a st'
    | (Panic why, st') => (Panic why, st')
    end.

Definition panic {A} (why : PanicKind) : M A := fun st => (Panic why, st).

Notation "x <- c1 ;; c2" := (bind c1 (fun x => c2))
  (at level 100, c1 at next level, right associativity).
Notation "c1 ;; c2" := (bind c1 (fun _ => c2))
  (at level 100, right associativity).

Definition emit (ev : Event) (st : St) : St :=
  mkSt (world st) (halt st) (lastFail st) (trace st ++ [ev]).

(** A call to a collaborator: run it on the world, record the event. *)
Definition call {A} (f : W -> A * W) (ev : A -> Event) : M A :=
  fun st =>
    let (r, w) := f (world st) in
    (Done r, emit (ev r) (mkSt w (halt st) (lastFail st) (trace st))).

Definition logf (format : string) : M unit :=
  fun st => (Done tt, emit (EvLog format) st).

(** [u.halt = true; u.lastFail = err]. *)
Definition setHalt (err : error) : M unit :=
  fun st => (Done tt, mkSt (world st) true (Some err) (trace st)).

Definition getHalt : M bool := fun st => (Done (halt st), st).

Definition rpcGetPendingBlock :=
  call (GetPendingBlock deps) EvGetPendingBlock.
Definition rpcGetBlockByHeight (height : Z) :=
  call (GetBlockByHeight deps height) (EvGetBlockByHeight height).
Definition rpcGetUncleByBlockNumberAndIndex (height index : Z) :=
  call (GetUncleByBlockNumberAndIndex deps height index)
       (EvGetUncle height index).
Definition rpcGetTxReceipt (hash : string) :=
  call (GetTxReceipt deps hash) (EvGetTxReceipt hash).
Definition dbGetCandidates (maxHeight : Z) :=
  call (GetCandidates deps maxHeight) (EvGetCandidates maxHeight).
Definition dbGetImmatureBlocks (maxHeight : Z) :=
  call (GetImmatureBlocks deps maxHeight) (EvGetImmatureBlocks maxHeight).
Definition dbWritePendingOrphans (bs : list BlockData.t) :=
  call (WritePendingOrphans deps bs) (EvWritePendingOrphans bs).
Definition dbWriteOrphan (b : BlockData.t) :=
  call (WriteOrphan deps b) (EvWriteOrphan b).
Definition dbWriteImmatureBlock b rewards percents :=
  call (WriteImmatureBlock deps b rewards percents)
       (EvWriteImmatureBlock b rewards percents).
Definition dbWriteMaturedBlock b rewards percents :=
  call (WriteMaturedBlock deps b rewards percents)
       (EvWriteMaturedBlock b rewards percents).
Definition dbWriteImmatureError b (state errcode : Z) :=
  call (WriteImmatureError deps b state errcode)
       (EvWriteImmatureError b state errcode).
Definition backendGetRoundShares (roundHeight : Z) (nonce : string) :=
  call (GetRoundShares deps roundHeight nonce)
       (EvGetRoundShares roundHeight nonce).

(** *** getExtraRewardForTx *)

Fixpoint txLoop (txs : list Tx.t) (amount : Z) : M (result Z) :=
  match txs with
  | [] => ret (Ok amount)
  | tx :: rest =>
      r <- rpcGetTxReceipt (Tx.Hash tx) ;;
      match r with
      | Err err => ret (Err err)
      | Ok None => txLoop rest amount
      | Ok (Some receipt) =>
          let gasUsed := String2Big deps (TxReceipt.GasUsed receipt) in
          let gasPrice := String2Big deps (Tx.GasPrice tx) in
          let fee := gasUsed * gasPrice in
          txLoop rest (amount + fee)
      end
  end.

Definition getExtraRewardForTx (block : GetBlockReply.t) : M (result Z) :=
  txLoop (GetBlockReply.Transactions block) 0.

(** *** handleBlock and handleUncle

    Both assign through the candidate pointer; here they return the
    candidate as assigned.  When [handleBlock] fails after the height
    was assigned, its caller drops the candidate with the whole pass. *)

Definition handleBlock (block : GetBlockReply.t) (candidate : BlockData.t)
  : M (result BlockData.t) :=
  match parseNumber (GetBlockReply.Number block) with
  | Err err => ret (Err err)
  | Ok correctHeight =>
      let candidate := BlockData.setHeight correctHeight candidate in
      let reward := GetConstReward deps (BlockData.Height candidate) mainNet in
      (* Add TX fees *)
      r <- getExtraRewardForTx block ;;
      match r with
      | Err err => ret (Err (ErrTxReceipt err))
      | Ok extraTxReward =>
          let candidate :=
            if KeepTxFees config
            then BlockData.setExtraReward (Some extraTxReward) candidate
            else candidate in
          let reward :=
            if KeepTxFees config then reward else reward + extraTxReward in
          (* Add reward for including uncles *)
          let uncleReward :=
            GetRewardForUncle deps (BlockData.Height candidate) mainNet in
          let rewardForUncles :=
            uncleReward * Z.of_nat (length (GetBlockReply.Uncles block)) in
          let reward := reward + rewardForUncles in
          ret (Ok (BlockData.setReward reward
                     (BlockData.setHash (GetBlockReply.Hash block)
                        (BlockData.setOrphan false candidate))))
      end
  end.

Definition handleUncle (height : Z) (uncle : GetBlockReply.t)
    (candidate : BlockData.t) : result BlockData.t :=
  match parseNumber (GetBlockReply.Number uncle) with
  | Err err => Err err
  | Ok uncleHeight =>
      let reward := GetUncleReward deps uncleHeight height mainNet in
      let reward := if reward <? 0 then 0 else reward in
      Ok (BlockData.setReward reward
            (BlockData.setHash (GetBlockReply.Hash uncle)
               (BlockData.setOrphan false
                  (BlockData.setUncleHeight uncleHeight
                     (BlockData.setHeight height candidate)))))
  end.

(** *** unlockCandidates *)

(** The variables of one candidate's search: the [orphan] flag, the
    candidate behind the pointer and the result under construction. *)
Record Scan := mkScan {
  orphan : bool;
  candidate : BlockData.t;
  result_ : UnlockResult
}.

(** [hash[0:10]], evaluated for a log line: panics on a short hash. *)
Definition slice10 (hash : string) : M unit :=
  if len hash <? 10 then panic SliceBounds else ret tt.

Definition foundUncle (c : BlockData.t) (res : UnlockResult) : Scan :=
  mkScan false c
    (mkResult (maturedBlocks res ++ [c]) (orphanedBlocks res)
              (orphans res) (uncles res + 1) (blocks res)).

Definition foundBlock (c : BlockData.t) (res : UnlockResult) : Scan :=
  mkScan false c
    (mkResult (maturedBlocks res ++ [c]) (orphanedBlocks res)
              (orphans res) (uncles res) (blocks res + 1)).

(** Trying to find uncle in current block during our forward check. *)
Fixpoint uncleLoop (height : Z) (uncleIndex : Z) (uncleHashes : list string)
    (s : Scan) : M (result Scan) :=
  match uncleHashes with
  | [] => ret (Ok s)
  | uncleHash :: rest =>
      r <- rpcGetUncleByBlockNumberAndIndex height uncleIndex ;;
      match r with
      | Err err => ret (Err (ErrUncleRetrieve uncleHash err))
      | Ok None => ret (Err (ErrUncleNil height))
      | Ok (Some uncle) =>
          (* Found uncle *)
          if matchCandidate uncle (candidate s) then
            match handleUncle height uncle (candidate s) with
            | Err err => (setHalt err ;; ret (Err err))
            | Ok c =>
                slice10 (GetBlockReply.Hash uncle) ;;
                logf "Mature uncle %v/%v of reward %v with hash: %v" ;;
                ret (Ok (foundUncle c (result_ s)))
            end
          else uncleLoop height (uncleIndex + 1) rest s
      end
  end.

(** The window loop, [for i := int64(minDepth * -1); i < minDepth; i++]:
    [n] iterations remain and the next offset is [i]. *)
Fixpoint windowLoop (n : nat) (i : Z) (s : Scan) : M (result Scan) :=
  match n with
  | O => ret (Ok s)
  | S n' =>
      let height := wrap64 (BlockData.Height (candidate s) + i) in
      if height <? 0 then windowLoop n' (i + 1) s
      else
        r <- rpcGetBlockByHeight height ;;
        match r with
        | Err err =>
            logf "Error while retrieving block %v from node: %v" ;;
            ret (Err err)
        | Ok None => ret (Err (ErrWrongNodeHeight height))
        | Ok (Some block) =>
            if matchCandidate block (candidate s) then
              r <- handleBlock block (candidate s) ;;
              match r with
              | Err err => (setHalt err ;; ret (Err err))
              | Ok c =>
                  slice10 (BlockData.Hash c) ;;
                  logf "Mature block %v with %v tx, hash: %v" ;;
                  ret (Ok (foundBlock c (result_ s)))
              end
            else if Z.of_nat (length (GetBlockReply.Uncles block)) =? 0 then
              windowLoop n' (i + 1) s
            else
              r <- uncleLoop height 0 (GetBlockReply.Uncles block) s ;;
              match r with
              | Err err => ret (Err err)
              | Ok s' =>
                  (* Found block or uncle *)
                  if negb (orphan s') then ret (Ok s')
                  else windowLoop n' (i + 1) s'
              end
        end
  end.

Definition markOrphan (c : BlockData.t) (res : UnlockResult)
  : UnlockResult :=
  mkResult (maturedBlocks res)
           (orphanedBlocks res ++ [BlockData.setOrphan true c])
           (orphans res + 1) (uncles res) (blocks res).

(** The body of the loop over the candidates. *)
Definition unlockCandidate (c : BlockData.t) (res : UnlockResult)
  : M (result UnlockResult) :=
  r <- windowLoop (Z.to_nat (minDepth - minDepth * -1)) (minDepth * -1)
         (mkScan true c res) ;;
  match r with
  | Err err => ret (Err err)
  | Ok s =>
      (* Block is lost, we didn't find any valid block or uncle matching
         our data in a blockchain *)
      if orphan s then
        logf "Orphaned block %v:%v" ;;
        ret (Ok (markOrphan (candidate s) (result_ s)))
      else ret (Ok (result_ s))
  end.

Fixpoint candidatesLoop (candidates : list BlockData.t)
    (res : UnlockResult) : M (result UnlockResult) :=
  match candidates with
  | [] => ret (Ok res)
  | c :: rest =>
      r <- unlockCandidate c res ;;
      match r with
      | Err err => ret (Err err)
      | Ok res' => candidatesLoop rest res'
      end
  end.

Definition unlockCandidates (candidates : list BlockData.t)
  : M (result UnlockResult) :=
  candidatesLoop candidates (mkResult [] [] 0 0 0).

(** *** calculateRewards *)

(** Steps 6 to 8 of [calculateRewards], after the shares were split:
    the kept transaction fees go to the pool, then the donation and the
    pool fee address are credited.  [None] is a panic of [chargeFee]. *)
Definition creditPool (block : BlockData.t)
    (revenue minersProfit poolProfit : Qc)
    (rewards : gmap string Z) (percents : gmap string Qc)
  : option Rewards :=
  let poolProfit :=
    match BlockData.ExtraReward block with
    | Some extra => (poolProfit + Qc_of_Z extra)%Qc
    | None => poolProfit
    end in
  let revenue :=
    match BlockData.ExtraReward block with
    | Some extra => (revenue + Qc_of_Z extra)%Qc
    | None => revenue
    end in
  let donated :=
    if Donate config then
      match chargeFee poolProfit donationFee with
      | None => None
      | Some (poolProfit', donation) =>
          let login := ToLower donationAccount in
          Some (poolProfit',
                addReward login (weiToShannonInt64 donation) rewards)
      end
    else Some (poolProfit, rewards) in
  match donated with
  | None => None
  | Some (poolProfit, rewards) =>
      let rewards :=
        if negb (len (PoolFeeAddress config) =? 0) then
          let address := ToLower (PoolFeeAddress config) in
          addReward address (weiToShannonInt64 poolProfit) rewards
        else rewards in
      Some (RewardsOk revenue minersProfit poolProfit rewards percents)
  end.

Definition calculateRewards (block : BlockData.t) : M Rewards :=
  let revenue := Qc_of_Z (BlockData.Reward block) in
  match chargeFee revenue (PoolFee config) with
  | None => panic NilDereference
  | Some (minersProfit, poolProfit) =>
      r <- backendGetRoundShares (BlockData.RoundHeight block)
             (BlockData.Nonce block) ;;
      match r with
      | Err err => ret (RewardsErr err)
      | Ok shares =>
          (* shares are not in Redis. *)
          if Z.of_nat (size shares) =? 0 then ret RewardsNone
          else
            let totalShares := sumShares shares in
            match calculateRewardsForShares shares totalShares
                    minersProfit with
            | None => panic DivisionByZero
            | Some (rewards, percents) =>
                match creditPool block revenue minersProfit poolProfit
                        rewards percents with
                | None => panic NilDereference
                | Some out => ret out
                end
            end
      end
  end.

(** *** The two passes

    In both passes the session totals and the formatted log entries only
    feed log lines; the lines are recorded by their format, the sums are
    not carried.  [plogger] lines are recorded like [log] lines. *)

(** The loop over [result.maturedBlocks] of [unlockPendingBlocks];
    [false] when the pass returned from inside the loop. *)
Fixpoint immatureLoop (bs : list BlockData.t) : M bool :=
  match bs with
  | [] => ret true
  | block :: rest =>
      r <- calculateRewards block ;;
      match r with
      | RewardsErr err =>
          setHalt err ;;
          logf "Failed to calculate rewards for round %v: %v" ;;
          ret false
      | RewardsNone =>
          (* If the list to receive the reward is not listed in Redis. *)
          _ <- dbWriteImmatureError block 0 1 ;;
          logf "Failure: Redis has no one to share the rewards with" ;;
          immatureLoop rest
      | RewardsOk revenue minersProfit poolProfit roundRewards percents =>
          r <- dbWriteImmatureBlock block roundRewards percents ;;
          match r with
          | Some err =>
              setHalt err ;;
              logf "Failed to credit rewards for round %v: %v" ;;
              ret false
          | None =>
              logf "IMMATURE %v: size: %d,revenue %v, miners profit %v, pool profit: %v" ;;
              logf "IMMATURE %v: size: %d,revenue %v, miners profit %v, pool profit: %v" ;;
              immatureLoop rest
          end
      end
  end.

Definition unlockPendingBlocks : M unit :=
  h <- getHalt ;;
  if h then logf "Unlocking suspended due to last critical error:"
  else
    r <- rpcGetPendingBlock ;;
    match r with
    | Err err =>
        setHalt err ;;
        logf "Unable to get current blockchain height from node: %v"
    | Ok None => panic NilDereference
    | Ok (Some current) =>
        match parseNumber (GetBlockReply.Number current) with
        | Err err =>
            setHalt err ;; logf "Can't parse pending block number: %v"
        | Ok currentHeight =>
            r <- dbGetCandidates
                   (wrap64 (currentHeight - ImmatureDepth config)) ;;
            match r with
            | Err err =>
                setHalt err ;;
                logf "Failed to get block candidates from backend: %v"
            | Ok [] => logf "[Info] No block candidates to unlock"
            | Ok candidates =>
                r <- unlockCandidates candidates ;;
                match r with
                | Err err =>
                    setHalt err ;; logf "Failed to unlock blocks: %v"
                | Ok result =>
                    logf "Immature %v blocks, %v uncles, %v orphans" ;;
                    r <- dbWritePendingOrphans (orphanedBlocks result) ;;
                    match r with
                    | Some err =>
                        setHalt err ;;
                        logf "Failed to insert orphaned blocks into backend: %v"
                    | None =>
                        logf "Inserted %v orphaned blocks to backend" ;;
                        completed <- immatureLoop (maturedBlocks result) ;;
                        if completed : bool then
                          logf "(%v) IMMATURE SESSION: block size: %v,revenue %v, miners profit %v, pool profit: %v"
                        else ret tt
                    end
                end
            end
        end
    end.

(** The loop over [result.orphanedBlocks] of [unlockAndCreditMiners]. *)
Fixpoint orphansLoop (bs : list BlockData.t) : M bool :=
  match bs with
  | [] => ret true
  | block :: rest =>
      r <- dbWriteOrphan block ;;
      match r with
      | Some err =>
          setHalt err ;;
          logf "Failed to insert orphaned block into backend: %v" ;;
          ret false
      | None => orphansLoop rest
      end
  end.

(** The loop over [result.maturedBlocks] of [unlockAndCreditMiners]. *)
Fixpoint maturedLoop (bs : list BlockData.t) : M bool :=
  match bs with
  | [] => ret true
  | block :: rest =>
      r <- calculateRewards block ;;
      match r with
      | RewardsErr err =>
          setHalt err ;;
          logf "Failed to calculate rewards for round %v: %v" ;;
          ret false
      | RewardsNone =>
          (* If the list to receive the reward is not listed in Redis. *)
          _ <- dbWriteImmatureError block (BlockData.State block) 2 ;;
          logf "Failed: No round_block information for reward in Redis." ;;
          logf "Failed: No round_block information for reward in Redis." ;;
          maturedLoop rest
      | RewardsOk revenue minersProfit poolProfit roundRewards percents =>
          r <- dbWriteMaturedBlock block roundRewards percents ;;
          match r with
          | Some err =>
              setHalt err ;;
              logf "Failed to credit rewards for round %v: %v" ;;
              ret false
          | None =>
              logf "MATURED %v: size %v,revenue %v, miners profit %v, pool profit: %v" ;;
              logf "MATURED %v: size %v,revenue %v, miners profit %v, pool profit: %v" ;;
              maturedLoop rest
          end
      end
  end.

Definition unlockAndCreditMiners : M unit :=
  h <- getHalt ;;
  if h then
    logf "unlockAndCreditMiners: Unlocking suspended due to last critical error:"
  else
    r <- rpcGetPendingBlock ;;
    match r with
    | Err err =>
        setHalt err ;;
        logf "Unable to get current blockchain height from node: %v"
    | Ok None => panic NilDereference
    | Ok (Some current) =>
        match parseNumber (GetBlockReply.Number current) with
        | Err err =>
            setHalt err ;; logf "Can't parse pending block number: %v"
        | Ok currentHeight =>
            r <- dbGetImmatureBlocks
                   (wrap64 (currentHeight - Depth config)) ;;
            match r with
            | Err err =>
                setHalt err ;;
                logf "Failed to get block candidates from backend: %v"
            | Ok [] => logf "[Info] No immature blocks to credit miners"
            | Ok immature =>
                r <- unlockCandidates immature ;;
                match r with
                | Err err =>
                    setHalt err ;; logf "Failed to unlock blocks: %v"
                | Ok result =>
                    logf "Unlocked %v blocks, %v uncles, %v orphans" ;;
                    written <- orphansLoop (orphanedBlocks result) ;;
                    if written : bool then
                      logf "Inserted %v orphaned blocks to backend" ;;
                      completed <- maturedLoop (maturedBlocks result) ;;
                      if completed : bool then
                        logf "(%s) MATURE SESSION: block size: %v,revenue %v, miners profit %v, pool profit: %v"
                      else ret tt
                    else ret tt
                end
            end
        end
    end.


End Unlocker.

(** ** Reference definitions, in the words of the specification *)


(** Wei to Shannon by integer division by 10^9, rounding toward zero. *)
Definition truncShannon (wei : Qc) : Z :=
  Z.quot (Qnum wei) (Z.pos (Qden wei) * Shannon).

(** The integer nearest to a rational, halves away from zero. *)
Definition roundHalfAway (x : Qc) : Z :=
  let a := Qnum x in
  let b := Z.pos (Qden x) in
  Z.sgn a * ((2 * Z.abs a + b) / (2 * b)).

(** ** Sample worlds

    Small closed instances of the collaborators, used to run the unlocker
    on concrete inputs.  The world carries no state; every call answers
    from a table. *)

Definition hexOrZero (s : string) : Z :=
  match parseNumber s with Ok v => v | Err _ => 0 end.

Definition sampleDeps
    (pending : result (option GetBlockReply.t))
    (blockAt : Z -> result (option GetBlockReply.t))
    (uncleAt : Z -> Z -> result (option GetBlockReply.t))
    (receiptOf : string -> result (option TxReceipt.t))
    (stored : result (list BlockData.t))
    (sharesOf : Z -> string -> result (gmap string Z))
    (markerWrite : option error)
    (uncleReward : Z -> Z -> bool -> Z) : Deps unit :=
  mkDeps unit
    (fun w => (pending, w))
    (fun h w => (blockAt h, w))
    (fun h i w => (uncleAt h i, w))
    (fun hash w => (receiptOf hash, w))
    (fun _ w => (stored, w))
    (fun _ w => (stored, w))
    (fun _ w => (None, w))
    (fun _ w => (None, w))
    (fun _ _ _ w => (None, w))
    (fun _ _ _ w => (None, w))
    (fun _ _ _ w => (markerWrite, w))
    (fun rh nonce w => (sharesOf rh nonce, w))
    (fun _ _ => 2000000000000000000)
    (fun _ _ => 62500000000000000)
    uncleReward
    hexOrZero.

Definition sampleConfig : UnlockerConfig :=
  mkConfig 1%float "0xfee" false 32 16 false.

Definition sampleBlock (number hash nonce : string) (uncleHashes : list string)
    (txs : list Tx.t) : GetBlockReply.t :=
  GetBlockReply.mk number hash nonce [] uncleHashes txs.

Definition sampleCandidate (height : Z) (nonce hash : string)
    (uncleHeight : Z) : BlockData.t :=
  BlockData.mk height height nonce hash uncleHeight false 0 None 0.

Definition sampleStart : St (W := unit) := mkSt tt false None [].

(** The value of a string of decimal digits read after [n]. *)
Definition decValue (ds : list Z) (n : Z) : Z :=
  fold_left (fun a d => a * 10 + d) ds n.

(** The binary64 quotient 10.0 / 100 and its exact value. *)
Definition donationRate : Qc := Q2Qc (3602879701896397 # 36028797018963968).

(** ** Reading traces *)





(** The error a call handed back, if it failed. *)
Definition evError (ev : Event) : option error :=
  match ev with
  | EvGetPendingBlock (Err e)
  | EvGetBlockByHeight _ (Err e)
  | EvGetUncle _ _ (Err e)
  | EvGetTxReceipt _ (Err e)
  | EvGetCandidates _ (Err e)
  | EvGetImmatureBlocks _ (Err e)
  | EvGetRoundShares _ _ (Err e)
  | EvWritePendingOrphans _ (Some e)
  | EvWriteOrphan _ (Some e)
  | EvWriteImmatureBlock _ _ _ (Some e)
  | EvWriteMaturedBlock _ _ _ (Some e)
  | EvWriteImmatureError _ _ _ (Some e) => Some e
  | _ => None
  end.

(** The failed calls that stop a pass: all of them but the write of the
    "unable to credit" marker. *)
Definition fatalError (ev : Event) : option error :=
  match ev with
  | EvWriteImmatureError _ _ _ _ => None
  | _ => evError ev
  end.

Definition isLog (ev : Event) : bool :=
  match ev with EvLog _ => true | _ => false end.


(** No call in the list failed fatally. *)
Definition clean (evs : list Event) : Prop :=
  Forall (fun ev => fatalError ev = None) evs.

(** [reports e' e]: the error [e'] kept in [lastFail] is [e], or [e] under
    the context [fmt.Errorf] adds. *)
Inductive reports : error -> error -> Prop :=
| reports_same e : reports e e
| reports_uncle uncleHash e : reports (ErrUncleRetrieve uncleHash e) e
| reports_receipt e : reports (ErrTxReceipt e) e.

(** Exactly one call failed fatally, with an error [err] reports; it is
    the last call and only log lines follow it. *)
Definition aborted (evs : list Event) (err : error) : Prop :=
  exists pre ev post e,
    evs = pre ++ ev :: post
    /\ clean pre
    /\ fatalError ev = Some e
    /\ Forall (fun ev => isLog ev = true) post
    /\ reports err e.

(** The heights asked of [GetBlockByHeight], in order. *)
Definition fetchedHeights (evs : list Event) : list Z :=
  omap (fun ev => match ev with
                  | EvGetBlockByHeight h _ => Some h
                  | _ => None
                  end) evs.

(** The blocks and uncles the node handed back, in order. *)
Definition replies (evs : list Event) : list GetBlockReply.t :=
  omap (fun ev => match ev with
                  | EvGetBlockByHeight _ (Ok (Some b)) => Some b
                  | EvGetUncle _ _ (Ok (Some u)) => Some u
                  | _ => None
                  end) evs.

(** The window of the specification, [height - 16, height + 16), without
    its negative heights. *)
Definition windowHeights (height : Z) : list Z :=
  filter (fun h => 0 <= h) (seqZ (height - minDepth) (2 * minDepth)).

(** ** Reasoning about runs

    [wp p Q st]: running [p] from [st] extends the trace by some events
    [evs], and the outcome, the final state and [evs] satisfy [Q]. *)
Definition wp {W A} (p : M (W := W) A)
    (Q : Outcome A -> St (W := W) -> list Event -> Prop) (st : St) : Prop :=
  exists evs, trace (snd (p st)) = trace st ++ evs
              /\ Q (fst (p st)) (snd (p st)) evs.

(** Nothing failed fatally and the halt flag was not touched. *)
Definition passed {W} (st st1 : St (W := W)) (evs : list Event) : Prop :=
  clean evs /\ halt st1 = halt st /\ lastFail st1 = lastFail st.

(** A procedure that returns the error [err]: either it built the error
    itself, or one call failed and [err] reports it. *)
Definition failed (evs : list Event) (err : error) : Prop :=
  clean evs \/ aborted evs err.


(** What every procedure with a [(value, error)] result guarantees. *)
Definition resultSpec {W A} (st : St (W := W)) (P : A -> list Event -> Prop)
    (out : Outcome (result A)) (st1 : St (W := W)) (evs : list Event)
  : Prop :=
  match out with
  | Done (Ok a) => passed st st1 evs /\ P a evs
  | Done (Err err) => failed evs err
  | Panic _ => passed st st1 evs
  end.

(** What the loops inside a pass guarantee; [false] means the pass
    returned from inside the loop. *)
Definition loopSpec {W} (st : St (W := W)) (out : Outcome bool)
    (st1 : St (W := W)) (evs : list Event) : Prop :=
  match out with
  | Done true => passed st st1 evs
  | Done false =>
      exists err, aborted evs err /\ halt st1 = true /\ lastFail st1 = Some err
  | Panic _ => passed st st1 evs
  end.

(** The search of one candidate [c] over the heights [hs]: heights are
    asked in that order, and no block or uncle is fetched after one that
    matches. *)
Definition scanned (c : BlockData.t) (hs : list Z) (evs : list Event)
  : Prop :=
  fetchedHeights evs `prefix_of` hs
  /\ Forall (fun b => matchCandidate b c = false) (removelast (replies evs)).

(** The search ended on a match: the last reply matches, and the candidate
    it produced is recorded as matured and not as an orphan. *)
Definition foundBy (c : BlockData.t) (res res1 : UnlockResult)
    (evs : list Event) : Prop :=
  exists c1 b,
    last (replies evs) = Some b
    /\ matchCandidate b c = true
    /\ BlockData.Orphan c1 = false
    /\ maturedBlocks res1 = maturedBlocks res ++ [c1]
    /\ orphanedBlocks res1 = orphanedBlocks res
    /\ orphans res1 = orphans res.

(** The heights the window loop computes from offset [i] on, with [n]
    iterations left: [int64] additions, negative results skipped. *)
Definition scanHeights (height i : Z) (n : nat) : list Z :=
  filter (fun h => 0 <= h)
    ((fun k => wrap64 (height + k)) <$> seqZ i (Z.of_nat n)).



(** ** Reference definitions for the helpers *)

(** The exact value of a string of hexadecimal digits read after [n];
    [None] when a byte is not a hexadecimal digit. *)
Fixpoint hexDigits (cs : list ascii) (n : Z) : option Z :=
  match cs with
  | [] => Some n
  | c :: cs' =>
      match digitOf c with
      | Some d => if 16 <=? d then None else hexDigits cs' (n * 16 + d)
      | None => None
      end
  end.

(** The integer a text denotes in hexadecimal: an optional sign, then at
    least one hexadecimal digit, without any bound on the size. *)
Definition hexValue (s : string) : option Z :=
  match s with
  | EmptyString => None
  | String c rest =>
      let body := if Ascii.eqb c "+" || Ascii.eqb c "-" then rest else s in
      match body with
      | EmptyString => None
      | _ =>
          match hexDigits (list_ascii_of_string body) 0 with
          | Some v => Some (if Ascii.eqb c "-" then - v else v)
          | None => None
          end
      end
  end.



(** The sum of the shares of a round as an unbounded integer, and the sum
    of the percentages handed back for it. *)
Definition exactTotal (shares : gmap string Z) : Z :=
  map_fold (fun _ val acc => acc + val) 0 shares.

Definition sumPercents (percents : gmap string Qc) : Qc :=
  map_fold (fun _ p acc => (acc + p)%Qc) 0%Qc percents.

(** ** What the search hands back *)

(** A candidate and the record it matured into belong to the same round. *)
Definition sameRound (c c1 : BlockData.t) : Prop :=
  BlockData.RoundHeight c1 = BlockData.RoundHeight c
  /\ BlockData.Nonce c1 = BlockData.Nonce c
  /\ BlockData.State c1 = BlockData.State c.

(** [classifies cs ms os]: every candidate of [cs] went, in order, either
    to the matured blocks [ms], as a record of the same round that is no
    orphan, or to the orphaned blocks [os], as it was but for the orphan
    flag. *)
Inductive classifies
  : list BlockData.t -> list BlockData.t -> list BlockData.t -> Prop :=
| classifies_nil : classifies [] [] []
| classifies_matured c c1 cs ms os :
    sameRound c c1 -> BlockData.Orphan c1 = false ->
    classifies cs ms os -> classifies (c :: cs) (c1 :: ms) os
| classifies_orphaned c cs ms os :
    classifies cs ms os ->
    classifies (c :: cs) ms (BlockData.setOrphan true c :: os).

(** The counters of a result agree with its two lists. *)
Definition tallied (res : UnlockResult) : Prop :=
  orphans res = Z.of_nat (length (orphanedBlocks res))
  /\ uncles res + blocks res = Z.of_nat (length (maturedBlocks res))
  /\ 0 <= uncles res /\ 0 <= blocks res.

(** The candidate [c] was appended to the matured blocks of [res], as an
    uncle or as a block. *)
Definition matures (c : BlockData.t) (res res1 : UnlockResult) : Prop :=
  exists c1,
    sameRound c c1 /\ BlockData.Orphan c1 = false
    /\ maturedBlocks res1 = maturedBlocks res ++ [c1]
    /\ orphanedBlocks res1 = orphanedBlocks res
    /\ orphans res1 = orphans res
    /\ ((uncles res1 = uncles res + 1 /\ blocks res1 = blocks res)
        \/ (uncles res1 = uncles res /\ blocks res1 = blocks res + 1)).

(** The last block or uncle the node handed back matches [c] and its hash
    has fewer than ten bytes. *)
Definition shortHash (c : BlockData.t) (evs : list Event) : Prop :=
  exists b,
    last (replies evs) = Some b
    /\ matchCandidate b c = true
    /\ len (GetBlockReply.Hash b) < 10.

(** What the search of one candidate guarantees about its result. *)
Definition searchSpec {A} (c : BlockData.t) (P : A -> Prop)
    (out : Outcome (result A)) (evs : list Event) : Prop :=
  match out with
  | Done (Ok a) => P a
  | Done (Err _) => True
  | Panic why => why = SliceBounds /\ shortHash c evs
  end.

(** ** Kinds of events *)

(** What the search may do: read blocks, uncles and receipts from the
    node, and log. *)
Definition searchEvent (ev : Event) : bool :=
  match ev with
  | EvGetBlockByHeight _ _ | EvGetUncle _ _ _ | EvGetTxReceipt _ _
  | EvLog _ => true
  | _ => false
  end.

(** The first phase of Pass 1 and of Pass 2: the pending block, the stored
    candidates, the search. *)
Definition pendingSearchEvent (ev : Event) : bool :=
  searchEvent ev
  || match ev with
     | EvGetPendingBlock _ | EvGetCandidates _ _ => true
     | _ => false
     end.

Definition matureSearchEvent (ev : Event) : bool :=
  searchEvent ev
  || match ev with
     | EvGetPendingBlock _ | EvGetImmatureBlocks _ _ => true
     | _ => false
     end.

(** The second phase of Pass 1 and of Pass 2: the shares of a round and
    the writes to the store. *)
Definition pendingCreditEvent (ev : Event) : bool :=
  match ev with
  | EvWritePendingOrphans _ _ | EvGetRoundShares _ _ _
  | EvWriteImmatureBlock _ _ _ _ | EvWriteImmatureError _ _ _ _
  | EvLog _ => true
  | _ => false
  end.

Definition matureCreditEvent (ev : Event) : bool :=
  match ev with
  | EvWriteOrphan _ _ | EvGetRoundShares _ _ _
  | EvWriteMaturedBlock _ _ _ _ | EvWriteImmatureError _ _ _ _
  | EvLog _ => true
  | _ => false
  end.

(** What the loop over the matured blocks may do, in Pass 1 and in
    Pass 2. *)
Definition immatureLoopEvent (ev : Event) : bool :=
  match ev with
  | EvGetRoundShares _ _ _ | EvWriteImmatureBlock _ _ _ _
  | EvWriteImmatureError _ _ _ _ | EvLog _ => true
  | _ => false
  end.

Definition maturedLoopEvent (ev : Event) : bool :=
  match ev with
  | EvGetRoundShares _ _ _ | EvWriteMaturedBlock _ _ _ _
  | EvWriteImmatureError _ _ _ _ | EvLog _ => true
  | _ => false
  end.

Definition only (P : Event -> bool) (evs : list Event) : Prop :=
  Forall (fun ev => P ev = true) evs.

(** The events of a pass come in two phases: first events of kind [S],
    then events of kind [C], and the second phase is entered only when no
    call of the first failed. *)
Definition phases (S C : Event -> bool) (evs : list Event) : Prop :=
  exists search credit,
    evs = search ++ credit
    /\ only S search
    /\ only C credit
    /\ (credit <> [] -> clean search).

(** The blocks for which a record was written to the store: credited as
    immature, credited as matured, or marked as without shares. *)
Definition recordedBlocks (evs : list Event) : list BlockData.t :=
  omap (fun ev => match ev with
                  | EvWriteImmatureBlock b _ _ _
                  | EvWriteMaturedBlock b _ _ _
                  | EvWriteImmatureError b _ _ _ => Some b
                  | _ => None
                  end) evs.

(** The rounds whose shares were asked for. *)
Definition askedRounds (evs : list Event) : list (Z * string) :=
  omap (fun ev => match ev with
                  | EvGetRoundShares rh nonce _ => Some (rh, nonce)
                  | _ => None
                  end) evs.

Definition roundOf (b : BlockData.t) : Z * string :=
  (BlockData.RoundHeight b, BlockData.Nonce b).

(** The candidate lists the store handed back, the orphan lists written
    as pending, and the orphans written one by one. *)
Definition candidatesRead (evs : list Event) : list (list BlockData.t) :=
  omap (fun ev => match ev with
                  | EvGetCandidates _ (Ok cs)
                  | EvGetImmatureBlocks _ (Ok cs) => Some cs
                  | _ => None
                  end) evs.

Definition pendingOrphansWritten (evs : list Event)
  : list (list BlockData.t) :=
  omap (fun ev => match ev with
                  | EvWritePendingOrphans os _ => Some os
                  | _ => None
                  end) evs.

Definition orphansWritten (evs : list Event) : list BlockData.t :=
  omap (fun ev => match ev with
                  | EvWriteOrphan b _ => Some b
                  | _ => None
                  end) evs.

(** What a credit loop guarantees: rounds are asked and records written in
    the order of the blocks, one each, up to the point where it stops. *)
Definition recordsSpec {W} (bs : list BlockData.t) (out : Outcome bool)
    (st1 : St (W := W)) (evs : list Event) : Prop :=
  askedRounds evs `prefix_of` (roundOf <$> bs)
  /\ recordedBlocks evs `prefix_of` bs
  /\ (out = Done true ->
      askedRounds evs = roundOf <$> bs /\ recordedBlocks evs = bs).

(** Every candidate the store handed back is accounted for. *)
Definition accounted (evs : list Event) (written : list BlockData.t)
  : Prop :=
  exists cs ms,
    candidatesRead evs = [cs]
    /\ classifies cs ms written
    /\ recordedBlocks evs = ms.

(** ** Construction *)

(** [NewBlockUnlocker]: the checks on the configuration and the choice of
    the network.  [None] is the exit of [log.Fatal]; the result is the
    configuration and the [mainNet] flag the unlocker keeps ([halt] starts
    as [false]).  [isValidHexAddress] stands for [util.IsValidHexAddress],
    declared in package [util], outside the files at hand. *)
Definition NewBlockUnlocker (isValidHexAddress : string -> bool)
    (cfg : UnlockerConfig) (mainnet : string)
  : option (UnlockerConfig * bool) :=
  if negb (len (PoolFeeAddress cfg) =? 0)
     && negb (isValidHexAddress (PoolFeeAddress cfg)) then None
  else if Depth cfg <? minDepth * 2 then None
  else if ImmatureDepth cfg <? minDepth then None
  else
    let net := if negb (String.eqb mainnet "testnet") then true else false in
    Some (cfg, net).

(** A store that honours the height bound of a query: the blocks it hands
    back carry heights from 0 to the bound. *)
Definition honoursBound {W}
    (query : Z -> W -> result (list BlockData.t) * W) : Prop :=
  forall maxHeight w cs,
    fst (query maxHeight w) = Ok cs ->
    Forall (fun c => 0 <= BlockData.Height c <= maxHeight) cs.

(** The pending block a pass started from, if it got one. *)
Definition pendingNumber (evs : list Event) : option string :=
  match evs with
  | EvGetPendingBlock (Ok (Some current)) :: _ =>
      Some (GetBlockReply.Number current)
  | _ => None
  end.

(** A sample store that filters what it holds by the height asked for. *)
Definition boundedStore (stored : list BlockData.t) (maxHeight : Z)
  : result (list BlockData.t) :=
  Ok (filter (fun c => 0 <= BlockData.Height c <= maxHeight) stored).

Definition sampleBoundedDeps
    (pending : result (option GetBlockReply.t))
    (blockAt : Z -> result (option GetBlockReply.t))
    (stored : list BlockData.t)
    (sharesOf : Z -> string -> result (gmap string Z)) : Deps unit :=
  mkDeps unit
    (fun w => (pending, w))
    (fun h w => (blockAt h, w))
    (fun h i w => (Ok None, w))
    (fun hash w => (Ok None, w))
    (fun maxHeight w => (boundedStore stored maxHeight, w))
    (fun maxHeight w => (boundedStore stored maxHeight, w))
    (fun _ w => (None, w))
    (fun _ w => (None, w))
    (fun _ _ _ w => (None, w))
    (fun _ _ _ w => (None, w))
    (fun _ _ _ w => (None, w))
    (fun rh nonce w => (sharesOf rh nonce, w))
    (fun _ _ => 2000000000000000000)
    (fun _ _ => 62500000000000000)
    (fun _ _ _ => 0)
    hexOrZero.

(** The two loops over the shares of a round, run over the entries in a
    given order: Go walks a map in an order of its own choosing. *)
Definition splitInOrder (order : list (string * Z)) (total : Z) (reward : Qc)
  : option (gmap string Z * gmap string Qc) :=
  foldl (fun acc entry => uncurry (rewardStep total reward) entry acc)
        (Some (∅, ∅)) order.

Definition sumInOrder (order : list (string * Z)) : Z :=
  foldl (fun acc entry => wrap64 (acc + entry.2)) 0 order.

(** ** Why a pass can panic *)

Inductive panicCause (config : UnlockerConfig)
  : PanicKind -> list Event -> Prop :=
| panic_no_pending evs :
    (* [current.Number] on the nil block of a node without pending block *)
    last evs = Some (EvGetPendingBlock (Ok None)) ->
    panicCause config NilDereference evs
| panic_short_hash evs b c :
    (* [hash[0:10]] on the short hash of the block or uncle just matched *)
    last (replies evs) = Some b ->
    matchCandidate b c = true ->
    len (GetBlockReply.Hash b) < 10 ->
    panicCause config SliceBounds evs
| panic_pool_fee evs :
    (* [SetFloat64] gives nil for a pool fee that is no finite number *)
    SetFloat64 (PoolFee config / 100)%float = None ->
    panicCause config NilDereference evs
| panic_zero_total evs roundHeight nonce shares :
    (* [big.NewRat(n, 0)] on the shares just read *)
    last evs = Some (EvGetRoundShares roundHeight nonce (Ok shares)) ->
    shares <> ∅ ->
    sumShares shares = 0 ->
    panicCause config DivisionByZero evs.

Definition panicSpec {A} (config : UnlockerConfig) (out : Outcome A)
    (evs : list Event) : Prop :=
  forall why, out = Panic why -> panicCause config why evs.

Definition half : Qc := Q2Qc (1 # 2).

(** * Properties *)

(** ** Decimal text *)

Lemma digitOf_digitChar d : 0 <= d < 10 -> digitOf (digitChar d) = Some d.
Proof.
  intros H.
  assert (d = 0 \/ d = 1 \/ d = 2 \/ d = 3 \/ d = 4 \/ d = 5 \/ d = 6
          \/ d = 7 \/ d = 8 \/ d = 9) as Hd by lia.
  repeat (destruct Hd as [-> | Hd]; [reflexivity |]). subst; reflexivity.
Qed.

Lemma digitChar_not_sign d :
  0 <= d < 10 ->
  Ascii.eqb (digitChar d) "+" = false /\ Ascii.eqb (digitChar d) "-" = false.
Proof.
  intros H.
  assert (d = 0 \/ d = 1 \/ d = 2 \/ d = 3 \/ d = 4 \/ d = 5 \/ d = 6
          \/ d = 7 \/ d = 8 \/ d = 9) as Hd by lia.
  repeat (destruct Hd as [-> | Hd]; [split; reflexivity |]).
  subst; split; reflexivity.
Qed.

Lemma decValue_ge ds : forall n,
  Forall (fun d => 0 <= d < 10) ds -> 0 <= n -> n <= decValue ds n.
Proof.
  induction ds as [| d ds IH]; intros n Hds Hn; [simpl; lia |].
  inversion Hds as [| ? ? Hd Hds']; subst.
  change (decValue (d :: ds) n) with (decValue ds (n * 10 + d)).
  specialize (IH (n * 10 + d) Hds' ltac:(lia)). lia.
Qed.

(** The overflow checks of [ParseUint] fire exactly when the decimal value
    leaves the [uint64] range. *)
Lemma ParseUint_loop_decimal ds : forall n,
  Forall (fun d => 0 <= d < 10) ds -> 0 <= n < 2 ^ 64 ->
  ParseUint_loop 10 (map digitChar ds) n =
    if decValue ds n <? 2 ^ 64 then (decValue ds n, None)
    else (maxUint64, Some ErrRange).
Proof.
  induction ds as [| d ds IH]; intros n Hds Hn.
  - simpl. destruct (Z.ltb_spec n (2 ^ 64)); [reflexivity | lia].
  - inversion Hds as [| ? ? Hd Hds']; subst.
    cbn [map ParseUint_loop]. rewrite (digitOf_digitChar d Hd).
    destruct (Z.leb_spec 10 d) as [? | _]; [lia |].
    pose proof (decValue_ge ds (n * 10 + d) Hds' ltac:(lia)) as Hge.
    change (decValue (d :: ds) n) with (decValue ds (n * 10 + d)).
    unfold maxUint64, wrapU64 in *.
    change (( 2 ^ 64 - 1) / 10 + 1) with 1844674407370955162.
    destruct (Z.leb_spec 1844674407370955162 n) as [Hc | Hc].
    + destruct (Z.ltb_spec (decValue ds (n * 10 + d)) (2 ^ 64)); [lia | easy].
    + rewrite (Z.mod_small (n * 10)) by lia.
      destruct (Z.lt_ge_cases (n * 10 + d) (2 ^ 64)) as [Hs | Hs].
      * rewrite (Z.mod_small (n * 10 + d)) by lia.
        destruct (Z.ltb_spec (n * 10 + d) (n * 10)); [lia |].
        destruct (Z.ltb_spec (2 ^ 64 - 1) (n * 10 + d)); [lia |].
        cbn [orb]. apply IH; [assumption | lia].
      * assert ((n * 10 + d) mod 2 ^ 64 = n * 10 + d - 2 ^ 64) as ->.
        { symmetry. apply Z.mod_unique_pos with (q := 1); lia. }
        destruct (Z.ltb_spec (n * 10 + d - 2 ^ 64) (n * 10)); [| lia].
        cbn [orb].
        destruct (Z.ltb_spec (decValue ds (n * 10 + d)) (2 ^ 64));
          [lia | easy].
Qed.

Lemma digitsLE_spec fuel : forall n,
  0 <= n < 2 ^ Z.of_nat fuel ->
  Forall (fun d => 0 <= d < 10) (digitsLE fuel n)
  /\ fold_right (fun d acc => d + 10 * acc) 0 (digitsLE fuel n) = n.
Proof.
  induction fuel as [| f IH]; intros n Hn.
  - simpl in *. split; [constructor | lia].
  - cbn [digitsLE]. rewrite Nat2Z.inj_succ, Z.pow_succ_r in Hn by lia.
    pose proof (Z.mod_pos_bound n 10 ltac:(lia)) as Hm.
    destruct (Z.ltb_spec n 10) as [Hlt | Hge].
    + split; [repeat constructor; lia |].
      simpl. rewrite Z.mod_small by lia. lia.
    + assert (0 <= n / 10 < 2 ^ Z.of_nat f) as Hq.
      { split; [apply Z.div_pos; lia |].
        apply Z.div_lt_upper_bound; lia. }
      destruct (IH _ Hq) as [Hall Hval]. split.
      * constructor; [lia | assumption].
      * cbn [fold_right]. rewrite Hval.
        pose proof (Z.div_mod n 10 ltac:(lia)). lia.
Qed.

Lemma decValue_rev ds :
  decValue (rev ds) 0 = fold_right (fun d acc => d + 10 * acc) 0 ds.
Proof.
  induction ds as [| d ds IH]; [reflexivity |].
  cbn [rev fold_right]. unfold decValue in *.
  rewrite fold_left_app, IH. simpl. lia.
Qed.

Lemma log2_fuel n : 0 <= n -> n < 2 ^ Z.of_nat (S (Z.to_nat (Z.log2 n))).
Proof.
  intros Hn. rewrite Nat2Z.inj_succ, Z2Nat.id by apply Z.log2_nonneg.
  destruct (Z.eq_dec n 0) as [-> | Hne]; [reflexivity |].
  apply Z.log2_spec. lia.
Qed.

(** What [ParseUint] reads back from [utoa]. *)
Lemma ParseUint_utoa n :
  0 <= n ->
  ParseUint (utoa n) 10 =
    if n <? 2 ^ 64 then (n, None) else (maxUint64, Some ErrRange).
Proof.
  intros Hn. unfold utoa.
  destruct (digitsLE_spec _ n (conj Hn (log2_fuel n Hn))) as [Hall Hval].
  set (ds := digitsLE _ n) in *.
  assert (ds <> []) as Hne by (subst ds; cbn [digitsLE]; discriminate).
  unfold ParseUint.
  destruct (string_of_list_ascii (map digitChar (rev ds))) eqn:Hs.
  - apply (f_equal list_ascii_of_string) in Hs.
    rewrite list_ascii_of_string_of_list_ascii in Hs.
    destruct ds as [| d ds']; [congruence |].
    cbn [rev] in Hs. rewrite map_app in Hs.
    destruct (map digitChar (rev ds')); discriminate.
  - rewrite <- Hs, list_ascii_of_string_of_list_ascii.
    rewrite ParseUint_loop_decimal; [| now apply Forall_rev | lia].
    rewrite decValue_rev, Hval. reflexivity.
Qed.

Lemma utoa_head n :
  0 <= n ->
  exists c rest, utoa n = String c rest
    /\ Ascii.eqb c "+" = false /\ Ascii.eqb c "-" = false.
Proof.
  intros Hn. unfold utoa.
  destruct (digitsLE_spec _ n (conj Hn (log2_fuel n Hn))) as [Hall _].
  set (ds := digitsLE _ n) in *.
  assert (ds <> []) as Hne by (subst ds; cbn [digitsLE]; discriminate).
  apply Forall_rev in Hall.
  destruct (rev ds) as [| d r] eqn:Hr.
  - apply (f_equal (@rev Z)) in Hr. rewrite rev_involutive in Hr.
    simpl in Hr. congruence.
  - inversion Hall as [| ? ? Hd _]; subst.
    cbn [map string_of_list_ascii]. eexists _, _. split; [reflexivity |].
    apply digitChar_not_sign, Hd.
Qed.

Lemma wrap64_small z : minInt64 <= z <= maxInt64 -> wrap64 z = z.
Proof.
  unfold wrap64, minInt64, maxInt64. intros H.
  rewrite Z.mod_small; lia.
Qed.

(** [ParseInt] of a non-negative decimal saturates at [maxInt64]. *)
Lemma ParseInt_utoa n :
  0 <= n -> fst (ParseInt (utoa n) 10) = clamp64 n.
Proof.
  intros Hn. destruct (utoa_head n Hn) as (c & rest & Hs & Hp & Hm).
  pose proof (ParseUint_utoa n Hn) as HP. rewrite Hs in *.
  unfold ParseInt. rewrite Hp, Hm, HP. unfold clamp64, minInt64, maxInt64, maxUint64.
  destruct (Z.ltb_spec n (2 ^ 64)) as [H64 | H64]; cbn [negb andb].
  - destruct (Z.leb_spec (2 ^ 63) n); cbn [fst]; [lia |].
    rewrite wrap64_small by (unfold minInt64, maxInt64; lia). lia.
  - change (2 ^ 63 <=? 2 ^ 64 - 1) with true. cbn [fst]. lia.
Qed.

(** [ParseInt] of a minus sign and a decimal saturates at [minInt64]. *)
Lemma ParseInt_neg_utoa n :
  0 <= n -> fst (ParseInt ("-" +:+ utoa n) 10) = clamp64 (- n).
Proof.
  intros Hn. pose proof (ParseUint_utoa n Hn) as HP.
  change ("-" +:+ utoa n) with (String "-" (utoa n)).
  unfold ParseInt. change (Ascii.eqb "-" "+") with false.
  change (Ascii.eqb "-" "-") with true. cbv iota. rewrite HP.
  unfold clamp64, minInt64, maxInt64, maxUint64.
  destruct (Z.ltb_spec n (2 ^ 64)) as [H64 | H64]; cbn [negb andb].
  - destruct (Z.ltb_spec (2 ^ 63) n); cbn [fst]; [lia |].
    destruct (Z.eq_dec n (2 ^ 63)) as [-> | Hne]; [reflexivity |].
    rewrite (wrap64_small n) by (unfold minInt64, maxInt64; lia).
    rewrite wrap64_small by (unfold minInt64, maxInt64; lia). lia.
  - change (2 ^ 63 <? 2 ^ 64 - 1) with true. cbn [fst]. lia.
Qed.

(** ** Wei to Shannon *)

Lemma round_magnitude a b :
  0 <= a -> 0 < b ->
  (2 * a + b) / (2 * b) =
    if b =? 1 then a
    else if b <=? a mod b + a mod b then a / b + 1 else a / b.
Proof.
  intros Ha Hb.
  pose proof (Z.div_mod a b ltac:(lia)) as Hdm.
  pose proof (Z.mod_pos_bound a b Hb) as Hr.
  destruct (Z.eqb_spec b 1) as [-> | Hb1].
  - symmetry. apply Z.div_unique with (r := 1); lia.
  - destruct (Z.leb_spec b (a mod b + a mod b)) as [Hup | Hdown]; symmetry.
    + apply Z.div_unique with (r := 2 * (a mod b) - b); nia.
    + apply Z.div_unique with (r := 2 * (a mod b) + b); nia.
Qed.

(** [FloatString(0)] followed by [ParseInt]: the nearest integer, halves
    away from zero, saturated to [int64]. *)
Lemma ParseInt_FloatString0 x :
  fst (ParseInt (FloatString0 x) 10) = clamp64 (roundHalfAway x).
Proof.
  unfold FloatString0, roundHalfAway.
  set (a := Qnum x). set (b := Z.pos (Qden x)).
  assert (0 < b) as Hb by (subst b; lia).
  pose proof (round_magnitude (Z.abs a) b (Z.abs_nonneg a) Hb) as Hm.
  rewrite Hm. clear Hm.
  set (m := if b =? 1 then Z.abs a
            else if b <=? Z.abs a mod b + Z.abs a mod b
                 then Z.abs a / b + 1 else Z.abs a / b).
  assert (0 <= m) as Hm0.
  { subst m. pose proof (Z.div_pos (Z.abs a) b (Z.abs_nonneg a) Hb).
    destruct (b =? 1); [lia |]. destruct (_ <=? _); lia. }
  assert ((if b =? 1 then (if a <? 0 then "-" else "") +:+ utoa (Z.abs a)
           else (if a <? 0 then "-" else "") +:+
                utoa (if b <=? Z.abs a mod b + Z.abs a mod b
                      then Z.abs a / b + 1 else Z.abs a / b))
          = (if a <? 0 then "-" else "") +:+ utoa m) as ->.
  { subst m. destruct (b =? 1); reflexivity. }
  destruct (Z.ltb_spec a 0) as [Hneg | Hpos].
  - rewrite ParseInt_neg_utoa by assumption.
    rewrite Z.sgn_neg by assumption. f_equal; lia.
  - change ("" +:+ utoa m) with (utoa m). rewrite ParseInt_utoa by assumption.
    destruct (Z.eq_dec a 0) as [Ha0 | Ha0].
    + f_equal. subst m. rewrite Ha0. simpl Z.abs.
      rewrite Z.mod_0_l, Z.div_0_l by lia.
      destruct (b =? 1); [reflexivity |].
      destruct (Z.leb_spec b (0 + 0)); [lia | reflexivity].
    + rewrite Z.sgn_pos by lia. f_equal; lia.
Qed.

Lemma weiToShannonInt64_round wei :
  weiToShannonInt64 wei = clamp64 (roundHalfAway (wei / Qc_of_Z Shannon)%Qc).
Proof. unfold weiToShannonInt64. apply ParseInt_FloatString0. Qed.

Lemma weiToShannonInt64_range wei : inInt64 (weiToShannonInt64 wei).
Proof.
  rewrite weiToShannonInt64_round.
  unfold inInt64, clamp64, minInt64, maxInt64. lia.
Qed.

(** [roundHalfAway] is a nearest integer: it is within one half of its
    argument [a/b]. *)
Lemma roundHalfAway_nearest x :
  2 * Z.abs (roundHalfAway x * Z.pos (Qden x) - Qnum x) <= Z.pos (Qden x).
Proof.
  unfold roundHalfAway.
  set (a := Qnum x). set (b := Z.pos (Qden x)).
  assert (0 < b) as Hb by (subst b; lia).
  pose proof (Z.div_mod (2 * Z.abs a + b) (2 * b) ltac:(lia)) as Hdm.
  pose proof (Z.mod_pos_bound (2 * Z.abs a + b) (2 * b) ltac:(lia)) as Hr.
  set (q := (2 * Z.abs a + b) / (2 * b)) in *.
  destruct (Z.lt_trichotomy a 0) as [Ha | [Ha | Ha]].
  - rewrite Z.sgn_neg by assumption. nia.
  - rewrite Ha. simpl. lia.
  - rewrite Z.sgn_pos by assumption. nia.
Qed.

(** ** Splitting the miners' profit *)

Lemma NewRat_nonzero a b :
  b <> 0 -> NewRat a b = Some (Qc_of_Z a / Qc_of_Z b)%Qc.
Proof.
  intros Hb. unfold NewRat. destruct (Z.eqb_spec b 0); [lia | reflexivity].
Qed.

(** With a non-zero total the loop runs through and fills both maps key by
    key. *)
Lemma calculateRewardsForShares_fmap (shares : gmap string Z) total reward :
  total <> 0 ->
  calculateRewardsForShares shares total reward =
    Some ((fun n => weiToShannonInt64
                      (reward * (Qc_of_Z n / Qc_of_Z total))%Qc) <$> shares,
          (fun n => (Qc_of_Z n / Qc_of_Z total)%Qc) <$> shares).
Proof.
  intros Ht. unfold calculateRewardsForShares.
  apply (map_fold_weak_ind
    (fun r (m : gmap string Z) =>
       r = Some ((fun n => weiToShannonInt64
                     (reward * (Qc_of_Z n / Qc_of_Z total))%Qc) <$> m,
                 (fun n => (Qc_of_Z n / Qc_of_Z total)%Qc) <$> m))).
  - rewrite !fmap_empty. reflexivity.
  - intros i x m r Hi ->. unfold rewardStep, addReward.
    rewrite NewRat_nonzero by assumption.
    rewrite lookup_fmap, Hi. cbn [fmap option_fmap option_map default].
    rewrite Z.add_0_l, wrap64_small by apply weiToShannonInt64_range.
    rewrite !fmap_insert. reflexivity.
Qed.

(** On a zero total the first miner already panics. *)
Lemma calculateRewardsForShares_zero (shares : gmap string Z) reward :
  shares <> ∅ -> calculateRewardsForShares shares 0 reward = None.
Proof.
  unfold calculateRewardsForShares.
  apply (map_fold_weak_ind
    (fun r (m : gmap string Z) => m <> ∅ -> r = None)); [congruence |].
  intros i x m r _ _ _. unfold rewardStep. destruct r as [[? ?] |]; reflexivity.
Qed.


(** ** The match predicate *)



(** ** The handlers *)

(** C8: [handleUncle] fails exactly when the uncle's number does not parse;
    otherwise the candidate gets the inclusion height, the parsed uncle
    height, the uncle's hash, [orphan = false] and the uncle reward clamped
    below at 0, which is therefore never negative.  The other fields keep
    their values. *)
Theorem C8_handleUncle_assigns {W} (deps : Deps W) (mainNet : bool)
    (height : Z) (uncle : GetBlockReply.t) (candidate : BlockData.t) :
  match parseNumber (GetBlockReply.Number uncle) with
  | Err err => handleUncle deps mainNet height uncle candidate = Err err
  | Ok uncleHeight =>
      exists c,
        handleUncle deps mainNet height uncle candidate = Ok c
        /\ BlockData.Height c = height
        /\ BlockData.UncleHeight c = uncleHeight
        /\ BlockData.Hash c = GetBlockReply.Hash uncle
        /\ BlockData.Orphan c = false
        /\ BlockData.Reward c =
             Z.max 0 (GetUncleReward deps uncleHeight height mainNet)
        /\ 0 <= BlockData.Reward c
        /\ BlockData.RoundHeight c = BlockData.RoundHeight candidate
        /\ BlockData.Nonce c = BlockData.Nonce candidate
        /\ BlockData.ExtraReward c = BlockData.ExtraReward candidate
        /\ BlockData.State c = BlockData.State candidate
  end.
Proof.
  unfold handleUncle.
  destruct (parseNumber (GetBlockReply.Number uncle)) as [uh | err];
    [| reflexivity].
  eexists. split; [reflexivity |]. cbn.
  destruct (Z.ltb_spec (GetUncleReward deps uh height mainNet) 0);
    repeat split; lia.
Qed.

Lemma bind_done {W A B} (m : M (W := W) A) (k : A -> M B) st a st1 :
  m st = (Done a, st1) -> bind m k st = k a st1.
Proof. intros H. unfold bind. rewrite H. reflexivity. Qed.

(** C4 (as stated, refuted): a candidate that carries an uncle height keeps
    it through [handleBlock]; nothing there assigns [UncleHeight]. *)
Lemma C4_uncle_height_counterexample :
  exists c st,
    handleBlock
      (sampleDeps (Ok None) (fun _ => Ok None) (fun _ _ => Ok None)
                  (fun _ => Ok None) (Ok []) (fun _ _ => Ok ∅) None
                  (fun _ _ _ => 0))
      sampleConfig true
      (sampleBlock "0x1F0" "0xaaaaaaaaaa" "0x11" [] [])
      (sampleCandidate 500 "0x11" "0xaaaaaaaaaa" 496)
      sampleStart = (Done (Ok c), st)
    /\ BlockData.Height c = 496
    /\ BlockData.UncleHeight c = 496
    /\ BlockData.UncleHeight c <> 0.
Proof. eexists _, _. split; [reflexivity |]. cbn. repeat split; lia. Qed.

(** C4 (amended): when the block's number parses and every receipt fetch
    succeeds, [handleBlock] assigns the parsed height, the block's hash,
    [orphan = false] and the reward: the constant block reward, plus the
    summed transaction fees unless [KeepTxFees], plus the uncle inclusion
    reward at that height times the number of uncles; with [KeepTxFees] the
    summed fees go to [ExtraReward] instead.  [UncleHeight] is not
    assigned: it keeps the value the candidate came with. *)
Theorem C4_handleBlock_assigns {W} (deps : Deps W) (config : UnlockerConfig)
    (mainNet : bool) (block : GetBlockReply.t) (candidate : BlockData.t)
    (st st1 : St) (height extra : Z) :
  parseNumber (GetBlockReply.Number block) = Ok height ->
  getExtraRewardForTx deps block st = (Done (Ok extra), st1) ->
  handleBlock deps config mainNet block candidate st =
    (Done (Ok (BlockData.mk
                 (BlockData.RoundHeight candidate)
                 height
                 (BlockData.Nonce candidate)
                 (GetBlockReply.Hash block)
                 (BlockData.UncleHeight candidate)
                 false
                 (GetConstReward deps height mainNet
                  + (if KeepTxFees config then 0 else extra)
                  + GetRewardForUncle deps height mainNet
                    * Z.of_nat (length (GetBlockReply.Uncles block)))
                 (if KeepTxFees config then Some extra
                  else BlockData.ExtraReward candidate)
                 (BlockData.State candidate))),
     st1).
Proof.
  intros Hparse Hextra. unfold handleBlock. rewrite Hparse.
  rewrite (bind_done _ _ _ _ _ Hextra). unfold ret.
  destruct (KeepTxFees config);
    unfold BlockData.setReward, BlockData.setHash, BlockData.setOrphan,
      BlockData.setExtraReward, BlockData.setHeight; cbn;
    repeat f_equal; lia.
Qed.

(** C4 at a block with one uncle and one transaction of 21000 gas at
    1 Gwei. *)
Lemma C4_handleBlock_witness :
  parseNumber "0x64" = Ok 100
  /\ handleBlock
       (sampleDeps (Ok None) (fun _ => Ok None) (fun _ _ => Ok None)
                   (fun _ => Ok (Some (TxReceipt.mk "0x5208")))
                   (Ok []) (fun _ _ => Ok ∅) None (fun _ _ _ => 0))
       sampleConfig true
       (sampleBlock "0x64" "0xaaaaaaaaaa" "0xABC" ["0xu0"]
                    [Tx.mk "0xt1" "0x3b9aca00"])
       (sampleCandidate 100 "0xabc" "" 0)
       sampleStart
     = (Done (Ok (BlockData.mk 100 100 "0xabc" "0xaaaaaaaaaa" 0 false
                    (2000000000000000000 + 21000000000000
                     + 62500000000000000 * 1)
                    None 0)),
        mkSt tt false None
          [EvGetTxReceipt "0xt1" (Ok (Some (TxReceipt.mk "0x5208")))]).
Proof.
  split; [reflexivity |].
  apply (C4_handleBlock_assigns
           (sampleDeps (Ok None) (fun _ => Ok None) (fun _ _ => Ok None)
                       (fun _ => Ok (Some (TxReceipt.mk "0x5208")))
                       (Ok []) (fun _ _ => Ok ∅) None (fun _ _ _ => 0))
           sampleConfig true
           (sampleBlock "0x64" "0xaaaaaaaaaa" "0xABC" ["0xu0"]
                        [Tx.mk "0xt1" "0x3b9aca00"])
           (sampleCandidate 100 "0xabc" "" 0)
           sampleStart
           (mkSt tt false None
              [EvGetTxReceipt "0xt1" (Ok (Some (TxReceipt.mk "0x5208")))])
           100 21000000000000).
  - reflexivity.
  - reflexivity.
Defined.

(** ** Fees *)

Lemma donationRate_value :
  SetFloat64 (donationFee / 100)%float = Some donationRate.
Proof.
  unfold SetFloat64. vm_compute Prim2SF. f_equal. apply Qc_is_canon.
  vm_compute. reflexivity.
Qed.

Lemma chargeFee_rate (value : Qc) (fee : float) (f : Qc) :
  SetFloat64 (fee / 100)%float = Some f ->
  chargeFee value fee = Some ((value - value * f)%Qc, (value * f)%Qc).
Proof. intros Hf. unfold chargeFee. rewrite Hf. reflexivity. Qed.

(** C2 (as stated, refuted): at a fee of 1 percent the fee taken from 100
    wei is not 100 * 1 / 100: the rate is the binary64 quotient 1.0 / 100,
    which lies above one hundredth. *)
Lemma C2_float_fee_counterexample :
  SetFloat64 1%float = Some (Qc_of_Z 1)
  /\ exists minersProfit feeValue,
       chargeFee (Qc_of_Z 100) 1%float = Some (minersProfit, feeValue)
       /\ feeValue <> (Qc_of_Z 100 * Qc_of_Z 1 / Qc_of_Z 100)%Qc
       /\ minersProfit <>
            (Qc_of_Z 100 - Qc_of_Z 100 * Qc_of_Z 1 / Qc_of_Z 100)%Qc.
Proof.
  split.
  - unfold SetFloat64. vm_compute Prim2SF. f_equal. apply Qc_is_canon.
    vm_compute. reflexivity.
  - eexists _, _. split; [reflexivity |].
    split; intros H; apply (f_equal (fun q : Qc => Qnum q)) in H;
      vm_compute in H; discriminate.
Qed.

Lemma call_run {W A} (f : W -> A * W) (ev : A -> Event) (st : St) :
  call f ev st =
    (Done (fst (f (world st))),
     mkSt (snd (f (world st))) (halt st) (lastFail st)
          (trace st ++ [ev (fst (f (world st)))])).
Proof. unfold call, emit. destruct (f (world st)); reflexivity. Qed.

(** ** The credited amounts *)




(** C2 (amended): [chargeFee] returns exactly [(v - v*f, v*f)] where [f] is
    the exact rational value of the binary64 quotient [fee / 100], not the
    rational [fee/100] itself.  From there on [calculateRewards] is exact:
    with [R] the block reward, [X] the kept transaction fees (or 0), [f]
    and [g] the pool and donation rates, it returns miners' profit
    [R - R*f], revenue [R + X], pool profit [R*f + X - D] with donation
    [D = (R*f + X)*g] when donating and 0 otherwise, so that revenue is
    exactly the sum of the three; each percentage is exactly
    [n / total]. *)
Theorem C2_exact_after_float_rate {W} (deps : Deps W)
    (config : UnlockerConfig) :
  (forall (value : Qc) (fee : float) (f : Qc),
     SetFloat64 (fee / 100)%float = Some f ->
     chargeFee value fee = Some ((value - value * f)%Qc, (value * f)%Qc))
  /\ (forall (block : BlockData.t) (st st' : St)
        (revenue minersProfit poolProfit : Qc)
        (rewards : gmap string Z) (percents : gmap string Qc),
        calculateRewards deps config block st =
          (Done (RewardsOk revenue minersProfit poolProfit rewards percents),
           st') ->
        exists (f : Qc) (shares : gmap string Z),
          SetFloat64 (PoolFee config / 100)%float = Some f
          /\ fst (GetRoundShares deps (BlockData.RoundHeight block)
                    (BlockData.Nonce block) (world st)) = Ok shares
          /\ let R := Qc_of_Z (BlockData.Reward block) in
             let X := match BlockData.ExtraReward block with
                      | Some extra => Qc_of_Z extra
                      | None => 0%Qc
                      end in
             let D := if Donate config
                      then ((R * f + X) * donationRate)%Qc else 0%Qc in
             minersProfit = (R - R * f)%Qc
             /\ revenue = (R + X)%Qc
             /\ poolProfit = (R * f + X - D)%Qc
             /\ revenue = (minersProfit + poolProfit + D)%Qc
             /\ percents =
                  (fun n => (Qc_of_Z n / Qc_of_Z (sumShares shares))%Qc)
                    <$> shares).
Proof.
  split; [apply chargeFee_rate |].
  intros block st st' revenue mp pp rewards percents Hrun.
  unfold calculateRewards in Hrun.
  destruct (SetFloat64 (PoolFee config / 100)%float) as [f |] eqn:Hf.
  2:{ unfold chargeFee in Hrun. rewrite Hf in Hrun. discriminate. }
  rewrite (chargeFee_rate _ _ _ Hf) in Hrun.
  unfold bind, backendGetRoundShares in Hrun. rewrite call_run in Hrun.
  destruct (fst (GetRoundShares deps _ _ (world st))) as [shares | err] eqn:Hs;
    [| discriminate].
  destruct (Z.eqb_spec (Z.of_nat (size shares)) 0) as [| Hsz];
    [discriminate |].
  destruct (Z.eq_dec (sumShares shares) 0) as [Hz | Hnz].
  { rewrite Hz, calculateRewardsForShares_zero in Hrun; [discriminate |].
    intros ->. apply Hsz. rewrite map_size_empty. reflexivity. }
  rewrite calculateRewardsForShares_fmap in Hrun by assumption.
  unfold creditPool in Hrun.
  exists f, shares. split; [reflexivity |]. split; [reflexivity |].
  cbv zeta.
  destruct (Donate config).
  - rewrite (chargeFee_rate _ donationFee _ donationRate_value) in Hrun.
    destruct (BlockData.ExtraReward block) as [extra |];
      unfold ret in Hrun; injection Hrun as <- <- <- _ <- _;
      repeat split; ring.
  - destruct (BlockData.ExtraReward block) as [extra |];
      unfold ret in Hrun; injection Hrun as <- <- <- _ <- _;
      repeat split; ring.
Qed.

(** C2 at a fee of 1 percent: the rate is 5764607523034235 / 2^59, and the
    split of 1 ether is exact from there on. *)
Lemma C2_exact_witness :
  SetFloat64 (1 / 100)%float = Some (Q2Qc (5764607523034235 # 576460752303423488))
  /\ chargeFee (Qc_of_Z 100) 1%float =
       Some ((Qc_of_Z 100
              - Qc_of_Z 100 * Q2Qc (5764607523034235 # 576460752303423488))%Qc,
             (Qc_of_Z 100
              * Q2Qc (5764607523034235 # 576460752303423488))%Qc)
  /\ exists revenue minersProfit poolProfit rewards percents st1,
       calculateRewards
         (sampleDeps (Ok None) (fun _ => Ok None) (fun _ _ => Ok None)
            (fun _ => Ok None) (Ok [])
            (fun _ _ => Ok {[ "A" := 70; "B" := 30 ]}) None (fun _ _ _ => 0))
         sampleConfig
         (BlockData.mk 100 100 "0xabc" "0xaaaaaaaaaa" 0 false
            1000000000000000000 None 0)
         sampleStart
       = (Done (RewardsOk revenue minersProfit poolProfit rewards percents),
          st1)
       /\ revenue = (minersProfit + poolProfit + 0)%Qc.
Proof.
  assert (SetFloat64 (1 / 100)%float
          = Some (Q2Qc (5764607523034235 # 576460752303423488))) as Hrate.
  { unfold SetFloat64. vm_compute Prim2SF.
    f_equal; try (apply Qc_is_canon; vm_compute; reflexivity). }
  pose proof (C2_exact_after_float_rate
                (sampleDeps (Ok None) (fun _ => Ok None) (fun _ _ => Ok None)
                   (fun _ => Ok None) (Ok [])
                   (fun _ _ => Ok {[ "A" := 70; "B" := 30 ]}) None
                   (fun _ _ _ => 0))
                sampleConfig) as [Hfee Hcalc].
  split; [exact Hrate |].
  split; [exact (Hfee (Qc_of_Z 100) 1%float _ Hrate) |].
  destruct (calculateRewards
         (sampleDeps (Ok None) (fun _ => Ok None) (fun _ _ => Ok None)
            (fun _ => Ok None) (Ok [])
            (fun _ _ => Ok {[ "A" := 70; "B" := 30 ]}) None (fun _ _ _ => 0))
         sampleConfig
         (BlockData.mk 100 100 "0xabc" "0xaaaaaaaaaa" 0 false
            1000000000000000000 None 0)
         sampleStart) as [out st1] eqn:Hrun.
  assert (exists revenue mp pp rewards percents,
            out = Done (RewardsOk revenue mp pp rewards percents))
    as (revenue & mp & pp & rewards & percents & ->).
  { vm_compute in Hrun. injection Hrun as <- _.
    eexists _, _, _, _, _; reflexivity. }
  exists revenue, mp, pp, rewards, percents, st1. split; [reflexivity |].
  destruct (Hcalc _ _ _ _ _ _ _ _ Hrun) as (f & shares & _ & _ & Hx).
  cbv zeta in Hx. cbn [Donate sampleConfig] in Hx. apply Hx.
Defined.

(** ** Transaction fees *)




(** ** A round without shares *)

Lemma calculateRewards_no_shares {W} (deps : Deps W) (config : UnlockerConfig)
    (block : BlockData.t) (st : St) (f : Qc) (w1 : W) :
  SetFloat64 (PoolFee config / 100)%float = Some f ->
  GetRoundShares deps (BlockData.RoundHeight block) (BlockData.Nonce block)
    (world st) = (Ok ∅, w1) ->
  calculateRewards deps config block st =
    (Done RewardsNone,
     mkSt w1 (halt st) (lastFail st)
       (trace st ++ [EvGetRoundShares (BlockData.RoundHeight block)
                       (BlockData.Nonce block) (Ok ∅)])).
Proof.
  intros Hf Hs. unfold calculateRewards.
  rewrite (chargeFee_rate _ _ _ Hf).
  unfold bind, backendGetRoundShares. rewrite call_run, Hs. cbn [fst snd].
  rewrite map_size_empty. reflexivity.
Qed.

(** Both credit loops, at a block whose round has no shares: the marker is
    written, its result is dropped, and the loop goes on with the next
    block from a state whose [halt] and [lastFail] are untouched. *)
Lemma immatureLoop_no_shares {W} (deps : Deps W) (config : UnlockerConfig)
    (block : BlockData.t) (rest : list BlockData.t) (st : St) (f : Qc)
    (w1 w2 : W) (r : option error) :
  SetFloat64 (PoolFee config / 100)%float = Some f ->
  GetRoundShares deps (BlockData.RoundHeight block) (BlockData.Nonce block)
    (world st) = (Ok ∅, w1) ->
  WriteImmatureError deps block 0 1 w1 = (r, w2) ->
  immatureLoop deps config (block :: rest) st =
    immatureLoop deps config rest
      (mkSt w2 (halt st) (lastFail st)
         (trace st ++
          [EvGetRoundShares (BlockData.RoundHeight block)
             (BlockData.Nonce block) (Ok ∅);
           EvWriteImmatureError block 0 1 r;
           EvLog "Failure: Redis has no one to share the rewards with"])).
Proof.
  intros Hf Hs Hw. cbn [immatureLoop].
  rewrite (bind_done _ _ _ _ _ (calculateRewards_no_shares _ _ _ _ _ _ Hf Hs)).
  unfold bind, dbWriteImmatureError, logf, emit.
  rewrite call_run. cbn [world halt lastFail trace]. rewrite Hw.
  cbn [fst snd]. rewrite <- !app_assoc. reflexivity.
Qed.

Lemma maturedLoop_no_shares {W} (deps : Deps W) (config : UnlockerConfig)
    (block : BlockData.t) (rest : list BlockData.t) (st : St) (f : Qc)
    (w1 w2 : W) (r : option error) :
  SetFloat64 (PoolFee config / 100)%float = Some f ->
  GetRoundShares deps (BlockData.RoundHeight block) (BlockData.Nonce block)
    (world st) = (Ok ∅, w1) ->
  WriteImmatureError deps block (BlockData.State block) 2 w1 = (r, w2) ->
  maturedLoop deps config (block :: rest) st =
    maturedLoop deps config rest
      (mkSt w2 (halt st) (lastFail st)
         (trace st ++
          [EvGetRoundShares (BlockData.RoundHeight block)
             (BlockData.Nonce block) (Ok ∅);
           EvWriteImmatureError block (BlockData.State block) 2 r;
           EvLog "Failed: No round_block information for reward in Redis.";
           EvLog "Failed: No round_block information for reward in Redis."])).
Proof.
  intros Hf Hs Hw. cbn [maturedLoop].
  rewrite (bind_done _ _ _ _ _ (calculateRewards_no_shares _ _ _ _ _ _ Hf Hs)).
  unfold bind, dbWriteImmatureError, logf, emit.
  rewrite call_run. cbn [world halt lastFail trace]. rewrite Hw.
  cbn [fst snd]. rewrite <- !app_assoc. reflexivity.
Qed.

(** C7: at a matured candidate whose round has no shares (and with a
    finite pool fee), Pass 1 asks for the shares, writes the marker
    [WriteImmatureError(c, 0, 1)], logs, and goes on with the next
    candidate; Pass 2 does the same with [WriteImmatureError(c, c.State, 2)].
    No credit write for that candidate is among the events, and [halt] and
    [lastFail] are as before. *)
Theorem C7_no_shares_marker_and_continue {W} (deps : Deps W)
    (config : UnlockerConfig) (block : BlockData.t)
    (rest : list BlockData.t) (st : St) (f : Qc) (w1 wa wb : W)
    (ra rb : option error) :
  SetFloat64 (PoolFee config / 100)%float = Some f ->
  GetRoundShares deps (BlockData.RoundHeight block) (BlockData.Nonce block)
    (world st) = (Ok ∅, w1) ->
  WriteImmatureError deps block 0 1 w1 = (ra, wa) ->
  WriteImmatureError deps block (BlockData.State block) 2 w1 = (rb, wb) ->
  immatureLoop deps config (block :: rest) st =
    immatureLoop deps config rest
      (mkSt wa (halt st) (lastFail st)
         (trace st ++
          [EvGetRoundShares (BlockData.RoundHeight block)
             (BlockData.Nonce block) (Ok ∅);
           EvWriteImmatureError block 0 1 ra;
           EvLog "Failure: Redis has no one to share the rewards with"]))
  /\ maturedLoop deps config (block :: rest) st =
       maturedLoop deps config rest
         (mkSt wb (halt st) (lastFail st)
            (trace st ++
             [EvGetRoundShares (BlockData.RoundHeight block)
                (BlockData.Nonce block) (Ok ∅);
              EvWriteImmatureError block (BlockData.State block) 2 rb;
              EvLog "Failed: No round_block information for reward in Redis.";
              EvLog "Failed: No round_block information for reward in Redis."])).
Proof.
  intros Hf Hs Ha Hb. split.
  - exact (immatureLoop_no_shares deps config block rest st f w1 wa ra
             Hf Hs Ha).
  - exact (maturedLoop_no_shares deps config block rest st f w1 wb rb
             Hf Hs Hb).
Qed.

(** C7 at a single matured block in state 7 whose round has no shares. *)
Lemma C7_no_shares_witness :
  SetFloat64 (PoolFee sampleConfig / 100)%float
    = Some (Q2Qc (5764607523034235 # 576460752303423488))
  /\ immatureLoop
       (sampleDeps (Ok None) (fun _ => Ok None) (fun _ _ => Ok None)
          (fun _ => Ok None) (Ok []) (fun _ _ => Ok ∅) None (fun _ _ _ => 0))
       sampleConfig
       [BlockData.mk 100 100 "0xabc" "0xaaaaaaaaaa" 0 false
          2000000000000000000 None 7]
       sampleStart
     = (Done true,
        mkSt tt false None
          [EvGetRoundShares 100 "0xabc" (Ok ∅);
           EvWriteImmatureError
             (BlockData.mk 100 100 "0xabc" "0xaaaaaaaaaa" 0 false
                2000000000000000000 None 7) 0 1 None;
           EvLog "Failure: Redis has no one to share the rewards with"])
  /\ maturedLoop
       (sampleDeps (Ok None) (fun _ => Ok None) (fun _ _ => Ok None)
          (fun _ => Ok None) (Ok []) (fun _ _ => Ok ∅) None (fun _ _ _ => 0))
       sampleConfig
       [BlockData.mk 100 100 "0xabc" "0xaaaaaaaaaa" 0 false
          2000000000000000000 None 7]
       sampleStart
     = (Done true,
        mkSt tt false None
          [EvGetRoundShares 100 "0xabc" (Ok ∅);
           EvWriteImmatureError
             (BlockData.mk 100 100 "0xabc" "0xaaaaaaaaaa" 0 false
                2000000000000000000 None 7) 7 2 None;
           EvLog "Failed: No round_block information for reward in Redis.";
           EvLog "Failed: No round_block information for reward in Redis."]).
Proof.
  assert (SetFloat64 (PoolFee sampleConfig / 100)%float
          = Some (Q2Qc (5764607523034235 # 576460752303423488))) as Hrate.
  { unfold SetFloat64. vm_compute Prim2SF.
    f_equal; try (apply Qc_is_canon; vm_compute; reflexivity). }
  split; [exact Hrate |].
  destruct (C7_no_shares_marker_and_continue
              (sampleDeps (Ok None) (fun _ => Ok None) (fun _ _ => Ok None)
                 (fun _ => Ok None) (Ok []) (fun _ _ => Ok ∅) None
                 (fun _ _ _ => 0))
              sampleConfig
              (BlockData.mk 100 100 "0xabc" "0xaaaaaaaaaa" 0 false
                 2000000000000000000 None 7)
              [] sampleStart _ tt tt tt None None
              Hrate eq_refl eq_refl eq_refl) as [Ha Hb].
  split; [rewrite Ha | rewrite Hb]; reflexivity.
Defined.

(** C10: whatever the marker write returns, a failure included, both
    credit loops drop it: [halt] and [lastFail] stay as they were and the
    loop goes on with the next candidate.  The failed write is in the trace
    and nothing reads its error. *)
Theorem C10_marker_write_error_discarded {W} (deps : Deps W)
    (config : UnlockerConfig) (block : BlockData.t)
    (rest : list BlockData.t) (st : St) (f : Qc) (w1 wa wb : W)
    (erra errb : error) :
  SetFloat64 (PoolFee config / 100)%float = Some f ->
  GetRoundShares deps (BlockData.RoundHeight block) (BlockData.Nonce block)
    (world st) = (Ok ∅, w1) ->
  WriteImmatureError deps block 0 1 w1 = (Some erra, wa) ->
  WriteImmatureError deps block (BlockData.State block) 2 w1
    = (Some errb, wb) ->
  (exists st2,
     immatureLoop deps config (block :: rest) st
       = immatureLoop deps config rest st2
     /\ halt st2 = halt st /\ lastFail st2 = lastFail st
     /\ EvWriteImmatureError block 0 1 (Some erra) ∈ trace st2)
  /\ (exists st2,
        maturedLoop deps config (block :: rest) st
          = maturedLoop deps config rest st2
        /\ halt st2 = halt st /\ lastFail st2 = lastFail st
        /\ EvWriteImmatureError block (BlockData.State block) 2 (Some errb)
             ∈ trace st2).
Proof.
  intros Hf Hs Ha Hb. split; eexists.
  - split; [exact (immatureLoop_no_shares deps config block rest st f w1 wa
                     (Some erra) Hf Hs Ha) |].
    cbn. repeat split. set_solver.
  - split; [exact (maturedLoop_no_shares deps config block rest st f w1 wb
                     (Some errb) Hf Hs Hb) |].
    cbn. repeat split. set_solver.
Qed.

(** C10 in a world whose marker write fails. *)
Lemma C10_marker_write_witness :
  SetFloat64 (PoolFee sampleConfig / 100)%float
    = Some (Q2Qc (5764607523034235 # 576460752303423488))
  /\ exists st2,
       immatureLoop
         (sampleDeps (Ok None) (fun _ => Ok None) (fun _ _ => Ok None)
            (fun _ => Ok None) (Ok []) (fun _ _ => Ok ∅)
            (Some (ErrExternal "db down")) (fun _ _ _ => 0))
         sampleConfig
         [BlockData.mk 100 100 "0xabc" "0xaaaaaaaaaa" 0 false
            2000000000000000000 None 7]
         sampleStart
       = (Done true, st2)
       /\ halt st2 = false /\ lastFail st2 = None.
Proof.
  assert (SetFloat64 (PoolFee sampleConfig / 100)%float
          = Some (Q2Qc (5764607523034235 # 576460752303423488))) as Hrate.
  { unfold SetFloat64. vm_compute Prim2SF.
    f_equal; try (apply Qc_is_canon; vm_compute; reflexivity). }
  split; [exact Hrate |].
  destruct (C10_marker_write_error_discarded
              (sampleDeps (Ok None) (fun _ => Ok None) (fun _ _ => Ok None)
                 (fun _ => Ok None) (Ok []) (fun _ _ => Ok ∅)
                 (Some (ErrExternal "db down")) (fun _ _ _ => 0))
              sampleConfig
              (BlockData.mk 100 100 "0xabc" "0xaaaaaaaaaa" 0 false
                 2000000000000000000 None 7)
              [] sampleStart _ tt tt tt
              (ErrExternal "db down") (ErrExternal "db down")
              Hrate eq_refl eq_refl eq_refl)
    as [(st2 & Hrun & Hh & Hl & _) _].
  exists st2. split; [rewrite Hrun; reflexivity |].
  split; [rewrite Hh | rewrite Hl]; reflexivity.
Defined.

(** ** Rules for [wp] *)

Section Rules.
Context {W : Type}.
Implicit Types st : St (W := W).

Lemma wp_ret {A} (a : A) Q st : Q (Done a) st [] -> wp (ret a) Q st.
Proof. intros H. exists []. cbn. rewrite app_nil_r. auto. Qed.

Lemma wp_panic {A} why (Q : Outcome A -> St -> list Event -> Prop) st :
  Q (Panic why) st [] -> wp (panic why) Q st.
Proof. intros H. exists []. cbn. rewrite app_nil_r. auto. Qed.

Lemma wp_bind {A B} (p : M A) (k : A -> M B) Q st :
  wp p (fun out st1 evs1 =>
          match out with
          | Done a => wp (k a) (fun out2 st2 evs2 => Q out2 st2 (evs1 ++ evs2)) st1
          | Panic why => Q (Panic why) st1 evs1
          end) st ->
  wp (bind p k) Q st.
Proof.
  intros (evs1 & Htr & H). unfold bind, wp.
  destruct (p st) as [[a | why] st1]; cbn in *.
  - destruct H as (evs2 & Htr2 & H). exists (evs1 ++ evs2).
    rewrite Htr2, Htr, app_assoc. auto.
  - exists evs1. auto.
Qed.

Lemma wp_call {A} (f : W -> A * W) (ev : A -> Event) Q st :
  (forall r w, f (world st) = (r, w) ->
     Q (Done r) (mkSt w (halt st) (lastFail st) (trace st ++ [ev r]))
       [ev r]) ->
  wp (call f ev) Q st.
Proof.
  intros H. unfold wp. rewrite call_run. cbn.
  destruct (f (world st)) as [r w] eqn:Hf. exists [ev r]. cbn. auto.
Qed.

Lemma wp_logf format Q st :
  Q (Done tt) (emit (EvLog format) st) [EvLog format] ->
  wp (logf format) Q st.
Proof. intros H. exists [EvLog format]. cbn. auto. Qed.

Lemma wp_setHalt err Q st :
  Q (Done tt) (mkSt (world st) true (Some err) (trace st)) [] ->
  wp (setHalt err) Q st.
Proof. intros H. exists []. cbn. rewrite app_nil_r. auto. Qed.

Lemma wp_getHalt Q st : Q (Done (halt st)) st [] -> wp getHalt Q st.
Proof. intros H. exists []. cbn. rewrite app_nil_r. auto. Qed.

Lemma wp_mono {A} (p : M A) (Q Q' : Outcome A -> St -> list Event -> Prop)
    st :
  (forall out st1 evs, Q out st1 evs -> Q' out st1 evs) ->
  wp p Q st -> wp p Q' st.
Proof. intros HQ (evs & Htr & H). exists evs. auto. Qed.

Lemma wp_run {A} (p : M A) Q st out st1 :
  wp p Q st -> p st = (out, st1) ->
  exists evs, trace st1 = trace st ++ evs /\ Q out st1 evs.
Proof. intros (evs & Htr & H) Hrun. rewrite Hrun in *. eauto. Qed.

Lemma clean_nil : clean [].
Proof. constructor. Qed.

Lemma clean_app a b : clean a -> clean b -> clean (a ++ b).
Proof. apply Forall_app_2. Qed.

Lemma clean_one ev : fatalError ev = None -> clean [ev].
Proof. intros H. constructor; [assumption | constructor]. Qed.

Lemma passed_refl st : passed st st [].
Proof. repeat split. constructor. Qed.

Lemma passed_trans st st1 st2 a b :
  passed st st1 a -> passed st1 st2 b -> passed st st2 (a ++ b).
Proof.
  intros (Ha & Hh & Hl) (Hb & Hh' & Hl'). repeat split.
  - apply clean_app; assumption.
  - congruence.
  - congruence.
Qed.

Lemma aborted_one ev e err :
  fatalError ev = Some e -> reports err e -> aborted [ev] err.
Proof.
  intros Hev Hr. exists [], ev, [], e.
  repeat split; [constructor | assumption | constructor | assumption].
Qed.

Lemma aborted_app_l a b err : clean a -> aborted b err -> aborted (a ++ b) err.
Proof.
  intros Ha (pre & ev & post & e & -> & Hpre & Hev & Hpost & Hr).
  exists (a ++ pre), ev, post, e. rewrite app_assoc.
  repeat split; try assumption. apply clean_app; assumption.
Qed.

Lemma aborted_app_logs a b err :
  aborted a err -> Forall (fun ev => isLog ev = true) b ->
  aborted (a ++ b) err.
Proof.
  intros (pre & ev & post & e & -> & Hpre & Hev & Hpost & Hr) Hb.
  exists pre, ev, (post ++ b), e. rewrite <- app_assoc.
  repeat split; try assumption. apply Forall_app_2; assumption.
Qed.

Lemma failed_app_l a b err : clean a -> failed b err -> failed (a ++ b) err.
Proof.
  intros Ha [Hb | Hb]; [left; apply clean_app | right; apply aborted_app_l];
    assumption.
Qed.

End Rules.

(** ** Reading the trace of a search *)

Lemma fetchedHeights_app a b :
  fetchedHeights (a ++ b) = fetchedHeights a ++ fetchedHeights b.
Proof. apply omap_app. Qed.

Lemma replies_app a b : replies (a ++ b) = replies a ++ replies b.
Proof. apply omap_app. Qed.

Lemma Forall_removelast {A} (P : A -> Prop) l :
  Forall P l -> Forall P (removelast l).
Proof.
  induction 1 as [| x l Hx Hl IH]; [constructor |].
  destruct l; [constructor |]. cbn. constructor; assumption.
Qed.

Lemma Forall_removelast_cons {A} (P : A -> Prop) x l :
  P x -> Forall P (removelast l) -> Forall P (removelast (x :: l)).
Proof.
  intros Hx Hl. destruct l as [| y l]; [constructor |].
  change (removelast (x :: y :: l)) with (x :: removelast (y :: l)).
  constructor; assumption.
Qed.

Lemma last_cons_found {A} (x y : A) l :
  last l = Some y -> last (x :: l) = Some y.
Proof. intros H. rewrite last_cons, H. reflexivity. Qed.

(** ** The handlers inside a pass *)

Section Procedures.
Context {W : Type}.
Variable deps : Deps W.
Variable config : UnlockerConfig.
Variable mainNet : bool.
Implicit Types st : St (W := W).

Lemma txLoop_wp txs : forall amount st,
  wp (txLoop deps txs amount)
     (fun out st1 evs =>
        fetchedHeights evs = [] /\ replies evs = []
        /\ halt st1 = halt st /\ lastFail st1 = lastFail st
        /\ match out with
           | Done (Ok _) => clean evs
           | Done (Err err) =>
               exists pre ev, evs = pre ++ [ev] /\ clean pre
                              /\ fatalError ev = Some err
           | Panic _ => False
           end) st.
Proof.
  induction txs as [| tx rest IH]; intros amount st; cbn [txLoop].
  - apply wp_ret. repeat split. constructor.
  - apply wp_bind, wp_call. intros [[receipt |] | err] w _.
    + eapply wp_mono; [| apply IH].
      intros out st1 evs (Hf & Hr & Hh & Hl & Hout). cbn.
      repeat split; try assumption.
      destruct out as [[total | err] | why]; [| | assumption].
      * constructor; [reflexivity | assumption].
      * destruct Hout as (pre & ev & -> & Hpre & Hev).
        exists (EvGetTxReceipt (Tx.Hash tx) (Ok (Some receipt)) :: pre), ev.
        repeat split; [| assumption]. constructor; [reflexivity | assumption].
    + eapply wp_mono; [| apply IH].
      intros out st1 evs (Hf & Hr & Hh & Hl & Hout). cbn.
      repeat split; try assumption.
      destruct out as [[total | err] | why]; [| | assumption].
      * constructor; [reflexivity | assumption].
      * destruct Hout as (pre & ev & -> & Hpre & Hev).
        exists (EvGetTxReceipt (Tx.Hash tx) (Ok None) :: pre), ev.
        repeat split; [| assumption]. constructor; [reflexivity | assumption].
    + apply wp_ret. cbn. repeat split.
      exists [], (EvGetTxReceipt (Tx.Hash tx) (Err err)).
      repeat split. constructor.
Qed.

Lemma handleBlock_wp block c st :
  wp (handleBlock deps config mainNet block c)
     (fun out st1 evs =>
        fetchedHeights evs = [] /\ replies evs = []
        /\ match out with
           | Done (Ok c1) => passed st st1 evs /\ BlockData.Orphan c1 = false
           | Done (Err err) => failed evs err
           | Panic _ => False
           end) st.
Proof.
  unfold handleBlock.
  destruct (parseNumber (GetBlockReply.Number block)) as [height | err].
  2:{ apply wp_ret. repeat split. left. constructor. }
  apply wp_bind. unfold getExtraRewardForTx.
  eapply wp_mono; [| apply txLoop_wp].
  intros out st1 evs (Hf & Hr & Hh & Hl & Hout).
  destruct out as [[extra | err] | why]; [| | contradiction].
  - apply wp_ret. rewrite app_nil_r.
    repeat split; assumption.
  - apply wp_ret. rewrite app_nil_r. repeat split; try assumption.
    destruct Hout as (pre & ev & -> & Hpre & Hev). right.
    exists pre, ev, [], err.
    repeat split; try assumption; constructor.
Qed.
End Procedures.

Lemma fetchedHeights_log format : fetchedHeights [EvLog format] = [].
Proof. reflexivity. Qed.

Lemma replies_log format : replies [EvLog format] = [].
Proof. reflexivity. Qed.

Ltac evs_norm := rewrite ?app_nil_r; rewrite ?app_nil_l.

Ltac trace_facts :=
  rewrite ?fetchedHeights_app, ?replies_app,
    ?fetchedHeights_log, ?replies_log;
  repeat match goal with
         | H : fetchedHeights ?e = _ |- context [fetchedHeights ?e] =>
             rewrite H
         | H : replies ?e = [] |- context [replies ?e] => rewrite H
         end;
  rewrite ?app_nil_r.

(** ** The search of one candidate *)

Section Search.
Context {W : Type}.
Variable deps : Deps W.
Variable config : UnlockerConfig.
Variable mainNet : bool.
Implicit Types st : St (W := W).

Lemma resultSpec_prefix {A} st st0 st1 (a evs : list Event)
    (P P' : A -> list Event -> Prop) out :
  passed st st0 a ->
  resultSpec st0 P out st1 evs ->
  (forall x, P x evs -> P' x (a ++ evs)) ->
  resultSpec st P' out st1 (a ++ evs).
Proof.
  intros Ha Hspec HP. destruct out as [[x | err] | why]; cbn in *.
  - destruct Hspec as [Hp Hx]. split; [| auto].
    eapply passed_trans; eassumption.
  - apply failed_app_l; [apply Ha | assumption].
  - eapply passed_trans; eassumption.
Qed.

Lemma handleUncle_orphan height uncle c c1 :
  handleUncle deps mainNet height uncle c = Ok c1 ->
  BlockData.Orphan c1 = false.
Proof.
  unfold handleUncle.
  destruct (parseNumber (GetBlockReply.Number uncle)); [| discriminate].
  intros [= <-]. reflexivity.
Qed.

Lemma foundBy_cons c res res1 ev evs :
  foundBy c res res1 evs -> foundBy c res res1 (ev :: evs).
Proof.
  intros (c1 & b1 & Hlast & Hrest). exists c1, b1. split; [| assumption].
  change (ev :: evs) with ([ev] ++ evs). rewrite replies_app.
  destruct (replies [ev]) as [| b l] eqn:Hev; [assumption |].
  assert (l = []) as ->.
  { unfold replies in Hev. cbn in Hev.
    destruct ev as [| ? [[?|]|] | ? ? [[?|]|] | | | | | | | | | |];
      cbn in Hev; congruence. }
  apply last_cons_found. assumption.
Qed.

Lemma uncleLoop_wp height (hashes : list string) : forall index s st,
  wp (uncleLoop deps mainNet height index hashes s)
     (fun out st1 evs =>
        fetchedHeights evs = []
        /\ Forall (fun b => matchCandidate b (candidate s) = false)
             (removelast (replies evs))
        /\ resultSpec st
             (fun s1 evs =>
                (s1 = s
                 /\ Forall (fun b => matchCandidate b (candidate s) = false)
                      (replies evs))
                \/ (orphan s1 = false
                    /\ foundBy (candidate s) (result_ s) (result_ s1) evs))
             out st1 evs) st.
Proof.
  induction hashes as [| uncleHash rest IH]; intros index s st;
    cbn [uncleLoop].
  - apply wp_ret. split; [reflexivity |]. split; [constructor |].
    split; [apply passed_refl |]. left. split; [reflexivity | constructor].
  - apply wp_bind, wp_call. intros [[uncle |] | err] w _.
    + destruct (matchCandidate uncle (candidate s)) eqn:Hm.
      * destruct (handleUncle deps mainNet height uncle (candidate s))
          as [c1 | err] eqn:Hu.
        -- apply wp_bind. unfold slice10.
           destruct (len (GetBlockReply.Hash uncle) <? 10).
           ++ apply wp_panic. cbn. split; [reflexivity |].
              split; [constructor |]. repeat split.
              apply clean_one. reflexivity.
           ++ apply wp_ret, wp_bind, wp_logf, wp_ret. cbn.
              split; [reflexivity |]. split; [constructor |]. split.
              ** repeat split. repeat constructor.
              ** right. split; [reflexivity |]. exists c1, uncle.
                 repeat split; [assumption |].
                 eapply handleUncle_orphan; eassumption.
        -- apply wp_bind, wp_setHalt, wp_ret. cbn.
           split; [reflexivity |]. split; [constructor |].
           left. apply clean_one. reflexivity.
      * eapply wp_mono; [| apply IH].
        intros out st1 evs (Hf & Hrm & Hspec).
        split; [rewrite fetchedHeights_app, Hf; reflexivity |].
        split; [rewrite replies_app; apply Forall_removelast_cons;
                assumption |].
        eapply resultSpec_prefix; [| exact Hspec |].
        -- repeat split. apply clean_one. reflexivity.
        -- intros s1 [[-> Hall] | [Ho Hfound]].
           ++ left. split; [reflexivity |]. rewrite replies_app.
              constructor; assumption.
           ++ right. split; [assumption |].
              apply foundBy_cons. assumption.
    + apply wp_ret. cbn. split; [reflexivity |]. split; [constructor |].
      left. apply clean_one. reflexivity.
    + apply wp_ret. cbn. split; [reflexivity |]. split; [constructor |].
      right. eapply aborted_one; [reflexivity | constructor].
Qed.

Lemma Forall_removelast_app {A} (P : A -> Prop) a b :
  Forall P a -> Forall P (removelast b) -> Forall P (removelast (a ++ b)).
Proof.
  intros Ha Hb. destruct b as [| x b].
  - rewrite app_nil_r. apply Forall_removelast, Ha.
  - rewrite removelast_app by discriminate. apply Forall_app_2; assumption.
Qed.

Lemma foundBy_app c res res1 a evs :
  foundBy c res res1 evs -> foundBy c res res1 (a ++ evs).
Proof.
  induction a as [| ev a IH]; intros H; [assumption |].
  apply foundBy_cons, IH, H.
Qed.

Lemma seqZ_step m (n : nat) :
  seqZ m (Z.of_nat (S n)) = m :: seqZ (m + 1) (Z.of_nat n).
Proof.
  rewrite seqZ_cons by lia. f_equal. f_equal; lia.
Qed.

Lemma passed_one st (w : W) ev evs st1 :
  fatalError ev = None ->
  passed (mkSt w (halt st) (lastFail st) (trace st ++ [ev])) st1 evs ->
  passed st st1 ([ev] ++ evs).
Proof.
  intros Hev Hp. eapply (passed_trans st _ st1); [| exact Hp].
  repeat split. apply clean_one, Hev.
Qed.

Lemma passed_log st st1 evs format :
  passed st st1 evs -> passed st (emit (EvLog format) st1) (evs ++ [EvLog format]).
Proof.
  intros Hp. eapply (passed_trans st st1); [exact Hp |].
  repeat split. apply clean_one. reflexivity.
Qed.

Lemma scanHeights_step height i n :
  scanHeights height i (S n) =
    if decide (0 <= wrap64 (height + i))
    then wrap64 (height + i) :: scanHeights height (i + 1) n
    else scanHeights height (i + 1) n.
Proof.
  unfold scanHeights. rewrite seqZ_step, fmap_cons.
  destruct (decide (0 <= wrap64 (height + i)));
    [rewrite filter_cons_True | rewrite filter_cons_False];
    auto.
Qed.

(** The window loop with [n] iterations left from offset [i]. *)
Lemma windowLoop_wp (n : nat) : forall i s st,
  orphan s = true ->
  wp (windowLoop deps config mainNet n i s)
     (fun out st1 evs =>
        scanned (candidate s)
          (scanHeights (BlockData.Height (candidate s)) i n) evs
        /\ resultSpec st
             (fun s1 evs =>
                (s1 = s
                 /\ fetchedHeights evs =
                      scanHeights (BlockData.Height (candidate s)) i n
                 /\ Forall (fun b => matchCandidate b (candidate s) = false)
                      (replies evs))
                \/ (orphan s1 = false
                    /\ foundBy (candidate s) (result_ s) (result_ s1) evs))
             out st1 evs) st.
Proof.
  induction n as [| n IH]; intros i s st Ho.
  - cbn [windowLoop]. apply wp_ret. split.
    + split; [apply prefix_nil | constructor].
    + split; [apply passed_refl |]. left.
      split; [reflexivity |]. split; [reflexivity | constructor].
  - cbn [windowLoop]. rewrite scanHeights_step.
    set (height := wrap64 (BlockData.Height (candidate s) + i)).
    set (hs := scanHeights (BlockData.Height (candidate s)) (i + 1) n).
    destruct (Z.ltb_spec height 0) as [Hneg | Hpos].
    { destruct (decide (0 <= height)); [lia |]. apply IH; assumption. }
    destruct (decide (0 <= height)); [| lia].
    apply wp_bind, wp_call. intros [[block |] | err] w _.
    + destruct (matchCandidate block (candidate s)) eqn:Hm.
      * (* the block matches *)
        apply wp_bind. eapply wp_mono; [| apply handleBlock_wp].
        intros out st1 evs (Hf & Hr & Hout).
        destruct out as [[c1 | err] | why]; [| | contradiction].
        -- destruct Hout as [Hpass Horph].
           apply (passed_one st w) in Hpass; [| reflexivity].
           apply wp_bind. unfold slice10.
           destruct (len (BlockData.Hash c1) <? 10).
           ++ apply wp_panic. evs_norm. split; [| exact Hpass].
              split; trace_facts; [apply prefix_cons, prefix_nil | constructor].
           ++ apply wp_ret, wp_bind, wp_logf, wp_ret. evs_norm.
              rewrite app_assoc. split; [| split].
              ** split; trace_facts;
                   [apply prefix_cons, prefix_nil | constructor].
              ** apply passed_log, Hpass.
              ** right. split; [reflexivity |]. exists c1, block.
                 split; [trace_facts; reflexivity |].
                 repeat split; assumption.
        -- apply wp_bind, wp_setHalt, wp_ret. evs_norm. split.
           ++ split; trace_facts; [apply prefix_cons, prefix_nil | constructor].
           ++ apply failed_app_l; [apply clean_one; reflexivity | assumption].
      * (* no match: look at the uncles *)
        destruct (Z.of_nat (length (GetBlockReply.Uncles block)) =? 0).
        -- eapply wp_mono; [| apply IH; assumption].
           intros out st1 evs ([Hpre Hrm] & Hspec). split.
           ++ split; trace_facts.
              ** apply prefix_cons, Hpre.
              ** apply Forall_removelast_cons; assumption.
           ++ eapply resultSpec_prefix; [| exact Hspec |].
              ** repeat split. apply clean_one. reflexivity.
              ** intros s1 [(-> & Hfull & Hall) | [Ho1 Hfound]].
                 --- left. split; [reflexivity |]. split; trace_facts.
                     +++ reflexivity.
                     +++ constructor; assumption.
                 --- right. split; [assumption |].
                     apply foundBy_app, Hfound.
        -- apply wp_bind. eapply wp_mono; [| apply uncleLoop_wp].
           intros out st1 evs (Hf & Hrm & Hspec).
           destruct out as [[s1 | err] | why].
           ++ destruct Hspec as [Hpass Hcase].
              apply (passed_one st w) in Hpass; [| reflexivity].
              destruct (orphan s1) eqn:Ho1; cbn [negb].
              ** (* still an orphan: next height *)
                 destruct Hcase as [[-> Hall] | [Hcontra _]]; [| congruence].
                 eapply wp_mono; [| apply IH; assumption].
                 intros out2 st2 evs2 ([Hpre2 Hrm2] & Hspec2).
                 rewrite app_assoc. split.
                 --- split; trace_facts.
                     +++ apply prefix_cons, Hpre2.
                     +++ rewrite <- app_assoc.
                         apply Forall_removelast_cons; [assumption |].
                         apply Forall_removelast_app; assumption.
                 --- eapply resultSpec_prefix; [exact Hpass | exact Hspec2 |].
                     intros s2 [(-> & Hfull & Hall2) | [Ho2 Hfound]].
                     +++ left. split; [reflexivity |]. split; trace_facts.
                         *** reflexivity.
                         *** rewrite <- app_assoc.
                             constructor; [assumption |].
                             apply Forall_app_2; assumption.
                     +++ right. split; [assumption |].
                         apply foundBy_app, Hfound.
              ** (* found as an uncle *)
                 destruct Hcase as [[-> _] | [_ Hfound]]; [congruence |].
                 apply wp_ret. evs_norm. split.
                 --- split; trace_facts.
                     +++ apply prefix_cons, prefix_nil.
                     +++ apply Forall_removelast_cons; assumption.
                 --- split; [exact Hpass |]. right.
                     split; [assumption |]. apply foundBy_app, Hfound.
           ++ apply wp_ret. evs_norm. split.
              ** split; trace_facts.
                 --- apply prefix_cons, prefix_nil.
                 --- apply Forall_removelast_cons; assumption.
              ** apply failed_app_l; [apply clean_one; reflexivity | assumption].
           ++ split.
              ** split; trace_facts.
                 --- apply prefix_cons, prefix_nil.
                 --- apply Forall_removelast_cons; assumption.
              ** apply (passed_one st w); [reflexivity | exact Hspec].
    + apply wp_ret. split.
      * split; [apply prefix_cons, prefix_nil | constructor].
      * left. apply clean_one. reflexivity.
    + apply wp_bind, wp_logf, wp_ret. evs_norm. split.
      * split; [apply prefix_cons, prefix_nil | constructor].
      * right. exists [], (EvGetBlockByHeight height (Err err)),
          [EvLog "Error while retrieving block %v from node: %v"], err.
        repeat split; repeat constructor.
Qed.
End Search.

Section Candidate.
Context {W : Type}.
Variable deps : Deps W.
Variable config : UnlockerConfig.
Variable mainNet : bool.
Implicit Types st : St (W := W).

Lemma unlockCandidate_wp c res st :
  wp (unlockCandidate deps config mainNet c res)
     (fun out st1 evs =>
        scanned c (scanHeights (BlockData.Height c) (-16) 32) evs
        /\ resultSpec st
             (fun res1 evs =>
                (res1 = markOrphan c res
                 /\ fetchedHeights evs
                    = scanHeights (BlockData.Height c) (-16) 32
                 /\ Forall (fun b => matchCandidate b c = false) (replies evs))
                \/ foundBy c res res1 evs)
             out st1 evs) st.
Proof.
  unfold unlockCandidate.
  change (Z.to_nat (minDepth - minDepth * -1)) with 32%nat.
  change (minDepth * -1) with (-16).
  apply wp_bind. eapply wp_mono; [| apply windowLoop_wp; reflexivity].
  cbn [candidate orphan result_].
  intros out st1 evs (Hscan & Hspec).
  destruct out as [[s1 | err] | why].
  - destruct Hspec as [Hpass Hcase]. destruct (orphan s1) eqn:Ho.
    + destruct Hcase as [(-> & Hfull & Hall) | [Hcontra _]]; [| congruence].
      apply wp_bind, wp_logf, wp_ret. rewrite app_nil_r.
      destruct Hscan as [Hpre Hrm]. split; [split |].
      * rewrite fetchedHeights_app, fetchedHeights_log, app_nil_r.
        exact Hpre.
      * rewrite replies_app, replies_log, app_nil_r. exact Hrm.
      * split; [apply passed_log, Hpass |]. left.
        split; [reflexivity |]. split.
        -- rewrite fetchedHeights_app, fetchedHeights_log, app_nil_r.
           exact Hfull.
        -- rewrite replies_app, replies_log, app_nil_r. exact Hall.
    + destruct Hcase as [(-> & _) | [_ Hfound]]; [discriminate |].
      apply wp_ret. rewrite app_nil_r.
      split; [assumption |]. split; [assumption |]. right. assumption.
  - apply wp_ret. rewrite app_nil_r. split; assumption.
  - split; assumption.
Qed.

(** Inside the [int64] range the loop's heights are the window of the
    specification. *)
Lemma scanHeights_window (height : Z) :
  minInt64 + minDepth <= height <= maxInt64 - minDepth ->
  scanHeights height (-16) 32 = windowHeights height.
Proof.
  intros Hrange. unfold scanHeights, windowHeights. f_equal.
  change (2 * minDepth) with (Z.of_nat 32).
  replace (height - minDepth) with (height + -16)
    by (unfold minDepth; lia).
  rewrite <- fmap_add_seqZ. apply list_fmap_ext.
  intros j k Hk. apply lookup_seqZ in Hk as [-> Hj].
  apply wrap64_small. unfold minDepth, minInt64, maxInt64 in *. lia.
Qed.

End Candidate.



(** ** The passes *)

Section Passes.
Context {W : Type}.
Variable deps : Deps W.
Variable config : UnlockerConfig.
Variable mainNet : bool.
Implicit Types st : St (W := W).

Lemma candidatesLoop_wp cs : forall res st,
  wp (candidatesLoop deps config mainNet cs res)
     (resultSpec st (fun _ _ => True)) st.
Proof.
  induction cs as [| c rest IH]; intros res st; cbn [candidatesLoop].
  - apply wp_ret. split; [apply passed_refl | exact I].
  - apply wp_bind. eapply wp_mono; [| apply unlockCandidate_wp].
    intros out st1 evs (_ & Hspec). destruct out as [[res1 | err] | why].
    + destruct Hspec as [Hpass _]. eapply wp_mono; [| apply IH].
      intros out2 st2 evs2 Hspec2.
      eapply resultSpec_prefix; [exact Hpass | exact Hspec2 | auto].
    + apply wp_ret. rewrite app_nil_r. exact Hspec.
    + exact Hspec.
Qed.

Lemma creditPool_ok block revenue minersProfit poolProfit rewards percents r :
  creditPool config block revenue minersProfit poolProfit rewards percents
    = Some r ->
  exists rev mp pp rw pc, r = RewardsOk rev mp pp rw pc.
Proof.
  unfold creditPool.
  destruct (Donate config);
    [destruct (chargeFee _ donationFee) as [[? ?] |]; [| discriminate] |];
    intros [= <-]; eexists _, _, _, _, _; reflexivity.
Qed.

Lemma calculateRewards_wp block st :
  wp (calculateRewards deps config block)
     (fun out st1 evs =>
        match out with
        | Done (RewardsErr err) => aborted evs err
        | _ => passed st st1 evs
        end) st.
Proof.
  unfold calculateRewards.
  destruct (chargeFee _ (PoolFee config)) as [[minersProfit poolProfit] |];
    [| apply wp_panic, passed_refl].
  apply wp_bind, wp_call. intros [shares | err] w _.
  - assert (passed st
              (mkSt w (halt st) (lastFail st)
                 (trace st ++ [EvGetRoundShares (BlockData.RoundHeight block)
                                 (BlockData.Nonce block) (Ok shares)]))
              ([EvGetRoundShares (BlockData.RoundHeight block)
                  (BlockData.Nonce block) (Ok shares)] ++ [])) as Hp.
    { rewrite app_nil_r. repeat split. apply clean_one. reflexivity. }
    destruct (Z.of_nat (size shares) =? 0); [apply wp_ret; exact Hp |].
    destruct (calculateRewardsForShares _ _ _) as [[rewards percents] |];
      [| apply wp_panic; exact Hp].
    destruct (creditPool _ _ _ _ _ _ _) as [r |] eqn:Hc;
      [| apply wp_panic; exact Hp].
    apply creditPool_ok in Hc as (? & ? & ? & ? & ? & ->).
    apply wp_ret. exact Hp.
  - apply wp_ret. rewrite app_nil_r.
    eapply aborted_one; [reflexivity | constructor].
Qed.

Lemma passed_snoc st st1 st2 evs ev :
  passed st st1 evs -> fatalError ev = None ->
  halt st2 = halt st1 -> lastFail st2 = lastFail st1 ->
  passed st st2 (evs ++ [ev]).
Proof.
  intros (Hc & Hh & Hl) Hev Hh2 Hl2. repeat split.
  - apply clean_app; [assumption | apply clean_one, Hev].
  - congruence.
  - congruence.
Qed.

Lemma loopSpec_prefix st st0 st1 a evs out :
  passed st st0 a -> loopSpec st0 out st1 evs ->
  loopSpec st out st1 (a ++ evs).
Proof.
  intros Ha Hspec. destruct out as [[|] | why]; cbn in *.
  - eapply passed_trans; eassumption.
  - destruct Hspec as (err & Hab & Hh & Hl). exists err.
    split; [apply aborted_app_l; [apply Ha | assumption] | auto].
  - eapply passed_trans; eassumption.
Qed.

Lemma aborted_call_logs evs ev err logs :
  clean evs -> fatalError ev = Some err ->
  Forall (fun ev => isLog ev = true) logs ->
  aborted (evs ++ [ev] ++ logs) err.
Proof.
  intros Hc Hev Hlogs. exists evs, ev, logs, err.
  repeat split; try assumption. constructor.
Qed.

Lemma immatureLoop_wp bs : forall st,
  wp (immatureLoop deps config bs) (loopSpec st) st.
Proof.
  induction bs as [| block rest IH]; intros st; cbn [immatureLoop].
  - apply wp_ret, passed_refl.
  - apply wp_bind. eapply wp_mono; [| apply calculateRewards_wp].
    intros out st1 evs Hc.
    destruct out as [[err | | rev mp pp rw pc] | why]; [| | | exact Hc].
    + apply wp_bind, wp_setHalt, wp_bind, wp_logf, wp_ret. evs_norm.
      exists err. split; [| split; reflexivity].
      apply aborted_app_logs; [assumption | repeat constructor].
    + apply wp_bind, wp_call. intros r w _.
      apply wp_bind, wp_logf. eapply wp_mono; [| apply IH].
      intros out2 st2 evs2 H2. rewrite !app_assoc.
      eapply loopSpec_prefix; [| exact H2].
      eapply passed_snoc; [eapply passed_snoc; [exact Hc | ..] | ..];
        reflexivity.
    + apply wp_bind, wp_call. intros [err |] w _.
      * apply wp_bind, wp_setHalt, wp_bind, wp_logf, wp_ret. evs_norm.
        exists err. split; [| split; reflexivity].
        apply aborted_call_logs;
          [apply Hc | reflexivity | repeat constructor].
      * apply wp_bind, wp_logf, wp_bind, wp_logf.
        eapply wp_mono; [| apply IH].
        intros out2 st2 evs2 H2. rewrite !app_assoc.
        eapply loopSpec_prefix; [| exact H2].
        eapply passed_snoc;
          [eapply passed_snoc; [eapply passed_snoc; [exact Hc | ..] | ..]
          | ..]; reflexivity.
Qed.

Lemma maturedLoop_wp bs : forall st,
  wp (maturedLoop deps config bs) (loopSpec st) st.
Proof.
  induction bs as [| block rest IH]; intros st; cbn [maturedLoop].
  - apply wp_ret, passed_refl.
  - apply wp_bind. eapply wp_mono; [| apply calculateRewards_wp].
    intros out st1 evs Hc.
    destruct out as [[err | | rev mp pp rw pc] | why]; [| | | exact Hc].
    + apply wp_bind, wp_setHalt, wp_bind, wp_logf, wp_ret. evs_norm.
      exists err. split; [| split; reflexivity].
      apply aborted_app_logs; [assumption | repeat constructor].
    + apply wp_bind, wp_call. intros r w _.
      apply wp_bind, wp_logf, wp_bind, wp_logf.
      eapply wp_mono; [| apply IH].
      intros out2 st2 evs2 H2. rewrite !app_assoc.
      eapply loopSpec_prefix; [| exact H2].
      eapply passed_snoc;
        [eapply passed_snoc; [eapply passed_snoc; [exact Hc | ..] | ..]
        | ..]; reflexivity.
    + apply wp_bind, wp_call. intros [err |] w _.
      * apply wp_bind, wp_setHalt, wp_bind, wp_logf, wp_ret. evs_norm.
        exists err. split; [| split; reflexivity].
        apply aborted_call_logs;
          [apply Hc | reflexivity | repeat constructor].
      * apply wp_bind, wp_logf, wp_bind, wp_logf.
        eapply wp_mono; [| apply IH].
        intros out2 st2 evs2 H2. rewrite !app_assoc.
        eapply loopSpec_prefix; [| exact H2].
        eapply passed_snoc;
          [eapply passed_snoc; [eapply passed_snoc; [exact Hc | ..] | ..]
          | ..]; reflexivity.
Qed.

Lemma orphansLoop_wp bs : forall st,
  wp (orphansLoop deps bs) (loopSpec st) st.
Proof.
  induction bs as [| block rest IH]; intros st; cbn [orphansLoop].
  - apply wp_ret, passed_refl.
  - apply wp_bind, wp_call. intros [err |] w _.
    + apply wp_bind, wp_setHalt, wp_bind, wp_logf, wp_ret. evs_norm.
      exists err. split; [| split; reflexivity].
      apply (aborted_call_logs []);
        [constructor | reflexivity | repeat constructor].
    + eapply wp_mono; [| apply IH]. intros out2 st2 evs2 H2.
      eapply loopSpec_prefix; [| exact H2].
      repeat split. apply clean_one. reflexivity.
Qed.











End Passes.

(** ** Halting *)




(** ** End-to-end scenarios *)

(** The reward split of the specification's fifth scenario: 1 ether, a
    pool fee of 1 percent, shares 70 and 30, the pool fee address "0xfee".
    The miners' profit is a little below 0.99 ether, because the rate is the
    binary64 quotient; the credits come out as 693000000 and 297000000
    Shannon by rounding to nearest, where truncation gives one less. *)
Example scenario_reward_split :
  exists revenue minersProfit poolProfit rewards percents st1,
    calculateRewards
      (sampleDeps (Ok None) (fun _ => Ok None) (fun _ _ => Ok None)
         (fun _ => Ok None) (Ok [])
         (fun _ _ => Ok {[ "A" := 70; "B" := 30 ]}) None (fun _ _ _ => 0))
      sampleConfig
      (BlockData.mk 100 100 "0xabc" "0xaaaaaaaaaa" 0 false
         1000000000000000000 None 0)
      sampleStart
    = (Done (RewardsOk revenue minersProfit poolProfit rewards percents), st1)
    /\ rewards !! "A" = Some 693000000
    /\ rewards !! "B" = Some 297000000
    /\ rewards !! "0xfee" = Some 10000000
    /\ truncShannon (minersProfit * Q2Qc (7 # 10))%Qc = 692999999
    /\ truncShannon (minersProfit * Q2Qc (3 # 10))%Qc = 296999999.
Proof.
  eexists _, _, _, _, _, _. split; [vm_compute; reflexivity |].
  repeat split; vm_compute; reflexivity.
Qed.

(** A matching block whose hash is shorter than ten bytes: the log line
    of [unlockCandidates] slices [candidate.Hash[0:10]] and the pass
    panics. *)
Example scenario_short_hash_panics :
  fst (unlockPendingBlocks
         (sampleDeps (Ok (Some (sampleBlock "0x100" "" "" [] [])))
            (fun h => if h =? 100
                      then Ok (Some (sampleBlock "0x64" "0xaaa" "0xABC" [] []))
                      else Ok (Some (sampleBlock "0x0" "0x0000000000" "0x0"
                                       [] [])))
            (fun _ _ => Ok None) (fun _ => Ok None)
            (Ok [sampleCandidate 100 "0xabc" "" 0])
            (fun _ _ => Ok ∅) None (fun _ _ _ => 0))
         sampleConfig true sampleStart)
  = Panic SliceBounds.
Proof. vm_compute. reflexivity. Qed.

(** An uncle found at height 500 with a negative table reward: the
    candidate matures with reward 0 and is not an orphan. *)
Example scenario_uncle_clamp :
  handleUncle
    (sampleDeps (Ok None) (fun _ => Ok None) (fun _ _ => Ok None)
       (fun _ => Ok None) (Ok []) (fun _ _ => Ok ∅) None
       (fun _ _ _ => -3))
    true 500
    (sampleBlock "0x1F0" "0xcccccccccc" "0x11" [] [])
    (sampleCandidate 500 "0x11" "" 0)
  = Ok (BlockData.mk 500 500 "0x11" "0xcccccccccc" 496 false 0 None 0).
Proof. reflexivity. Qed.

(** * Further properties of the helpers *)

(** ** Letter case *)










(** ** Block numbers *)

Lemma digitOf_range c d : digitOf c = Some d -> 0 <= d < 36.
Proof.
  unfold digitOf. intros H.
  repeat match type of H with
         | context [?x <=? ?y] => destruct (Z.leb_spec x y)
         end; cbn in H; inversion H; lia.
Qed.

Lemma hexDigits_ge cs : forall n v,
  0 <= n -> hexDigits cs n = Some v -> n <= v.
Proof.
  induction cs as [| c cs IH]; intros n v Hn H; cbn in H.
  - inversion H. lia.
  - destruct (digitOf c) as [d |] eqn:Hd; [| discriminate].
    apply digitOf_range in Hd.
    destruct (Z.leb_spec 16 d); [discriminate |].
    apply IH in H; lia.
Qed.

(** The parsing loop in base 16 against the exact value of the digits:
    the value when it fits 64 bits, a range error when it does not, a
    syntax or range error when a byte is no hexadecimal digit. *)
Lemma ParseUint_loop_hex cs : forall n,
  0 <= n < 2 ^ 64 ->
  match hexDigits cs n with
  | Some v =>
      ParseUint_loop 16 cs n =
        if v <? 2 ^ 64 then (v, None) else (maxUint64, Some ErrRange)
  | None =>
      ParseUint_loop 16 cs n = (0, Some ErrSyntax)
      \/ ParseUint_loop 16 cs n = (maxUint64, Some ErrRange)
  end.
Proof.
  induction cs as [| c cs IH]; intros n Hn; cbn [hexDigits ParseUint_loop].
  - destruct (Z.ltb_spec n (2 ^ 64)); [reflexivity | lia].
  - destruct (digitOf c) as [d |] eqn:Hd; [| left; reflexivity].
    apply digitOf_range in Hd.
    destruct (Z.leb_spec 16 d); [left; reflexivity |].
    change (maxUint64 / 16 + 1) with (2 ^ 60).
    destruct (Z.leb_spec (2 ^ 60) n) as [Hbig | Hsmall].
    + destruct (hexDigits cs (n * 16 + d)) as [v |] eqn:Hv;
        [| right; reflexivity].
      apply hexDigits_ge in Hv; [| lia].
      destruct (Z.ltb_spec v (2 ^ 64)); [lia | reflexivity].
    + assert (Hw1 : wrapU64 (n * 16) = n * 16)
        by (unfold wrapU64; apply Z.mod_small; lia).
      rewrite Hw1.
      assert (Hw2 : wrapU64 (n * 16 + d) = n * 16 + d)
        by (unfold wrapU64; apply Z.mod_small; lia).
      rewrite Hw2.
      destruct (Z.ltb_spec (n * 16 + d) (n * 16)); [lia |].
      destruct (Z.ltb_spec maxUint64 (n * 16 + d));
        [unfold maxUint64 in *; lia |].
      cbn [orb]. apply IH. lia.
Qed.

Lemma ParseUint_hex body :
  body <> "" ->
  match hexDigits (list_ascii_of_string body) 0 with
  | Some v =>
      ParseUint body 16 =
        if v <? 2 ^ 64 then (v, None) else (maxUint64, Some ErrRange)
  | None =>
      ParseUint body 16 = (0, Some ErrSyntax)
      \/ ParseUint body 16 = (maxUint64, Some ErrRange)
  end.
Proof.
  intros Hne. destruct body as [| c rest]; [congruence |].
  unfold ParseUint. apply ParseUint_loop_hex. lia.
Qed.

(** X2: A block number is read exactly or not at all: the parse of a number
    field (every "0x" removed, base 16, 64 bits) succeeds with [v] exactly
    when the remaining text is an optionally signed run of hexadecimal
    digits whose value is [v] and lies in the [int64] range.  No input is
    accepted with a wrapped or clamped value. *)
Theorem parseNumber_exact (number : string) (v : Z) :
  parseNumber number = Ok v
  <-> hexValue (removeAll0x number) = Some v /\ inInt64 v.
Proof.
  unfold parseNumber, ParseInt, hexValue, inInt64, minInt64, maxInt64.
  destruct (removeAll0x number) as [| c rest] eqn:Hs;
    [split; [discriminate | intros [? _]; discriminate] |].
  cbv zeta.
  set (body := if Ascii.eqb c "+" || Ascii.eqb c "-" then rest
               else String c rest).
  replace (if Ascii.eqb c "+" then rest
           else if Ascii.eqb c "-" then rest else String c rest) with body
    by (subst body; destruct (Ascii.eqb c "+"), (Ascii.eqb c "-");
        reflexivity).
  set (neg := Ascii.eqb c "-").
  assert (Hneg : Ascii.eqb c "+" = true -> neg = false).
  { intros H. apply Ascii.eqb_eq in H. subst c neg. reflexivity. }
  clearbody neg body.
  destruct body as [| b body'];
    [cbn; split; [discriminate | intros [? _]; discriminate] |].
  pose proof (ParseUint_hex (String b body') ltac:(discriminate)) as Hu.
  destruct (hexDigits (list_ascii_of_string (String b body')) 0)
    as [u |] eqn:Hd.
  - apply hexDigits_ge in Hd; [| lia]. rewrite Hu.
    destruct (Z.ltb_spec u (2 ^ 64)) as [Hlt | Hge].
    + destruct neg; cbn [negb andb].
      * destruct (Z.ltb_spec (2 ^ 63) u).
        -- split; [discriminate | intros [[= <-] ?]; lia].
        -- assert (Hw : wrap64 u = u \/ u = 2 ^ 63).
           { destruct (Z.eq_dec u (2 ^ 63)); [right; assumption |].
             left. apply wrap64_small. unfold inInt64, minInt64, maxInt64.
             lia. }
           destruct Hw as [Hw | ->].
           ++ rewrite Hw.
              rewrite wrap64_small
                by (unfold inInt64, minInt64, maxInt64; lia).
              split; [intros [= <-]; split; [reflexivity | lia]
                     | intros [[= <-] _]; reflexivity].
           ++ split; [intros [= <-]; vm_compute; repeat split; congruence
                     | intros [[= <-] _]; reflexivity].
      * destruct (Z.leb_spec (2 ^ 63) u).
        -- split; [discriminate | intros [[= <-] ?]; lia].
        -- rewrite wrap64_small
             by (unfold inInt64, minInt64, maxInt64; lia).
           split; [intros [= <-]; split; [reflexivity | lia]
                  | intros [[= <-] _]; reflexivity].
    + split.
      * intros H. exfalso.
        destruct neg; cbn in H; discriminate.
      * intros [[= <-] ?]. destruct neg; lia.
  - destruct Hu as [-> | ->].
    + split; [discriminate | intros [? _]; discriminate].
    + split; [| intros [? _]; discriminate].
      intros H. exfalso. destruct neg; cbn in H; discriminate.
Qed.

(** ** Conversion to Shannon *)

Lemma Qc_of_Z_num k : Qnum (Qc_of_Z k) = k.
Proof. reflexivity. Qed.

Lemma Qc_of_Z_den k : Qden (Qc_of_Z k) = 1%positive.
Proof. reflexivity. Qed.

Lemma roundHalfAway_integer k : roundHalfAway (Qc_of_Z k) = k.
Proof.
  unfold roundHalfAway. rewrite Qc_of_Z_num, Qc_of_Z_den.
  replace ((2 * Z.abs k + 1) / (2 * 1)) with (Z.abs k)
    by (apply Z.div_unique with (r := 1); lia).
  rewrite Z.mul_comm. apply Z.abs_sgn.
Qed.

Lemma roundHalfAway_mono (x y : Qc) :
  (x <= y)%Qc -> roundHalfAway x <= roundHalfAway y.
Proof.
  unfold Qcle, Qle, roundHalfAway.
  set (a := Qnum x). set (b := Z.pos (Qden x)).
  set (c := Qnum y). set (d := Z.pos (Qden y)).
  assert (0 < b) as Hb by (subst b; lia).
  assert (0 < d) as Hd by (subst d; lia).
  intros Hle.
  pose proof (Z.div_mod (2 * Z.abs a + b) (2 * b) ltac:(lia)) as Hx.
  pose proof (Z.mod_pos_bound (2 * Z.abs a + b) (2 * b) ltac:(lia)) as Hrx.
  pose proof (Z.div_mod (2 * Z.abs c + d) (2 * d) ltac:(lia)) as Hy.
  pose proof (Z.mod_pos_bound (2 * Z.abs c + d) (2 * d) ltac:(lia)) as Hry.
  set (p := (2 * Z.abs a + b) / (2 * b)) in *.
  set (q := (2 * Z.abs c + d) / (2 * d)) in *.
  assert (0 <= p) by (subst p; apply Z.div_pos; lia).
  assert (0 <= q) by (subst q; apply Z.div_pos; lia).
  clearbody p q a b c d.
  destruct (Z.lt_trichotomy a 0) as [Ha | [-> | Ha]];
    destruct (Z.lt_trichotomy c 0) as [Hc | [-> | Hc]];
    rewrite ?(Z.sgn_neg a), ?(Z.sgn_pos a), ?(Z.sgn_neg c), ?(Z.sgn_pos c)
      by assumption;
    cbn [Z.sgn]; nia.
Qed.

Lemma Qc_of_Z_nonzero k : k <> 0 -> Qc_of_Z k <> 0%Qc.
Proof.
  intros Hk H. apply Hk. apply (f_equal (fun q : Qc => Qnum q)) in H.
  rewrite Qc_of_Z_num in H. exact H.
Qed.

(** X3: A whole number of Shannon survives the trip through wei: the credit
    for [k * 10^9] wei is [k], for every [int64] value [k]. *)
Theorem weiToShannonInt64_whole (k : Z) :
  inInt64 k -> weiToShannonInt64 (Qc_of_Z (k * Shannon)) = k.
Proof.
  intros Hk. rewrite weiToShannonInt64_round.
  replace (Qc_of_Z (k * Shannon) / Qc_of_Z Shannon)%Qc with (Qc_of_Z k).
  - rewrite roundHalfAway_integer.
    unfold clamp64, inInt64 in *. lia.
  - rewrite Z2Qc_inj_mul. field. apply Qc_of_Z_nonzero. discriminate.
Qed.

Lemma weiToShannonInt64_whole_witness :
  inInt64 (-3) /\ weiToShannonInt64 (Qc_of_Z (-3 * Shannon)) = -3.
Proof.
  assert (H : inInt64 (-3)) by (unfold inInt64, minInt64, maxInt64; lia).
  split; [exact H | exact (weiToShannonInt64_whole (-3) H)].
Defined.

(** X4: The conversion is monotone: a larger amount of wei is never credited
    fewer Shannon, saturation included. *)
Theorem weiToShannonInt64_monotone (wei1 wei2 : Qc) :
  (wei1 <= wei2)%Qc -> weiToShannonInt64 wei1 <= weiToShannonInt64 wei2.
Proof.
  intros Hle. rewrite !weiToShannonInt64_round.
  assert (roundHalfAway (wei1 / Qc_of_Z Shannon)%Qc
          <= roundHalfAway (wei2 / Qc_of_Z Shannon)%Qc) as Hr.
  { apply roundHalfAway_mono. unfold Qcdiv.
    apply Qcmult_le_compat_r; [exact Hle |].
    unfold Qcle, Qle. vm_compute. discriminate. }
  unfold clamp64. lia.
Qed.

Lemma weiToShannonInt64_monotone_witness :
  (Qc_of_Z 1499999999 <= Qc_of_Z 1500000000)%Qc
  /\ weiToShannonInt64 (Qc_of_Z 1499999999)
     <= weiToShannonInt64 (Qc_of_Z 1500000000).
Proof.
  assert (H : (Qc_of_Z 1499999999 <= Qc_of_Z 1500000000)%Qc)
    by (unfold Qcle, Qle; vm_compute; discriminate).
  split; [exact H | exact (weiToShannonInt64_monotone _ _ H)].
Defined.

(** ** Fees and shares *)

(** X5: Charging a fee loses nothing: what is left and the fee add up to the
    value exactly, whatever the binary64 rate is. *)
Theorem chargeFee_conserves (value : Qc) (fee : float) (rest feeValue : Qc) :
  chargeFee value fee = Some (rest, feeValue) ->
  (rest + feeValue)%Qc = value.
Proof.
  unfold chargeFee.
  destruct (SetFloat64 (fee / 100)%float) as [f |]; [| discriminate].
  intros [= <- <-]. ring.
Qed.

Lemma chargeFee_conserves_witness :
  exists rest feeValue,
    chargeFee (Qc_of_Z 100) donationFee = Some (rest, feeValue)
    /\ (rest + feeValue)%Qc = Qc_of_Z 100.
Proof.
  eexists _, _.
  assert (H : chargeFee (Qc_of_Z 100) donationFee =
              Some ((Qc_of_Z 100 - Qc_of_Z 100 * donationRate)%Qc,
                    (Qc_of_Z 100 * donationRate)%Qc))
    by (apply chargeFee_rate, donationRate_value).
  split; [exact H | exact (chargeFee_conserves _ _ _ _ H)].
Defined.

Lemma wrap64_add_l a b : wrap64 (wrap64 a + b) = wrap64 (a + b).
Proof.
  unfold wrap64. f_equal.
  replace ((a + 2 ^ 63) mod 2 ^ 64 - 2 ^ 63 + b + 2 ^ 63)
    with ((a + 2 ^ 63) mod 2 ^ 64 + b) by lia.
  rewrite Z.add_mod_idemp_l by lia. f_equal. lia.
Qed.

Lemma exactTotal_insert (m : gmap string Z) i x :
  m !! i = None -> exactTotal (<[i := x]> m) = exactTotal m + x.
Proof.
  intros Hi. unfold exactTotal.
  rewrite map_fold_insert_L; [reflexivity | intros; lia | assumption].
Qed.

Lemma sumShares_insert (m : gmap string Z) i x :
  m !! i = None -> sumShares (<[i := x]> m) = wrap64 (sumShares m + x).
Proof.
  intros Hi. unfold sumShares.
  rewrite map_fold_insert_L; [reflexivity | | assumption].
  intros. rewrite !wrap64_add_l. f_equal. lia.
Qed.

(** The share total of a round is the sum of the shares reduced to 64
    bits, in whatever order the map is walked. *)
Lemma sumShares_exactTotal (shares : gmap string Z) :
  sumShares shares = wrap64 (exactTotal shares).
Proof.
  induction shares as [| i x m Hi IH] using map_ind; [reflexivity |].
  rewrite sumShares_insert, exactTotal_insert, IH by assumption.
  apply wrap64_add_l.
Qed.

Lemma sumPercents_insert (m : gmap string Qc) i x :
  m !! i = None -> sumPercents (<[i := x]> m) = (sumPercents m + x)%Qc.
Proof.
  intros Hi. unfold sumPercents.
  rewrite map_fold_insert_L; [reflexivity | intros; ring | assumption].
Qed.

Lemma sumPercents_shares (shares : gmap string Z) (total : Z) :
  sumPercents ((fun n => (Qc_of_Z n / Qc_of_Z total)%Qc) <$> shares)
    = (Qc_of_Z (exactTotal shares) / Qc_of_Z total)%Qc.
Proof.
  induction shares as [| i x m Hi IH] using map_ind.
  - rewrite fmap_empty. unfold sumPercents, exactTotal.
    rewrite !map_fold_empty. unfold Qcdiv. rewrite Z2Qc_inj_0. ring.
  - rewrite fmap_insert, sumPercents_insert, exactTotal_insert, IH
      by (rewrite ?lookup_fmap, ?Hi; reflexivity).
    rewrite Z2Qc_inj_add. unfold Qcdiv. ring.
Qed.

(** X6: When the shares of a round add up, without overflow, to a non-zero
    total, the split runs through, both maps have exactly the miners of the
    round as keys, and the percentages add up to exactly 1. *)
Theorem calculateRewardsForShares_percents_sum (shares : gmap string Z)
    (reward : Qc) :
  inInt64 (exactTotal shares) ->
  exactTotal shares <> 0 ->
  exists rewards percents,
    calculateRewardsForShares shares (sumShares shares) reward
      = Some (rewards, percents)
    /\ dom rewards = dom shares
    /\ dom percents = dom shares
    /\ sumPercents percents = 1%Qc.
Proof.
  intros Hrange Hnz.
  rewrite sumShares_exactTotal, wrap64_small by assumption.
  rewrite calculateRewardsForShares_fmap by assumption.
  eexists _, _. split; [reflexivity |].
  rewrite !dom_fmap_L, sumPercents_shares.
  repeat split. unfold Qcdiv. apply Qcmult_inv_r, Qc_of_Z_nonzero, Hnz.
Qed.

Lemma calculateRewardsForShares_percents_sum_witness :
  exists rewards percents,
    calculateRewardsForShares {[ "A" := 1; "B" := 2 ]}
      (sumShares {[ "A" := 1; "B" := 2 ]}) (Qc_of_Z 3000000000)
      = Some (rewards, percents)
    /\ dom rewards = dom ({[ "A" := 1; "B" := 2 ]} : gmap string Z)
    /\ dom percents = dom ({[ "A" := 1; "B" := 2 ]} : gmap string Z)
    /\ sumPercents percents = 1%Qc.
Proof.
  apply (calculateRewardsForShares_percents_sum
           {[ "A" := 1; "B" := 2 ]} (Qc_of_Z 3000000000)).
  - unfold inInt64. vm_compute. split; discriminate.
  - vm_compute. discriminate.
Defined.

(** ** Outcomes of [calculateRewards] *)

Lemma creditPool_total (config : UnlockerConfig) (block : BlockData.t)
    (revenue minersProfit poolProfit : Qc) (rewards : gmap string Z)
    (percents : gmap string Qc) :
  exists rev pp rw,
    creditPool config block revenue minersProfit poolProfit rewards
      percents = Some (RewardsOk rev minersProfit pp rw percents)
    /\ dom rw =
         dom rewards
         ∪ (if Donate config then {[ ToLower donationAccount ]} else ∅)
         ∪ (if len (PoolFeeAddress config) =? 0 then ∅
            else {[ ToLower (PoolFeeAddress config) ]}).
Proof.
  unfold creditPool.
  destruct (Donate config).
  - rewrite (chargeFee_rate _ donationFee _ donationRate_value).
    destruct (len (PoolFeeAddress config) =? 0); cbn [negb];
      eexists _, _, _; (split; [reflexivity |]);
      unfold addReward; rewrite ?dom_insert_L;
      rewrite ?(right_id_L ∅ (∪));
      rewrite ?(comm_L (∪) {[ ToLower (PoolFeeAddress config) ]});
      rewrite ?(comm_L (∪) {[ ToLower donationAccount ]});
      reflexivity.
  - destruct (len (PoolFeeAddress config) =? 0); cbn [negb];
      eexists _, _, _; (split; [reflexivity |]);
      unfold addReward; rewrite ?dom_insert_L;
      rewrite ?(right_id_L ∅ (∪));
      rewrite ?(comm_L (∪) {[ ToLower (PoolFeeAddress config) ]});
      rewrite ?(comm_L (∪) {[ ToLower donationAccount ]});
      reflexivity.
Qed.

Lemma calculateRewardsForShares_dom (shares : gmap string Z) total reward
    rewards percents :
  calculateRewardsForShares shares total reward = Some (rewards, percents) ->
  dom rewards = dom shares /\ dom percents = dom shares.
Proof.
  destruct (Z.eq_dec total 0) as [-> | Hnz].
  - destruct (decide (shares = ∅)) as [-> | Hne].
    + unfold calculateRewardsForShares. rewrite map_fold_empty.
      intros [= <- <-]. rewrite !dom_empty_L. split; reflexivity.
    + rewrite calculateRewardsForShares_zero by assumption. discriminate.
  - rewrite calculateRewardsForShares_fmap by assumption.
    intros [= <- <-]. rewrite !dom_fmap_L. split; reflexivity.
Qed.

(** X7: What one call of [calculateRewards] does, case by case.  A pool fee
    that is not a finite number panics before anything is asked.
    Otherwise the share store is asked once, for the block's round height
    and nonce, and nothing else is called or written; the halt flag and the
    stored error stay as they were.  An error of the store is handed back;
    an empty round gives no rewards and no error; a round whose shares add
    up (in 64 bits) to zero panics in the division; every other round
    yields rewards. *)
Theorem calculateRewards_outcomes {W} (deps : Deps W)
    (config : UnlockerConfig) (block : BlockData.t) (st : St) :
  match SetFloat64 (PoolFee config / 100)%float with
  | None =>
      calculateRewards deps config block st = (Panic NilDereference, st)
  | Some _ =>
      let r := fst (GetRoundShares deps (BlockData.RoundHeight block)
                      (BlockData.Nonce block) (world st)) in
      let w := snd (GetRoundShares deps (BlockData.RoundHeight block)
                      (BlockData.Nonce block) (world st)) in
      exists out,
        calculateRewards deps config block st =
          (out,
           mkSt w (halt st) (lastFail st)
             (trace st ++ [EvGetRoundShares (BlockData.RoundHeight block)
                             (BlockData.Nonce block) r]))
        /\ match r with
           | Err err => out = Done (RewardsErr err)
           | Ok shares =>
               if Z.of_nat (size shares) =? 0 then out = Done RewardsNone
               else if sumShares shares =? 0 then
                 out = Panic DivisionByZero
               else
                 exists rev mp pp rw pc,
                   out = Done (RewardsOk rev mp pp rw pc)
           end
  end.
Proof.
  unfold calculateRewards, chargeFee.
  destruct (SetFloat64 (PoolFee config / 100)%float) as [f |];
    [| reflexivity].
  cbv zeta. unfold bind, backendGetRoundShares. rewrite call_run.
  cbn [fst snd].
  destruct (fst (GetRoundShares deps (BlockData.RoundHeight block)
                   (BlockData.Nonce block) (world st)))
    as [shares | err]; [| eexists; split; reflexivity].
  destruct (Z.eqb_spec (Z.of_nat (size shares)) 0) as [Hsz | Hsz];
    [eexists; split; reflexivity |].
  destruct (Z.eqb_spec (sumShares shares) 0) as [Hz | Hnz].
  - rewrite Hz, calculateRewardsForShares_zero;
      [eexists; split; reflexivity |].
    intros ->. rewrite map_size_empty in Hsz. lia.
  - rewrite calculateRewardsForShares_fmap by assumption.
    match goal with
    | |- context [creditPool ?c ?b ?rv ?mp ?pp ?rw ?pc] =>
        destruct (creditPool_total c b rv mp pp rw pc)
          as (rev & pp' & rw' & -> & _)
    end.
    eexists. split; [reflexivity |]. eexists _, _, _, _, _. reflexivity.
Qed.

(** X8: Who is credited: when [calculateRewards] yields rewards, the keys of
    the reward map are the miners of the round, the donation account (in
    lower case) when donating, and the pool fee address (in lower case)
    when one is configured; the percentages are keyed by the miners
    alone. *)
Theorem calculateRewards_reward_keys {W} (deps : Deps W)
    (config : UnlockerConfig) (block : BlockData.t) (st st1 : St)
    (revenue minersProfit poolProfit : Qc) (rewards : gmap string Z)
    (percents : gmap string Qc) (shares : gmap string Z) :
  calculateRewards deps config block st =
    (Done (RewardsOk revenue minersProfit poolProfit rewards percents),
     st1) ->
  fst (GetRoundShares deps (BlockData.RoundHeight block)
         (BlockData.Nonce block) (world st)) = Ok shares ->
  dom rewards =
    dom shares
    ∪ (if Donate config then {[ ToLower donationAccount ]} else ∅)
    ∪ (if len (PoolFeeAddress config) =? 0 then ∅
       else {[ ToLower (PoolFeeAddress config) ]})
  /\ dom percents = dom shares.
Proof.
  intros Hrun Hshares. unfold calculateRewards in Hrun.
  destruct (chargeFee _ (PoolFee config)) as [[mp pp] |];
    [| discriminate].
  unfold bind, backendGetRoundShares in Hrun.
  rewrite call_run, Hshares in Hrun.
  destruct (Z.of_nat (size shares) =? 0); [discriminate |].
  destruct (calculateRewardsForShares shares (sumShares shares) mp)
    as [[rw pc] |] eqn:Hsplit; [| discriminate].
  apply calculateRewardsForShares_dom in Hsplit as [Hrw Hpc].
  match type of Hrun with
  | context [creditPool ?c ?b ?rv ?m ?p ?r ?q] =>
      destruct (creditPool_total c b rv m p r q)
        as (rev & pp' & rw' & Hcp & Hdom)
  end.
  rewrite Hcp in Hrun. unfold ret in Hrun.
  injection Hrun as <- <- <- <- <- _.
  rewrite Hdom, Hrw. split; [reflexivity | assumption].
Qed.

Lemma calculateRewards_reward_keys_witness :
  exists revenue minersProfit poolProfit rewards percents st1,
    calculateRewards
      (sampleDeps (Ok None) (fun _ => Ok None) (fun _ _ => Ok None)
         (fun _ => Ok None) (Ok [])
         (fun _ _ => Ok {[ "A" := 70; "B" := 30 ]}) None (fun _ _ _ => 0))
      sampleConfig
      (BlockData.mk 100 100 "0xabc" "0xaaaaaaaaaa" 0 false
         1000000000000000000 None 0)
      sampleStart
    = (Done (RewardsOk revenue minersProfit poolProfit rewards percents), st1)
    /\ dom rewards =
         dom ({[ "A" := 70; "B" := 30 ]} : gmap string Z)
         ∪ (if Donate sampleConfig then {[ ToLower donationAccount ]} else ∅)
         ∪ (if len (PoolFeeAddress sampleConfig) =? 0 then ∅
            else {[ ToLower (PoolFeeAddress sampleConfig) ]})
    /\ dom percents = dom ({[ "A" := 70; "B" := 30 ]} : gmap string Z).
Proof.
  destruct (calculateRewards
    (sampleDeps (Ok None) (fun _ => Ok None) (fun _ _ => Ok None)
       (fun _ => Ok None) (Ok [])
       (fun _ _ => Ok {[ "A" := 70; "B" := 30 ]}) None (fun _ _ _ => 0))
    sampleConfig
    (BlockData.mk 100 100 "0xabc" "0xaaaaaaaaaa" 0 false
       1000000000000000000 None 0)
    sampleStart) as [out st1] eqn:Hrun.
  assert (exists revenue mp pp rewards percents,
            out = Done (RewardsOk revenue mp pp rewards percents))
    as (revenue & mp & pp & rewards & percents & ->).
  { vm_compute in Hrun. injection Hrun as <- _.
    eexists _, _, _, _, _; reflexivity. }
  exists revenue, mp, pp, rewards, percents, st1. split; [reflexivity |].
  exact (calculateRewards_reward_keys _ _ _ _ _ _ _ _ _ _ _ Hrun eq_refl).
Defined.

(** ** From the handler to the split *)

Lemma calculateRewards_amounts {W} (deps : Deps W) (config : UnlockerConfig)
    (block : BlockData.t) (st st1 : St) (revenue minersProfit poolProfit : Qc)
    (rewards : gmap string Z) (percents : gmap string Qc) :
  calculateRewards deps config block st =
    (Done (RewardsOk revenue minersProfit poolProfit rewards percents),
     st1) ->
  exists f,
    SetFloat64 (PoolFee config / 100)%float = Some f
    /\ minersProfit =
         (Qc_of_Z (BlockData.Reward block)
          - Qc_of_Z (BlockData.Reward block) * f)%Qc
    /\ revenue =
         (Qc_of_Z (BlockData.Reward block)
          + match BlockData.ExtraReward block with
            | Some extra => Qc_of_Z extra
            | None => 0
            end)%Qc.
Proof.
  intros Hrun. unfold calculateRewards in Hrun.
  destruct (SetFloat64 (PoolFee config / 100)%float) as [f |] eqn:Hf.
  2:{ unfold chargeFee in Hrun. rewrite Hf in Hrun. discriminate. }
  rewrite (chargeFee_rate _ _ _ Hf) in Hrun.
  unfold bind, backendGetRoundShares in Hrun. rewrite call_run in Hrun.
  destruct (fst (GetRoundShares deps _ _ (world st))) as [shares | err];
    [| discriminate].
  destruct (Z.of_nat (size shares) =? 0); [discriminate |].
  destruct (calculateRewardsForShares _ _ _) as [[rw pc] |];
    [| discriminate].
  match type of Hrun with
  | context [creditPool ?c ?b ?rv ?m ?p ?r ?q] =>
      destruct (creditPool_total c b rv m p r q)
        as (rev & pp' & rw' & Hcp & _);
      pose proof Hcp as Hrev; unfold creditPool in Hrev
  end.
  rewrite Hcp in Hrun. unfold ret in Hrun. injection Hrun as <- <- _ _ _ _.
  exists f. split; [reflexivity |]. split; [reflexivity |].
  destruct (Donate config).
  - rewrite (chargeFee_rate _ donationFee _ donationRate_value) in Hrev.
    destruct (BlockData.ExtraReward block); injection Hrev as <- _ _;
      ring.
  - destruct (BlockData.ExtraReward block); injection Hrev as <- _ _;
      ring.
Qed.

(** X9: Where the transaction fees go.  For a candidate that carries no extra
    reward and is matured by [handleBlock], the revenue [calculateRewards]
    reports is always the block reward plus the uncle inclusion rewards
    plus the transaction fees; the miners' profit is taken from the fees
    too only when [KeepTxFees] is off, and from the block and inclusion
    rewards alone when it is on. *)
Theorem matured_block_revenue {W} (deps : Deps W) (config : UnlockerConfig)
    (mainNet : bool) (block : GetBlockReply.t) (candidate c1 : BlockData.t)
    (st st1 st2 st3 : St)
    (revenue minersProfit poolProfit : Qc) (rewards : gmap string Z)
    (percents : gmap string Qc) :
  BlockData.ExtraReward candidate = None ->
  handleBlock deps config mainNet block candidate st = (Done (Ok c1), st1) ->
  calculateRewards deps config c1 st2 =
    (Done (RewardsOk revenue minersProfit poolProfit rewards percents),
     st3) ->
  exists height extra f,
    parseNumber (GetBlockReply.Number block) = Ok height
    /\ getExtraRewardForTx deps block st = (Done (Ok extra), st1)
    /\ SetFloat64 (PoolFee config / 100)%float = Some f
    /\ let base :=
         GetConstReward deps height mainNet
         + GetRewardForUncle deps height mainNet
           * Z.of_nat (length (GetBlockReply.Uncles block)) in
       revenue = Qc_of_Z (base + extra)
       /\ minersProfit =
            (Qc_of_Z (if KeepTxFees config then base else base + extra)
             * (1 - f))%Qc.
Proof.
  intros Hnone Hhandle Hrun.
  unfold handleBlock in Hhandle.
  destruct (parseNumber (GetBlockReply.Number block)) as [height | err];
    [| discriminate].
  unfold bind in Hhandle.
  destruct (getExtraRewardForTx deps block st) as [[[extra | err] | why] st1']
    eqn:Hextra; try discriminate.
  unfold ret in Hhandle. injection Hhandle as <- <-.
  apply calculateRewards_amounts in Hrun as (f & Hf & -> & ->).
  exists height, extra, f.
  split; [reflexivity |]. split; [reflexivity |]. split; [exact Hf |].
  cbv zeta.
  destruct (KeepTxFees config);
    unfold BlockData.setReward, BlockData.setHash, BlockData.setOrphan,
      BlockData.setExtraReward, BlockData.setHeight; cbn;
    rewrite ?Hnone; rewrite ?Z2Qc_inj_add; split; ring.
Qed.

Lemma matured_block_revenue_witness :
  exists revenue minersProfit height extra f,
    parseNumber "0x64" = Ok height
    /\ getExtraRewardForTx
         (sampleDeps (Ok None) (fun _ => Ok None) (fun _ _ => Ok None)
            (fun _ => Ok (Some (TxReceipt.mk "0x5208"))) (Ok [])
            (fun _ _ => Ok {[ "A" := 70; "B" := 30 ]}) None (fun _ _ _ => 0))
         (sampleBlock "0x64" "0xaaaaaaaaaa" "0xABC" ["0xu0"]
            [Tx.mk "0xt1" "0x3b9aca00"])
         sampleStart
       = (Done (Ok extra),
          mkSt tt false None
            [EvGetTxReceipt "0xt1" (Ok (Some (TxReceipt.mk "0x5208")))])
    /\ SetFloat64 (PoolFee sampleConfig / 100)%float = Some f
    /\ revenue = Qc_of_Z (2000000000000000000 + 62500000000000000 * 1 + extra)
    /\ minersProfit =
         (Qc_of_Z (2000000000000000000 + 62500000000000000 * 1 + extra)
          * (1 - f))%Qc.
Proof.
  pose (deps := sampleDeps (Ok None) (fun _ => Ok None) (fun _ _ => Ok None)
            (fun _ => Ok (Some (TxReceipt.mk "0x5208"))) (Ok [])
            (fun _ _ => Ok {[ "A" := 70; "B" := 30 ]}) None (fun _ _ _ => 0)).
  pose (c1 := BlockData.mk 100 100 "0xabc" "0xaaaaaaaaaa" 0 false
                (2000000000000000000 + 21000000000000
                 + 62500000000000000 * 1) None 0).
  destruct (calculateRewards deps sampleConfig c1 sampleStart)
    as [out st3] eqn:Hrun.
  assert (exists revenue mp pp rewards percents,
            out = Done (RewardsOk revenue mp pp rewards percents))
    as (revenue & mp & pp & rewards & percents & ->).
  { vm_compute in Hrun. injection Hrun as <- _.
    eexists _, _, _, _, _; reflexivity. }
  destruct (matured_block_revenue deps sampleConfig true
              (sampleBlock "0x64" "0xaaaaaaaaaa" "0xABC" ["0xu0"]
                 [Tx.mk "0xt1" "0x3b9aca00"])
              (sampleCandidate 100 "0xabc" "" 0) c1
              sampleStart
              (mkSt tt false None
                 [EvGetTxReceipt "0xt1" (Ok (Some (TxReceipt.mk "0x5208")))])
              sampleStart st3 revenue mp pp rewards percents
              eq_refl eq_refl Hrun)
    as (height & extra & f & Hh & He & Hf & Hrev & Hmp).
  exists revenue, mp, height, extra, f.
  split; [exact Hh |]. split; [exact He |]. split; [exact Hf |].
  injection Hh as <-. split; [exact Hrev | exact Hmp].
Defined.

(** * The result of the search *)

Lemma classifies_snoc_matured c c1 cs ms os :
  sameRound c c1 -> BlockData.Orphan c1 = false ->
  classifies cs ms os -> classifies (cs ++ [c]) (ms ++ [c1]) os.
Proof.
  intros Hs Ho H. induction H; cbn.
  - apply classifies_matured; [assumption | assumption | constructor].
  - apply classifies_matured; assumption.
  - apply classifies_orphaned; assumption.
Qed.

Lemma classifies_snoc_orphaned c cs ms os :
  classifies cs ms os ->
  classifies (cs ++ [c]) ms (os ++ [BlockData.setOrphan true c]).
Proof.
  intros H. induction H; cbn.
  - apply classifies_orphaned. constructor.
  - apply classifies_matured; assumption.
  - apply classifies_orphaned; assumption.
Qed.

Lemma classifies_facts cs ms os :
  classifies cs ms os ->
  (length ms + length os = length cs)%nat
  /\ Forall (fun c => BlockData.Orphan c = false) ms
  /\ Forall (fun c => BlockData.Orphan c = true) os
  /\ os `sublist_of` (BlockData.setOrphan true <$> cs).
Proof.
  intros H. induction H as [| c c1 cs ms os Hs Ho H IH | c cs ms os H IH].
  - repeat split; constructor.
  - destruct IH as (Hlen & Hm & Hos & Hsub). cbn. repeat split.
    + lia.
    + constructor; assumption.
    + assumption.
    + apply sublist_cons. assumption.
  - destruct IH as (Hlen & Hm & Hos & Hsub). cbn. repeat split.
    + lia.
    + assumption.
    + constructor; [reflexivity | assumption].
    + apply sublist_skip. assumption.
Qed.

Lemma shortHash_app c evs1 evs2 :
  shortHash c evs2 -> shortHash c (evs1 ++ evs2).
Proof.
  intros (b & Hlast & Hm & Hlen). exists b.
  rewrite replies_app, last_app, Hlast. auto.
Qed.

Lemma searchSpec_app {A} c (P : A -> Prop) out evs1 evs2 :
  searchSpec c P out evs2 -> searchSpec c P out (evs1 ++ evs2).
Proof.
  destruct out as [[a | err] | why]; cbn; try tauto.
  intros [-> H]. split; [reflexivity | apply shortHash_app, H].
Qed.

Lemma handleUncle_sameRound {W} (deps : Deps W) mainNet height uncle c c1 :
  handleUncle deps mainNet height uncle c = Ok c1 ->
  sameRound c c1 /\ BlockData.Orphan c1 = false.
Proof.
  unfold handleUncle.
  destruct (parseNumber (GetBlockReply.Number uncle)); [| discriminate].
  intros [= <-]. repeat split.
Qed.

Section Classification.
Context {W : Type}.
Variable deps : Deps W.
Variable config : UnlockerConfig.
Variable mainNet : bool.

Lemma slice10_wp (hash : string) (Q : Outcome unit -> St -> list Event -> Prop)
    (st : St (W := W)) :
  (len hash < 10 -> Q (Panic SliceBounds) st []) ->
  (10 <= len hash -> Q (Done tt) st []) ->
  wp (slice10 hash) Q st.
Proof.
  intros Hshort Hlong. unfold slice10.
  destruct (Z.ltb_spec (len hash) 10);
    [apply wp_panic | apply wp_ret]; auto.
Qed.

Lemma handleBlock_sameRound block c st :
  wp (handleBlock deps config mainNet block c)
     (fun out st1 evs =>
        replies evs = []
        /\ match out with
           | Done (Ok c1) =>
               sameRound c c1 /\ BlockData.Orphan c1 = false
               /\ BlockData.Hash c1 = GetBlockReply.Hash block
           | Done (Err _) => True
           | Panic _ => False
           end) st.
Proof.
  unfold handleBlock.
  destruct (parseNumber (GetBlockReply.Number block)) as [height | err].
  2:{ apply wp_ret. split; [reflexivity | exact I]. }
  apply wp_bind. unfold getExtraRewardForTx.
  eapply wp_mono; [| apply txLoop_wp].
  intros out st1 evs (_ & Hr & _ & _ & Hout).
  destruct out as [[extra | err] | why]; [| | contradiction].
  - apply wp_ret. rewrite app_nil_r. split; [exact Hr |].
    destruct (KeepTxFees config); repeat split.
  - apply wp_ret. rewrite app_nil_r. split; [exact Hr | exact I].
Qed.

Lemma uncleLoop_class height (hashes : list string) : forall index s st,
  wp (uncleLoop deps mainNet height index hashes s)
     (fun out st1 evs =>
        searchSpec (candidate s)
          (fun s1 =>
             s1 = s
             \/ (orphan s1 = false
                 /\ matures (candidate s) (result_ s) (result_ s1)))
          out evs) st.
Proof.
  induction hashes as [| uncleHash rest IH]; intros index s st;
    cbn [uncleLoop].
  - apply wp_ret. left. reflexivity.
  - apply wp_bind, wp_call. intros [[uncle |] | err] w _;
      [| apply wp_ret; exact I | apply wp_ret; exact I].
    destruct (matchCandidate uncle (candidate s)) eqn:Hmatch.
    + destruct (handleUncle deps mainNet height uncle (candidate s))
        as [c1 | err] eqn:Hh.
      * apply handleUncle_sameRound in Hh as [Hsame Horph].
        apply wp_bind, slice10_wp.
        -- intros Hshort. split; [reflexivity |].
           exists uncle. cbn. auto.
        -- intros _. apply wp_bind, wp_logf, wp_ret. right.
           split; [reflexivity |]. exists c1. cbn. auto 10.
      * apply wp_bind, wp_setHalt, wp_ret. exact I.
    + eapply wp_mono; [| apply IH]. intros out st1 evs H.
      apply searchSpec_app. exact H.
Qed.

Lemma windowLoop_class (n : nat) : forall i s st,
  orphan s = true ->
  wp (windowLoop deps config mainNet n i s)
     (fun out st1 evs =>
        searchSpec (candidate s)
          (fun s1 =>
             s1 = s
             \/ (orphan s1 = false
                 /\ matures (candidate s) (result_ s) (result_ s1)))
          out evs) st.
Proof.
  induction n as [| n IH]; intros i s st Horph; cbn [windowLoop].
  - apply wp_ret. left. reflexivity.
  - destruct (wrap64 (BlockData.Height (candidate s) + i) <? 0);
      [apply IH; assumption |].
    apply wp_bind, wp_call. intros [[block |] | err] w _.
    + destruct (matchCandidate block (candidate s)) eqn:Hmatch.
      * apply wp_bind. eapply wp_mono; [| apply handleBlock_sameRound].
        intros out st1 evs (Hr & Hout).
        destruct out as [[c1 | err] | why]; [| | contradiction].
        -- destruct Hout as (Hsame & Ho & Hhash).
           apply wp_bind, slice10_wp.
           ++ intros Hshort. split; [reflexivity |].
              exists block. rewrite app_nil_r, replies_app, Hr.
              rewrite Hhash in Hshort. cbn. auto.
           ++ intros _. apply wp_bind, wp_logf, wp_ret. right.
              split; [reflexivity |]. exists c1. cbn. auto 10.
        -- apply wp_bind, wp_setHalt, wp_ret. exact I.
      * destruct (Z.of_nat (length (GetBlockReply.Uncles block)) =? 0).
        -- eapply wp_mono; [| apply IH; assumption].
           intros out st1 evs H. apply searchSpec_app. exact H.
        -- apply wp_bind. eapply wp_mono; [| apply uncleLoop_class].
           intros out st1 evs H.
           destruct out as [[s1 | err] | why].
           ++ destruct (orphan s1) eqn:Ho1; cbn [negb].
              ** destruct H as [-> | [Hfalse _]]; [| congruence].
                 eapply wp_mono; [| apply IH; assumption].
                 intros out2 st2 evs2 H2.
                 rewrite app_assoc. apply searchSpec_app. exact H2.
              ** apply wp_ret. destruct H as [-> | H]; [congruence |].
                 right. exact H.
           ++ apply wp_ret. exact I.
           ++ apply searchSpec_app. exact H.
    + apply wp_ret. exact I.
    + apply wp_bind, wp_logf, wp_ret. exact I.
Qed.

Lemma unlockCandidate_class c res st :
  wp (unlockCandidate deps config mainNet c res)
     (fun out st1 evs =>
        searchSpec c
          (fun res1 => res1 = markOrphan c res \/ matures c res res1)
          out evs) st.
Proof.
  unfold unlockCandidate.
  apply wp_bind. eapply wp_mono; [| apply windowLoop_class; reflexivity].
  intros out st1 evs H. cbn [candidate result_] in H.
  destruct out as [[s1 | err] | why]; [| apply wp_ret; exact I | exact H].
  destruct (orphan s1) eqn:Ho1.
  - destruct H as [-> | [Hfalse _]]; [| congruence].
    apply wp_bind, wp_logf, wp_ret. left. reflexivity.
  - apply wp_ret. destruct H as [-> | [_ H]]; [discriminate |].
    right. exact H.
Qed.

Lemma candidatesLoop_class cs : forall seen res st,
  classifies seen (maturedBlocks res) (orphanedBlocks res) ->
  tallied res ->
  wp (candidatesLoop deps config mainNet cs res)
     (fun out st1 evs =>
        match out with
        | Done (Ok res1) =>
            classifies (seen ++ cs) (maturedBlocks res1)
              (orphanedBlocks res1)
            /\ tallied res1
        | Done (Err _) => True
        | Panic why =>
            why = SliceBounds /\ exists c, c ∈ cs /\ shortHash c evs
        end) st.
Proof.
  induction cs as [| c rest IH]; intros seen res st Hcl Htal;
    cbn [candidatesLoop].
  - apply wp_ret. rewrite app_nil_r. auto.
  - apply wp_bind. eapply wp_mono; [| apply unlockCandidate_class].
    intros out st1 evs H.
    destruct out as [[res1 | err] | why]; [| apply wp_ret; exact I |].
    + assert (classifies (seen ++ [c]) (maturedBlocks res1)
                (orphanedBlocks res1) /\ tallied res1) as [Hcl1 Htal1].
      { destruct Htal as (Ht1 & Ht2 & Ht3 & Ht4).
        destruct H as [-> | (c1 & Hsame & Ho & Hm & Hos & Hn & Hcount)].
        - split; [apply classifies_snoc_orphaned, Hcl |].
          unfold tallied. cbn. rewrite length_app. cbn. lia.
        - split.
          + rewrite Hm, Hos. apply classifies_snoc_matured; assumption.
          + unfold tallied. rewrite Hm, Hos, Hn, length_app. cbn. lia. }
      eapply wp_mono; [| apply (IH (seen ++ [c])); assumption].
      intros out2 st2 evs2 H2.
      destruct out2 as [[res2 | err] | why].
      * rewrite <- app_assoc in H2. exact H2.
      * exact I.
      * destruct H2 as (-> & c' & Hin & Hshort). split; [reflexivity |].
        exists c'. split; [right; exact Hin | apply shortHash_app, Hshort].
    + destruct H as [-> Hshort]. split; [reflexivity |].
      exists c. split; [left | exact Hshort].
Qed.
End Classification.

(** X10: The search classifies every candidate exactly once.  When
    [unlockCandidates] returns a result, each candidate went, in the order
    of the input, either to the matured blocks, as a record with the same
    round height, nonce and state that is not an orphan, or to the
    orphaned blocks, unchanged but for [Orphan = true].  The counters
    agree with the lists: [orphans] is the number of orphaned blocks and
    [uncles + blocks] the number of matured ones. *)
Theorem unlockCandidates_classifies {W} (deps : Deps W)
    (config : UnlockerConfig) (mainNet : bool) (cs : list BlockData.t)
    (st st1 : St) (res : UnlockResult) :
  unlockCandidates deps config mainNet cs st = (Done (Ok res), st1) ->
  classifies cs (maturedBlocks res) (orphanedBlocks res)
  /\ (length (maturedBlocks res) + length (orphanedBlocks res)
      = length cs)%nat
  /\ Forall (fun c => BlockData.Orphan c = false) (maturedBlocks res)
  /\ Forall (fun c => BlockData.Orphan c = true) (orphanedBlocks res)
  /\ orphanedBlocks res `sublist_of` (BlockData.setOrphan true <$> cs)
  /\ orphans res = Z.of_nat (length (orphanedBlocks res))
  /\ uncles res + blocks res = Z.of_nat (length (maturedBlocks res))
  /\ 0 <= uncles res /\ 0 <= blocks res.
Proof.
  intros Hrun. unfold unlockCandidates in Hrun.
  destruct (wp_run _ _ _ _ _
              (candidatesLoop_class deps config mainNet cs []
                 (mkResult [] [] 0 0 0) st classifies_nil
                 ltac:(repeat split; cbn; lia)) Hrun)
    as (evs & _ & Hcl & Htal).
  cbn [app] in Hcl.
  destruct (classifies_facts _ _ _ Hcl) as (Hlen & Hm & Hos & Hsub).
  destruct Htal as (Ht1 & Ht2 & Ht3 & Ht4).
  auto 10.
Qed.

(** X11: The only panic of the search: when [unlockCandidates] panics, it is
    the slice [hash[0:10]] of a log line that is out of range, and the
    last block or uncle the node handed back matches one of the candidates
    and has a hash of fewer than ten bytes. *)
Theorem unlockCandidates_panics_on_short_hash {W} (deps : Deps W)
    (config : UnlockerConfig) (mainNet : bool) (cs : list BlockData.t)
    (st st1 : St) (why : PanicKind) :
  unlockCandidates deps config mainNet cs st = (Panic why, st1) ->
  why = SliceBounds
  /\ exists evs c b,
       trace st1 = trace st ++ evs
       /\ c ∈ cs
       /\ last (replies evs) = Some b
       /\ matchCandidate b c = true
       /\ len (GetBlockReply.Hash b) < 10.
Proof.
  intros Hrun. unfold unlockCandidates in Hrun.
  destruct (wp_run _ _ _ _ _
              (candidatesLoop_class deps config mainNet cs []
                 (mkResult [] [] 0 0 0) st classifies_nil
                 ltac:(repeat split; cbn; lia)) Hrun)
    as (evs & Htr & -> & c & Hin & b & Hlast & Hm & Hlen).
  split; [reflexivity |]. exists evs, c, b. auto.
Qed.

Lemma unlockCandidates_classifies_witness :
  exists res st1,
    unlockCandidates
      (sampleDeps (Ok None)
         (fun h => if h =? 100
                   then Ok (Some (sampleBlock "0x64" "0xaaaaaaaaaa" "0xABC"
                                    [] []))
                   else Ok (Some (sampleBlock "0x0" "0x0000000000" "0x0"
                                    [] [])))
         (fun _ _ => Ok None) (fun _ => Ok None) (Ok [])
         (fun _ _ => Ok ∅) None (fun _ _ _ => 0))
      sampleConfig true
      [sampleCandidate 100 "0xabc" "" 0; sampleCandidate 200 "0xdef" "" 0]
      sampleStart = (Done (Ok res), st1)
    /\ classifies
         [sampleCandidate 100 "0xabc" "" 0; sampleCandidate 200 "0xdef" "" 0]
         (maturedBlocks res) (orphanedBlocks res)
    /\ (length (maturedBlocks res) + length (orphanedBlocks res) = 2)%nat
    /\ orphans res = Z.of_nat (length (orphanedBlocks res))
    /\ uncles res + blocks res = Z.of_nat (length (maturedBlocks res)).
Proof.
  destruct (unlockCandidates
      (sampleDeps (Ok None)
         (fun h => if h =? 100
                   then Ok (Some (sampleBlock "0x64" "0xaaaaaaaaaa" "0xABC"
                                    [] []))
                   else Ok (Some (sampleBlock "0x0" "0x0000000000" "0x0"
                                    [] [])))
         (fun _ _ => Ok None) (fun _ => Ok None) (Ok [])
         (fun _ _ => Ok ∅) None (fun _ _ _ => 0))
      sampleConfig true
      [sampleCandidate 100 "0xabc" "" 0; sampleCandidate 200 "0xdef" "" 0]
      sampleStart) as [out st1] eqn:Hrun.
  assert (exists res, out = Done (Ok res)) as [res ->].
  { vm_compute in Hrun. injection Hrun as <- _. eexists. reflexivity. }
  exists res, st1. split; [reflexivity |].
  destruct (unlockCandidates_classifies _ _ _ _ _ _ _ Hrun)
    as (Hcl & Hlen & _ & _ & _ & Ho & Hu & _).
  auto.
Defined.

Lemma unlockCandidates_panics_on_short_hash_witness :
  exists why st1,
    unlockCandidates
      (sampleDeps (Ok None)
         (fun h => if h =? 100
                   then Ok (Some (sampleBlock "0x64" "0xaaa" "0xABC" [] []))
                   else Ok (Some (sampleBlock "0x0" "0x0000000000" "0x0"
                                    [] [])))
         (fun _ _ => Ok None) (fun _ => Ok None) (Ok [])
         (fun _ _ => Ok ∅) None (fun _ _ _ => 0))
      sampleConfig true [sampleCandidate 100 "0xabc" "" 0] sampleStart
      = (Panic why, st1)
    /\ why = SliceBounds
    /\ exists evs c b,
         trace st1 = trace sampleStart ++ evs
         /\ c ∈ [sampleCandidate 100 "0xabc" "" 0]
         /\ last (replies evs) = Some b
         /\ matchCandidate b c = true
         /\ len (GetBlockReply.Hash b) < 10.
Proof.
  destruct (unlockCandidates
      (sampleDeps (Ok None)
         (fun h => if h =? 100
                   then Ok (Some (sampleBlock "0x64" "0xaaa" "0xABC" [] []))
                   else Ok (Some (sampleBlock "0x0" "0x0000000000" "0x0"
                                    [] [])))
         (fun _ _ => Ok None) (fun _ => Ok None) (Ok [])
         (fun _ _ => Ok ∅) None (fun _ _ _ => 0))
      sampleConfig true [sampleCandidate 100 "0xabc" "" 0] sampleStart)
    as [out st1] eqn:Hrun.
  assert (exists why, out = Panic why) as [why ->].
  { vm_compute in Hrun. injection Hrun as <- _. eexists. reflexivity. }
  exists why, st1. split; [reflexivity |].
  exact (unlockCandidates_panics_on_short_hash _ _ _ _ _ _ _ Hrun).
Defined.

(** * The two phases of a pass *)

Lemma only_nil P : only P [].
Proof. constructor. Qed.

Lemma only_app P a b : only P a -> only P b -> only P (a ++ b).
Proof. apply Forall_app_2. Qed.

Lemma only_one P ev : P ev = true -> only P [ev].
Proof. intros H. constructor; [assumption | constructor]. Qed.

Lemma only_impl (P Q : Event -> bool) evs :
  (forall ev, P ev = true -> Q ev = true) -> only P evs -> only Q evs.
Proof.
  intros H Hall. unfold only. eapply Forall_impl; [exact Hall | exact H].
Qed.

Lemma only_search_pending evs :
  only searchEvent evs -> only pendingSearchEvent evs.
Proof.
  apply only_impl. intros ev H. unfold pendingSearchEvent. rewrite H.
  reflexivity.
Qed.

Lemma only_search_mature evs :
  only searchEvent evs -> only matureSearchEvent evs.
Proof.
  apply only_impl. intros ev H. unfold matureSearchEvent. rewrite H.
  reflexivity.
Qed.

Lemma only_loop_pending evs :
  only immatureLoopEvent evs -> only pendingCreditEvent evs.
Proof. apply only_impl. intros ev H. destruct ev; try discriminate; auto. Qed.

Lemma only_loop_mature evs :
  only maturedLoopEvent evs -> only matureCreditEvent evs.
Proof. apply only_impl. intros ev H. destruct ev; try discriminate; auto. Qed.

Lemma phases_search S C evs : only S evs -> phases S C evs.
Proof.
  intros H. exists evs, []. rewrite app_nil_r.
  repeat split; [assumption | constructor | congruence].
Qed.

Lemma phases_credit S C evs : only C evs -> phases S C evs.
Proof.
  intros H. exists [], evs.
  repeat split; [constructor | assumption | constructor].
Qed.

Lemma phases_prepend S C a b :
  only S a -> clean a -> phases S C b -> phases S C (a ++ b).
Proof.
  intros Ha Hc (search & credit & -> & Hs & Hcr & Hclean).
  exists (a ++ search), credit. rewrite app_assoc.
  repeat split; [apply only_app; assumption | assumption |].
  intros Hne. apply clean_app; [assumption | apply Hclean, Hne].
Qed.

Ltac solve_only :=
  repeat first
    [ assumption
    | apply only_nil
    | apply only_one; reflexivity
    | apply only_app
    | apply only_search_pending; assumption
    | apply only_search_mature; assumption
    | apply only_loop_pending; assumption
    | apply only_loop_mature; assumption ].

Ltac solve_clean_evs :=
  repeat first [ assumption | apply clean_nil | apply clean_app
               | apply clean_one; reflexivity ].

Section Footprint.
Context {W : Type}.
Variable deps : Deps W.
Variable config : UnlockerConfig.
Variable mainNet : bool.

Lemma wp_conj {A} (p : M (W := W) A) Q1 Q2 st :
  wp p Q1 st -> wp p Q2 st ->
  wp p (fun out st1 evs => Q1 out st1 evs /\ Q2 out st1 evs) st.
Proof.
  intros (evs1 & Htr1 & H1) (evs2 & Htr2 & H2).
  assert (evs1 = evs2) as ->
    by (rewrite Htr1 in Htr2; exact (app_inv_head _ _ _ Htr2)).
  exists evs2. auto.
Qed.

Lemma txLoop_only txs : forall amount st,
  wp (txLoop deps txs amount) (fun _ _ evs => only searchEvent evs) st.
Proof.
  induction txs as [| tx rest IH]; intros amount st; cbn [txLoop].
  - apply wp_ret. solve_only.
  - apply wp_bind, wp_call. intros [[receipt |] | err] w _.
    + eapply wp_mono; [| apply IH]. intros out st1 evs H. solve_only.
    + eapply wp_mono; [| apply IH]. intros out st1 evs H. solve_only.
    + apply wp_ret. solve_only.
Qed.

Lemma handleBlock_only block c st :
  wp (handleBlock deps config mainNet block c)
     (fun _ _ evs => only searchEvent evs) st.
Proof.
  unfold handleBlock.
  destruct (parseNumber (GetBlockReply.Number block)) as [height | err];
    [| apply wp_ret; solve_only].
  apply wp_bind. unfold getExtraRewardForTx.
  eapply wp_mono; [| apply txLoop_only].
  intros out st1 evs H.
  destruct out as [[extra | err] | why];
    [apply wp_ret | apply wp_ret |]; solve_only.
Qed.

Lemma uncleLoop_only height (hashes : list string) : forall index s st,
  wp (uncleLoop deps mainNet height index hashes s)
     (fun _ _ evs => only searchEvent evs) st.
Proof.
  induction hashes as [| uncleHash rest IH]; intros index s st;
    cbn [uncleLoop].
  - apply wp_ret. solve_only.
  - apply wp_bind, wp_call. intros [[uncle |] | err] w _;
      [| apply wp_ret; solve_only | apply wp_ret; solve_only].
    destruct (matchCandidate uncle (candidate s)).
    + destruct (handleUncle deps mainNet height uncle (candidate s))
        as [c1 | err].
      * apply wp_bind. unfold slice10.
        destruct (len (GetBlockReply.Hash uncle) <? 10);
          [apply wp_panic; solve_only |].
        apply wp_ret, wp_bind, wp_logf, wp_ret. solve_only.
      * apply wp_bind, wp_setHalt, wp_ret. solve_only.
    + eapply wp_mono; [| apply IH]. intros out st1 evs H. solve_only.
Qed.

Lemma windowLoop_only (n : nat) : forall i s st,
  wp (windowLoop deps config mainNet n i s)
     (fun _ _ evs => only searchEvent evs) st.
Proof.
  induction n as [| n IH]; intros i s st; cbn [windowLoop].
  - apply wp_ret. solve_only.
  - destruct (wrap64 (BlockData.Height (candidate s) + i) <? 0);
      [apply IH |].
    apply wp_bind, wp_call. intros [[block |] | err] w _.
    + destruct (matchCandidate block (candidate s)).
      * apply wp_bind. eapply wp_mono; [| apply handleBlock_only].
        intros out st1 evs H.
        destruct out as [[c1 | err] | why]; [| | solve_only].
        -- apply wp_bind. unfold slice10.
           destruct (len (BlockData.Hash c1) <? 10);
             [apply wp_panic; solve_only |].
           apply wp_ret, wp_bind, wp_logf, wp_ret. solve_only.
        -- apply wp_bind, wp_setHalt, wp_ret. solve_only.
      * destruct (Z.of_nat (length (GetBlockReply.Uncles block)) =? 0).
        -- eapply wp_mono; [| apply IH]. intros out st1 evs H. solve_only.
        -- apply wp_bind. eapply wp_mono; [| apply uncleLoop_only].
           intros out st1 evs H.
           destruct out as [[s1 | err] | why];
             [| apply wp_ret; solve_only | solve_only].
           destruct (negb (orphan s1)); [apply wp_ret; solve_only |].
           eapply wp_mono; [| apply IH]. intros out2 st2 evs2 H2.
           solve_only.
    + apply wp_ret. solve_only.
    + apply wp_bind, wp_logf, wp_ret. solve_only.
Qed.

Lemma unlockCandidate_only c res st :
  wp (unlockCandidate deps config mainNet c res)
     (fun _ _ evs => only searchEvent evs) st.
Proof.
  unfold unlockCandidate.
  apply wp_bind. eapply wp_mono; [| apply windowLoop_only].
  intros out st1 evs H.
  destruct out as [[s1 | err] | why];
    [| apply wp_ret; solve_only | solve_only].
  destruct (orphan s1);
    [apply wp_bind, wp_logf, wp_ret | apply wp_ret]; solve_only.
Qed.

Lemma candidatesLoop_only cs : forall res st,
  wp (candidatesLoop deps config mainNet cs res)
     (fun _ _ evs => only searchEvent evs) st.
Proof.
  induction cs as [| c rest IH]; intros res st; cbn [candidatesLoop].
  - apply wp_ret. solve_only.
  - apply wp_bind. eapply wp_mono; [| apply unlockCandidate_only].
    intros out st1 evs H.
    destruct out as [[res1 | err] | why];
      [| apply wp_ret; solve_only | solve_only].
    eapply wp_mono; [| apply IH]. intros out2 st2 evs2 H2. solve_only.
Qed.

Lemma calculateRewards_only (P : Event -> bool) block st :
  (forall rh nonce r, P (EvGetRoundShares rh nonce r) = true) ->
  wp (calculateRewards deps config block) (fun _ _ evs => only P evs) st.
Proof.
  intros HP. unfold calculateRewards.
  destruct (chargeFee _ (PoolFee config)) as [[minersProfit poolProfit] |];
    [| apply wp_panic; solve_only].
  apply wp_bind, wp_call. intros [shares | err] w _.
  - destruct (Z.of_nat (size shares) =? 0);
      [apply wp_ret; evs_norm; apply only_one, HP |].
    destruct (calculateRewardsForShares _ _ _) as [[rewards percents] |];
      [| apply wp_panic; evs_norm; apply only_one, HP].
    destruct (creditPool _ _ _ _ _ _ _);
      [apply wp_ret | apply wp_panic]; evs_norm; apply only_one, HP.
  - apply wp_ret. evs_norm. apply only_one, HP.
Qed.

Lemma immatureLoop_only bs : forall st,
  wp (immatureLoop deps config bs)
     (fun _ _ evs => only immatureLoopEvent evs) st.
Proof.
  induction bs as [| block rest IH]; intros st; cbn [immatureLoop].
  - apply wp_ret. solve_only.
  - apply wp_bind.
    eapply wp_mono; [| apply (calculateRewards_only immatureLoopEvent)];
      [| reflexivity].
    intros out st1 evs Hc.
    destruct out as [[err | | rev mp pp rw pc] | why]; [| | | exact Hc].
    + apply wp_bind, wp_setHalt, wp_bind, wp_logf, wp_ret. solve_only.
    + apply wp_bind, wp_call. intros r w _.
      apply wp_bind, wp_logf. eapply wp_mono; [| apply IH].
      intros out2 st2 evs2 H2. solve_only.
    + apply wp_bind, wp_call. intros [err |] w _.
      * apply wp_bind, wp_setHalt, wp_bind, wp_logf, wp_ret. solve_only.
      * apply wp_bind, wp_logf, wp_bind, wp_logf.
        eapply wp_mono; [| apply IH].
        intros out2 st2 evs2 H2. solve_only.
Qed.

Lemma maturedLoop_only bs : forall st,
  wp (maturedLoop deps config bs)
     (fun _ _ evs => only maturedLoopEvent evs) st.
Proof.
  induction bs as [| block rest IH]; intros st; cbn [maturedLoop].
  - apply wp_ret. solve_only.
  - apply wp_bind.
    eapply wp_mono; [| apply (calculateRewards_only maturedLoopEvent)];
      [| reflexivity].
    intros out st1 evs Hc.
    destruct out as [[err | | rev mp pp rw pc] | why]; [| | | exact Hc].
    + apply wp_bind, wp_setHalt, wp_bind, wp_logf, wp_ret. solve_only.
    + apply wp_bind, wp_call. intros r w _.
      apply wp_bind, wp_logf, wp_bind, wp_logf.
      eapply wp_mono; [| apply IH].
      intros out2 st2 evs2 H2. solve_only.
    + apply wp_bind, wp_call. intros [err |] w _.
      * apply wp_bind, wp_setHalt, wp_bind, wp_logf, wp_ret. solve_only.
      * apply wp_bind, wp_logf, wp_bind, wp_logf.
        eapply wp_mono; [| apply IH].
        intros out2 st2 evs2 H2. solve_only.
Qed.

Lemma orphansLoop_only bs : forall st,
  wp (orphansLoop deps bs)
     (fun _ _ evs => only matureCreditEvent evs) st.
Proof.
  induction bs as [| block rest IH]; intros st; cbn [orphansLoop].
  - apply wp_ret. solve_only.
  - apply wp_bind, wp_call. intros [err |] w _.
    + apply wp_bind, wp_setHalt, wp_bind, wp_logf, wp_ret. solve_only.
    + eapply wp_mono; [| apply IH]. intros out2 st2 evs2 H2. solve_only.
Qed.

Lemma unlockCandidates_search cs st :
  wp (unlockCandidates deps config mainNet cs)
     (fun out st1 evs =>
        only searchEvent evs
        /\ match out with
           | Done (Ok _) => clean evs
           | _ => True
           end) st.
Proof.
  unfold unlockCandidates.
  eapply wp_mono;
    [| apply wp_conj; [apply candidatesLoop_only | apply candidatesLoop_wp]].
  intros out st1 evs [Honly Hspec]. split; [exact Honly |].
  destruct out as [[res | err] | why]; [| exact I | exact I].
  destruct Hspec as [[Hclean _] _]. exact Hclean.
Qed.

Lemma unlockPendingBlocks_phases st :
  wp (unlockPendingBlocks deps config mainNet)
     (fun _ _ evs => phases pendingSearchEvent pendingCreditEvent evs) st.
Proof.
  unfold unlockPendingBlocks.
  apply wp_bind, wp_getHalt. destruct (halt st).
  { apply wp_logf, phases_search. solve_only. }
  apply wp_bind, wp_call. intros [[current |] | err] w _.
  - destruct (parseNumber (GetBlockReply.Number current))
      as [currentHeight | err].
    + apply wp_bind, wp_call. intros [[| c cs] | err] w2 _.
      * apply wp_logf, phases_search. solve_only.
      * apply wp_bind.
        eapply wp_mono; [| apply unlockCandidates_search].
        intros out st1 evs [Honly Hclean].
        destruct out as [[res | err] | why].
        -- assert (forall rest,
                     only pendingCreditEvent rest ->
                     phases pendingSearchEvent pendingCreditEvent
                       ([] ++ [EvGetPendingBlock (Ok (Some current))]
                        ++ [EvGetCandidates
                              (wrap64 (currentHeight - ImmatureDepth config))
                              (Ok (c :: cs))] ++ evs ++ rest)) as Hsplit.
           { intros rest Hrest.
             repeat (apply phases_prepend;
                     [solve [solve_only] | solve [solve_clean_evs] |]).
             apply phases_credit, Hrest. }
           apply wp_bind, wp_logf, wp_bind, wp_call. intros [err |] w3 _.
           ++ apply wp_bind, wp_setHalt, wp_logf. apply Hsplit. solve_only.
           ++ apply wp_bind, wp_logf, wp_bind.
              eapply wp_mono; [| apply immatureLoop_only].
              intros out3 st3 evs3 H3. destruct out3 as [[|] | why];
                [apply wp_logf | apply wp_ret |];
                apply Hsplit; solve_only.
        -- apply wp_bind, wp_setHalt, wp_logf, phases_search. solve_only.
        -- apply phases_search. solve_only.
      * apply wp_bind, wp_setHalt, wp_logf, phases_search. solve_only.
    + apply wp_bind, wp_setHalt, wp_logf, phases_search. solve_only.
  - apply wp_panic, phases_search. solve_only.
  - apply wp_bind, wp_setHalt, wp_logf, phases_search. solve_only.
Qed.

Lemma unlockAndCreditMiners_phases st :
  wp (unlockAndCreditMiners deps config mainNet)
     (fun _ _ evs => phases matureSearchEvent matureCreditEvent evs) st.
Proof.
  unfold unlockAndCreditMiners.
  apply wp_bind, wp_getHalt. destruct (halt st).
  { apply wp_logf, phases_search. solve_only. }
  apply wp_bind, wp_call. intros [[current |] | err] w _.
  - destruct (parseNumber (GetBlockReply.Number current))
      as [currentHeight | err].
    + apply wp_bind, wp_call. intros [[| c cs] | err] w2 _.
      * apply wp_logf, phases_search. solve_only.
      * apply wp_bind.
        eapply wp_mono; [| apply unlockCandidates_search].
        intros out st1 evs [Honly Hclean].
        destruct out as [[res | err] | why].
        -- assert (forall rest,
                     only matureCreditEvent rest ->
                     phases matureSearchEvent matureCreditEvent
                       ([] ++ [EvGetPendingBlock (Ok (Some current))]
                        ++ [EvGetImmatureBlocks
                              (wrap64 (currentHeight - Depth config))
                              (Ok (c :: cs))] ++ evs ++ rest)) as Hsplit.
           { intros rest Hrest.
             repeat (apply phases_prepend;
                     [solve [solve_only] | solve [solve_clean_evs] |]).
             apply phases_credit, Hrest. }
           apply wp_bind, wp_logf, wp_bind.
           eapply wp_mono; [| apply orphansLoop_only].
           intros out2 st2 evs2 H2. destruct out2 as [[|] | why].
           ++ apply wp_bind, wp_logf, wp_bind.
              eapply wp_mono; [| apply maturedLoop_only].
              intros out3 st3 evs3 H3. destruct out3 as [[|] | why];
                [apply wp_logf | apply wp_ret |];
                apply Hsplit; solve_only.
           ++ apply wp_ret. apply Hsplit. solve_only.
           ++ apply Hsplit. solve_only.
        -- apply wp_bind, wp_setHalt, wp_logf, phases_search. solve_only.
        -- apply phases_search. solve_only.
      * apply wp_bind, wp_setHalt, wp_logf, phases_search. solve_only.
    + apply wp_bind, wp_setHalt, wp_logf, phases_search. solve_only.
  - apply wp_panic, phases_search. solve_only.
  - apply wp_bind, wp_setHalt, wp_logf, phases_search. solve_only.
Qed.
End Footprint.

(** X12: The search only reads the chain: whatever [unlockCandidates] returns,
    it has called nothing but [GetBlockByHeight],
    [GetUncleByBlockNumberAndIndex] and [GetTxReceipt], and logged; it
    never touches the store or the share store.  When it returns a result,
    none of these calls failed. *)
Theorem unlockCandidates_reads_only {W} (deps : Deps W)
    (config : UnlockerConfig) (mainNet : bool) (cs : list BlockData.t)
    (st : St) :
  exists evs,
    trace (snd (unlockCandidates deps config mainNet cs st)) = trace st ++ evs
    /\ Forall (fun ev => searchEvent ev = true) evs
    /\ match fst (unlockCandidates deps config mainNet cs st) with
       | Done (Ok _) => Forall (fun ev => evError ev = None) evs
       | _ => True
       end.
Proof.
  destruct (unlockCandidates_search deps config mainNet cs st)
    as (evs & Htr & Honly & Hclean).
  exists evs. split; [exact Htr |]. split; [exact Honly |].
  destruct (fst (unlockCandidates deps config mainNet cs st))
    as [[res | err] | why]; [| exact I | exact I].
  unfold only, clean in *. rewrite Forall_forall in *.
  intros ev Hin. specialize (Honly ev Hin). specialize (Hclean ev Hin).
  destruct ev; try discriminate; exact Hclean.
Qed.

(** X13: Pass 1 runs in two phases.  Its events split into a search phase (the
    pending block, the stored candidates, block, uncle and receipt reads,
    log lines) followed by a credit phase (the pending-orphans write, the
    shares of rounds, immature credits, "unable to credit" markers, log
    lines).  The credit phase is entered only when no call of the search
    phase failed: after a failed read nothing is written, and once
    something was written the node is not asked again.  Pass 1 never writes
    a matured block or a single orphan. *)
Theorem unlockPendingBlocks_two_phases {W} (deps : Deps W)
    (config : UnlockerConfig) (mainNet : bool) (st : St) :
  exists search credit,
    trace (snd (unlockPendingBlocks deps config mainNet st))
      = trace st ++ search ++ credit
    /\ Forall (fun ev => pendingSearchEvent ev = true) search
    /\ Forall (fun ev => pendingCreditEvent ev = true) credit
    /\ (credit <> [] -> Forall (fun ev => evError ev = None) search).
Proof.
  destruct (unlockPendingBlocks_phases deps config mainNet st)
    as (evs & Htr & search & credit & -> & Hs & Hc & Hclean).
  exists search, credit. split; [exact Htr |].
  split; [exact Hs |]. split; [exact Hc |].
  intros Hne. specialize (Hclean Hne).
  unfold only, clean in *. rewrite Forall_forall in *.
  intros ev Hin. specialize (Hs ev Hin). specialize (Hclean ev Hin).
  destruct ev; try discriminate; exact Hclean.
Qed.

(** X14: Pass 2 runs in two phases as well: a search phase (the pending block,
    the stored immature blocks, block, uncle and receipt reads, log lines)
    followed by a credit phase (orphan writes, the shares of rounds,
    matured credits, "unable to credit" markers, log lines), entered only
    when no call of the search phase failed.  Pass 2 never writes an
    immature block or the pending orphans. *)
Theorem unlockAndCreditMiners_two_phases {W} (deps : Deps W)
    (config : UnlockerConfig) (mainNet : bool) (st : St) :
  exists search credit,
    trace (snd (unlockAndCreditMiners deps config mainNet st))
      = trace st ++ search ++ credit
    /\ Forall (fun ev => matureSearchEvent ev = true) search
    /\ Forall (fun ev => matureCreditEvent ev = true) credit
    /\ (credit <> [] -> Forall (fun ev => evError ev = None) search).
Proof.
  destruct (unlockAndCreditMiners_phases deps config mainNet st)
    as (evs & Htr & search & credit & -> & Hs & Hc & Hclean).
  exists search, credit. split; [exact Htr |].
  split; [exact Hs |]. split; [exact Hc |].
  intros Hne. specialize (Hclean Hne).
  unfold only, clean in *. rewrite Forall_forall in *.
  intros ev Hin. specialize (Hs ev Hin). specialize (Hclean ev Hin).
  destruct ev; try discriminate; exact Hclean.
Qed.

(** * Accounting for the candidates *)

Lemma askedRounds_app a b :
  askedRounds (a ++ b) = askedRounds a ++ askedRounds b.
Proof. apply omap_app. Qed.

Lemma recordedBlocks_app a b :
  recordedBlocks (a ++ b) = recordedBlocks a ++ recordedBlocks b.
Proof. apply omap_app. Qed.

Lemma candidatesRead_app a b :
  candidatesRead (a ++ b) = candidatesRead a ++ candidatesRead b.
Proof. apply omap_app. Qed.

Lemma pendingOrphansWritten_app a b :
  pendingOrphansWritten (a ++ b)
    = pendingOrphansWritten a ++ pendingOrphansWritten b.
Proof. apply omap_app. Qed.

Lemma orphansWritten_app a b :
  orphansWritten (a ++ b) = orphansWritten a ++ orphansWritten b.
Proof. apply omap_app. Qed.

Lemma search_projections evs :
  only searchEvent evs ->
  candidatesRead evs = [] /\ recordedBlocks evs = []
  /\ pendingOrphansWritten evs = [] /\ orphansWritten evs = [].
Proof.
  induction 1 as [| ev evs Hev _ IH]; [repeat split |].
  destruct IH as (H1 & H2 & H3 & H4).
  destruct ev; try discriminate; cbn; auto.
Qed.

Lemma matureCredit_projections evs :
  only matureCreditEvent evs ->
  candidatesRead evs = [] /\ pendingOrphansWritten evs = [].
Proof.
  induction 1 as [| ev evs Hev _ IH]; [repeat split |].
  destruct IH as (H1 & H2).
  destruct ev; try discriminate; cbn; auto.
Qed.

Lemma recordsSpec_cons {W} block rest pre out (st1 : St (W := W)) evs :
  askedRounds pre = [roundOf block] ->
  recordedBlocks pre = [block] ->
  recordsSpec rest out st1 evs ->
  recordsSpec (block :: rest) out st1 (pre ++ evs).
Proof.
  intros Ha Hr (Hasked & Hrec & Hdone). unfold recordsSpec.
  rewrite askedRounds_app, recordedBlocks_app, Ha, Hr. cbn.
  split; [apply prefix_cons, Hasked |].
  split; [apply prefix_cons, Hrec |].
  intros Ht. destruct (Hdone Ht) as [-> ->]. split; reflexivity.
Qed.

Lemma recordsSpec_stop {W} block rest pre recorded (st1 : St (W := W)) :
  askedRounds pre = [roundOf block] ->
  recordedBlocks pre = recorded ->
  recorded `prefix_of` [block] ->
  recordsSpec (block :: rest) (Done false) st1 pre.
Proof.
  intros Ha Hr Hpre. unfold recordsSpec. rewrite Ha, Hr.
  split; [apply prefix_cons, prefix_nil |].
  split; [| discriminate].
  etransitivity; [exact Hpre |]. apply prefix_cons, prefix_nil.
Qed.

Section Accounting.
Context {W : Type}.
Variable deps : Deps W.
Variable config : UnlockerConfig.
Variable mainNet : bool.

Lemma calculateRewards_asks block st :
  wp (calculateRewards deps config block)
     (fun out _ evs =>
        recordedBlocks evs = []
        /\ match out with
           | Done _ => askedRounds evs = [roundOf block]
           | Panic _ => askedRounds evs `prefix_of` [roundOf block]
           end) st.
Proof.
  unfold calculateRewards.
  destruct (chargeFee _ (PoolFee config)) as [[minersProfit poolProfit] |].
  2:{ apply wp_panic. split; [reflexivity | apply prefix_nil]. }
  apply wp_bind, wp_call. intros [shares | err] w _.
  - destruct (Z.of_nat (size shares) =? 0);
      [apply wp_ret; split; reflexivity |].
    destruct (calculateRewardsForShares _ _ _) as [[rewards percents] |];
      [| apply wp_panic; split; reflexivity].
    destruct (creditPool _ _ _ _ _ _ _);
      [apply wp_ret | apply wp_panic]; split; reflexivity.
  - apply wp_ret. split; reflexivity.
Qed.

Lemma immatureLoop_records bs : forall st,
  wp (immatureLoop deps config bs) (recordsSpec bs) st.
Proof.
  induction bs as [| block rest IH]; intros st; cbn [immatureLoop].
  - apply wp_ret. repeat split; reflexivity.
  - apply wp_bind. eapply wp_mono; [| apply calculateRewards_asks].
    intros out st1 evs [Hrec Hasked].
    destruct out as [[err | | rev mp pp rw pc] | why].
    + apply wp_bind, wp_setHalt, wp_bind, wp_logf, wp_ret.
      eapply recordsSpec_stop;
        [rewrite !askedRounds_app, Hasked; reflexivity
        | rewrite !recordedBlocks_app, Hrec; reflexivity
        | apply prefix_nil].
    + apply wp_bind, wp_call. intros r w _.
      apply wp_bind, wp_logf. eapply wp_mono; [| apply IH].
      intros out2 st2 evs2 H2. rewrite !app_assoc.
      apply recordsSpec_cons;
        [rewrite !askedRounds_app, Hasked; reflexivity
        | rewrite !recordedBlocks_app, Hrec; reflexivity
        | exact H2].
    + apply wp_bind, wp_call. intros [err |] w _.
      * apply wp_bind, wp_setHalt, wp_bind, wp_logf, wp_ret.
        eapply recordsSpec_stop;
          [rewrite !askedRounds_app, Hasked; reflexivity
          | rewrite !recordedBlocks_app, Hrec; reflexivity
          | reflexivity].
      * apply wp_bind, wp_logf, wp_bind, wp_logf.
        eapply wp_mono; [| apply IH].
        intros out2 st2 evs2 H2. rewrite !app_assoc.
        apply recordsSpec_cons;
          [rewrite !askedRounds_app, Hasked; reflexivity
          | rewrite !recordedBlocks_app, Hrec; reflexivity
          | exact H2].
    + unfold recordsSpec. rewrite Hrec.
      split; [etransitivity; [exact Hasked | apply prefix_cons, prefix_nil] |].
      split; [apply prefix_nil | discriminate].
Qed.

Lemma maturedLoop_records bs : forall st,
  wp (maturedLoop deps config bs) (recordsSpec bs) st.
Proof.
  induction bs as [| block rest IH]; intros st; cbn [maturedLoop].
  - apply wp_ret. repeat split; reflexivity.
  - apply wp_bind. eapply wp_mono; [| apply calculateRewards_asks].
    intros out st1 evs [Hrec Hasked].
    destruct out as [[err | | rev mp pp rw pc] | why].
    + apply wp_bind, wp_setHalt, wp_bind, wp_logf, wp_ret.
      eapply recordsSpec_stop;
        [rewrite !askedRounds_app, Hasked; reflexivity
        | rewrite !recordedBlocks_app, Hrec; reflexivity
        | apply prefix_nil].
    + apply wp_bind, wp_call. intros r w _.
      apply wp_bind, wp_logf, wp_bind, wp_logf.
      eapply wp_mono; [| apply IH].
      intros out2 st2 evs2 H2. rewrite !app_assoc.
      apply recordsSpec_cons;
        [rewrite !askedRounds_app, Hasked; reflexivity
        | rewrite !recordedBlocks_app, Hrec; reflexivity
        | exact H2].
    + apply wp_bind, wp_call. intros [err |] w _.
      * apply wp_bind, wp_setHalt, wp_bind, wp_logf, wp_ret.
        eapply recordsSpec_stop;
          [rewrite !askedRounds_app, Hasked; reflexivity
          | rewrite !recordedBlocks_app, Hrec; reflexivity
          | reflexivity].
      * apply wp_bind, wp_logf, wp_bind, wp_logf.
        eapply wp_mono; [| apply IH].
        intros out2 st2 evs2 H2. rewrite !app_assoc.
        apply recordsSpec_cons;
          [rewrite !askedRounds_app, Hasked; reflexivity
          | rewrite !recordedBlocks_app, Hrec; reflexivity
          | exact H2].
    + unfold recordsSpec. rewrite Hrec.
      split; [etransitivity; [exact Hasked | apply prefix_cons, prefix_nil] |].
      split; [apply prefix_nil | discriminate].
Qed.

Lemma orphansLoop_writes bs : forall st,
  wp (orphansLoop deps bs)
     (fun out _ evs =>
        orphansWritten evs `prefix_of` bs
        /\ recordedBlocks evs = []
        /\ (out = Done true -> orphansWritten evs = bs)) st.
Proof.
  induction bs as [| block rest IH]; intros st; cbn [orphansLoop].
  - apply wp_ret. repeat split; reflexivity.
  - apply wp_bind, wp_call. intros [err |] w _.
    + apply wp_bind, wp_setHalt, wp_bind, wp_logf, wp_ret. cbn.
      split; [apply prefix_cons, prefix_nil |].
      split; [reflexivity | discriminate].
    + eapply wp_mono; [| apply IH]. intros out2 st2 evs2 (Hp & Hr & Hd).
      rewrite orphansWritten_app, recordedBlocks_app, Hr.
      change (orphansWritten [EvWriteOrphan block None]) with [block].
      split; [apply prefix_cons, Hp |]. split; [reflexivity |].
      intros Ht. rewrite (Hd Ht). reflexivity.
Qed.
End Accounting.

Lemma immatureLoop_projections evs :
  only immatureLoopEvent evs ->
  candidatesRead evs = [] /\ pendingOrphansWritten evs = []
  /\ orphansWritten evs = [].
Proof.
  induction 1 as [| ev evs Hev _ IH]; [repeat split |].
  destruct IH as (H1 & H2 & H3).
  destruct ev; try discriminate; cbn; auto.
Qed.

Lemma maturedLoop_projections evs :
  only maturedLoopEvent evs ->
  candidatesRead evs = [] /\ pendingOrphansWritten evs = []
  /\ orphansWritten evs = [].
Proof.
  induction 1 as [| ev evs Hev _ IH]; [repeat split |].
  destruct IH as (H1 & H2 & H3).
  destruct ev; try discriminate; cbn; auto.
Qed.

Ltac project_events :=
  rewrite ?candidatesRead_app, ?recordedBlocks_app,
    ?pendingOrphansWritten_app, ?orphansWritten_app;
  repeat match goal with
         | H : _ = _ |- _ => rewrite H
         end;
  cbn.

Section PassAccounting.
Context {W : Type}.
Variable deps : Deps W.
Variable config : UnlockerConfig.
Variable mainNet : bool.

Lemma unlockCandidates_accounts cs st :
  wp (unlockCandidates deps config mainNet cs)
     (fun out _ evs =>
        candidatesRead evs = [] /\ recordedBlocks evs = []
        /\ pendingOrphansWritten evs = [] /\ orphansWritten evs = []
        /\ match out with
           | Done (Ok res) =>
               classifies cs (maturedBlocks res) (orphanedBlocks res)
           | _ => True
           end) st.
Proof.
  unfold unlockCandidates.
  eapply wp_mono;
    [| apply wp_conj;
       [apply candidatesLoop_only
       | apply (candidatesLoop_class deps config mainNet cs []);
         [apply classifies_nil | repeat split; cbn; lia]]].
  intros out st1 evs [Honly Hclass].
  destruct (search_projections evs Honly) as (H1 & H2 & H3 & H4).
  repeat (split; [assumption |]).
  destruct out as [[res | err] | why]; [| exact I | exact I].
  destruct Hclass as [Hcl _]. exact Hcl.
Qed.

Lemma immatureLoop_accounts bs st :
  wp (immatureLoop deps config bs)
     (fun out st1 evs =>
        candidatesRead evs = [] /\ pendingOrphansWritten evs = []
        /\ match out with
           | Done true => recordedBlocks evs = bs
           | Done false => halt st1 = true
           | Panic _ => True
           end) st.
Proof.
  eapply wp_mono;
    [| apply wp_conj;
       [apply immatureLoop_only
       | apply wp_conj;
         [apply immatureLoop_records | apply immatureLoop_wp]]].
  intros out st1 evs (Honly & Hrec & Hspec).
  destruct (immatureLoop_projections evs Honly) as (H1 & H2 & _).
  split; [assumption |]. split; [assumption |].
  destruct out as [[|] | why]; [| | exact I].
  - destruct Hrec as (_ & _ & Hdone). apply Hdone. reflexivity.
  - destruct Hspec as (err & _ & Hh & _). exact Hh.
Qed.

Lemma maturedLoop_accounts bs st :
  wp (maturedLoop deps config bs)
     (fun out st1 evs =>
        candidatesRead evs = [] /\ orphansWritten evs = []
        /\ match out with
           | Done true => recordedBlocks evs = bs
           | Done false => halt st1 = true
           | Panic _ => True
           end) st.
Proof.
  eapply wp_mono;
    [| apply wp_conj;
       [apply maturedLoop_only
       | apply wp_conj;
         [apply maturedLoop_records | apply maturedLoop_wp]]].
  intros out st1 evs (Honly & Hrec & Hspec).
  destruct (maturedLoop_projections evs Honly) as (H1 & _ & H3).
  split; [assumption |]. split; [assumption |].
  destruct out as [[|] | why]; [| | exact I].
  - destruct Hrec as (_ & _ & Hdone). apply Hdone. reflexivity.
  - destruct Hspec as (err & _ & Hh & _). exact Hh.
Qed.

Lemma orphansLoop_accounts bs st :
  wp (orphansLoop deps bs)
     (fun out st1 evs =>
        candidatesRead evs = [] /\ recordedBlocks evs = []
        /\ match out with
           | Done true => orphansWritten evs = bs
           | Done false => halt st1 = true
           | Panic _ => True
           end) st.
Proof.
  eapply wp_mono;
    [| apply wp_conj;
       [apply orphansLoop_only
       | apply wp_conj; [apply orphansLoop_writes | apply orphansLoop_wp]]].
  intros out st1 evs (Honly & (_ & Hrec & Hdone) & Hspec).
  destruct (matureCredit_projections evs Honly) as (H1 & _).
  split; [assumption |]. split; [assumption |].
  destruct out as [[|] | why]; [| | exact I].
  - apply Hdone. reflexivity.
  - destruct Hspec as (err & _ & Hh & _). exact Hh.
Qed.

Lemma unlockPendingBlocks_accounts st :
  wp (unlockPendingBlocks deps config mainNet)
     (fun out st1 evs =>
        out = Done tt -> halt st1 = false ->
        exists written,
          accounted evs written
          /\ (pendingOrphansWritten evs = [written]
              \/ (candidatesRead evs = [[]]
                  /\ pendingOrphansWritten evs = []))) st.
Proof.
  unfold unlockPendingBlocks.
  apply wp_bind, wp_getHalt. destruct (halt st) eqn:Hhalt.
  { apply wp_logf. intros _ Hh. cbn in Hh. congruence. }
  apply wp_bind, wp_call. intros [[current |] | err] w _.
  - destruct (parseNumber (GetBlockReply.Number current))
      as [currentHeight | err].
    + apply wp_bind, wp_call. intros [[| c cs] | err] w2 _.
      * apply wp_logf. intros _ _. exists [].
        split; [| right; split; reflexivity].
        exists [], []. repeat split. constructor.
      * apply wp_bind.
        eapply wp_mono; [| apply unlockCandidates_accounts].
        intros out st1 evs (Hc & Hr & Hp & Ho & Hclass).
        destruct out as [[res | err] | why].
        -- apply wp_bind, wp_logf, wp_bind, wp_call. intros [err |] w3 _.
           ++ apply wp_bind, wp_setHalt, wp_logf. intros _ Hh.
              cbn in Hh. discriminate.
           ++ apply wp_bind, wp_logf, wp_bind.
              eapply wp_mono; [| apply immatureLoop_accounts].
              intros out3 st3 evs3 (Hc3 & Hp3 & H3).
              destruct out3 as [[|] | why].
              ** apply wp_logf. intros _ _.
                 exists (orphanedBlocks res). split.
                 --- exists (c :: cs), (maturedBlocks res).
                     split; [project_events; reflexivity |].
                     split; [exact Hclass |].
                     project_events. apply app_nil_r.
                 --- left. project_events. reflexivity.
              ** apply wp_ret. intros _ Hh. congruence.
              ** discriminate.
        -- apply wp_bind, wp_setHalt, wp_logf. intros _ Hh.
           cbn in Hh. discriminate.
        -- discriminate.
      * apply wp_bind, wp_setHalt, wp_logf. intros _ Hh.
        cbn in Hh. discriminate.
    + apply wp_bind, wp_setHalt, wp_logf. intros _ Hh.
      cbn in Hh. discriminate.
  - apply wp_panic. discriminate.
  - apply wp_bind, wp_setHalt, wp_logf. intros _ Hh.
    cbn in Hh. discriminate.
Qed.

Lemma unlockAndCreditMiners_accounts st :
  wp (unlockAndCreditMiners deps config mainNet)
     (fun out st1 evs =>
        out = Done tt -> halt st1 = false ->
        exists written,
          accounted evs written /\ orphansWritten evs = written) st.
Proof.
  unfold unlockAndCreditMiners.
  apply wp_bind, wp_getHalt. destruct (halt st) eqn:Hhalt.
  { apply wp_logf. intros _ Hh. cbn in Hh. congruence. }
  apply wp_bind, wp_call. intros [[current |] | err] w _.
  - destruct (parseNumber (GetBlockReply.Number current))
      as [currentHeight | err].
    + apply wp_bind, wp_call. intros [[| c cs] | err] w2 _.
      * apply wp_logf. intros _ _. exists [].
        split; [| reflexivity].
        exists [], []. repeat split. constructor.
      * apply wp_bind.
        eapply wp_mono; [| apply unlockCandidates_accounts].
        intros out st1 evs (Hc & Hr & Hp & Ho & Hclass).
        destruct out as [[res | err] | why].
        -- apply wp_bind, wp_logf, wp_bind.
           eapply wp_mono; [| apply orphansLoop_accounts].
           intros out2 st2 evs2 (Hc2 & Hr2 & H2).
           destruct out2 as [[|] | why].
           ++ apply wp_bind, wp_logf, wp_bind.
              eapply wp_mono; [| apply maturedLoop_accounts].
              intros out3 st3 evs3 (Hc3 & Ho3 & H3).
              destruct out3 as [[|] | why].
              ** apply wp_logf. intros _ _.
                 exists (orphanedBlocks res). split.
                 --- exists (c :: cs), (maturedBlocks res).
                     split; [project_events; reflexivity |].
                     split; [exact Hclass |].
                     project_events. apply app_nil_r.
                 --- project_events. apply app_nil_r.
              ** apply wp_ret. intros _ Hh. congruence.
              ** discriminate.
           ++ apply wp_ret. intros _ Hh. congruence.
           ++ discriminate.
        -- apply wp_bind, wp_setHalt, wp_logf. intros _ Hh.
           cbn in Hh. discriminate.
        -- discriminate.
      * apply wp_bind, wp_setHalt, wp_logf. intros _ Hh.
        cbn in Hh. discriminate.
    + apply wp_bind, wp_setHalt, wp_logf. intros _ Hh.
      cbn in Hh. discriminate.
  - apply wp_panic. discriminate.
  - apply wp_bind, wp_setHalt, wp_logf. intros _ Hh.
    cbn in Hh. discriminate.
Qed.
End PassAccounting.

(** X15: No candidate is lost in Pass 1.  When [unlockPendingBlocks] returns
    without the halt flag, the store was asked for candidates once, and
    every candidate it handed back was classified exactly once, in order:
    the orphaned ones are the list written by [WritePendingOrphans] (one
    write; none when there was no candidate), and for each matured one, one
    record was written, an immature credit or the "unable to credit"
    marker, in the order of the matured blocks. *)
Theorem unlockPendingBlocks_accounts_for_candidates {W} (deps : Deps W)
    (config : UnlockerConfig) (mainNet : bool) (st st1 : St) :
  unlockPendingBlocks deps config mainNet st = (Done tt, st1) ->
  halt st1 = false ->
  exists evs cs ms os,
    trace st1 = trace st ++ evs
    /\ candidatesRead evs = [cs]
    /\ classifies cs ms os
    /\ (length ms + length os = length cs)%nat
    /\ recordedBlocks evs = ms
    /\ (pendingOrphansWritten evs = [os]
        \/ (cs = [] /\ pendingOrphansWritten evs = [])).
Proof.
  intros Hrun Hh.
  destruct (wp_run _ _ _ _ _
              (unlockPendingBlocks_accounts deps config mainNet st) Hrun)
    as (evs & Htr & Hacc).
  destruct (Hacc eq_refl Hh) as (os & (cs & ms & Hc & Hcl & Hr) & Hw).
  exists evs, cs, ms, os. split; [exact Htr |]. split; [exact Hc |].
  split; [exact Hcl |].
  split; [apply (classifies_facts _ _ _ Hcl) |]. split; [exact Hr |].
  destruct Hw as [Hw | [Hc' Hw]]; [left; exact Hw |].
  right. split; [congruence | exact Hw].
Qed.

Lemma unlockPendingBlocks_accounts_for_candidates_witness :
  exists st1 evs cs ms os,
    unlockPendingBlocks
      (sampleDeps (Ok (Some (sampleBlock "0x100" "" "" [] [])))
         (fun h => if h =? 100
                   then Ok (Some (sampleBlock "0x64" "0xaaaaaaaaaa" "0xABC"
                                    [] []))
                   else Ok (Some (sampleBlock "0x0" "0x0000000000" "0x0"
                                    [] [])))
         (fun _ _ => Ok None) (fun _ => Ok None)
         (Ok [sampleCandidate 100 "0xabc" "" 0;
              sampleCandidate 200 "0xdef" "" 0])
         (fun _ _ => Ok {[ "A" := 70; "B" := 30 ]}) None (fun _ _ _ => 0))
      sampleConfig true sampleStart = (Done tt, st1)
    /\ halt st1 = false
    /\ trace st1 = trace sampleStart ++ evs
    /\ candidatesRead evs = [cs]
    /\ classifies cs ms os
    /\ (length ms + length os = length cs)%nat
    /\ recordedBlocks evs = ms
    /\ (pendingOrphansWritten evs = [os]
        \/ (cs = [] /\ pendingOrphansWritten evs = [])).
Proof.
  destruct (unlockPendingBlocks
      (sampleDeps (Ok (Some (sampleBlock "0x100" "" "" [] [])))
         (fun h => if h =? 100
                   then Ok (Some (sampleBlock "0x64" "0xaaaaaaaaaa" "0xABC"
                                    [] []))
                   else Ok (Some (sampleBlock "0x0" "0x0000000000" "0x0"
                                    [] [])))
         (fun _ _ => Ok None) (fun _ => Ok None)
         (Ok [sampleCandidate 100 "0xabc" "" 0;
              sampleCandidate 200 "0xdef" "" 0])
         (fun _ _ => Ok {[ "A" := 70; "B" := 30 ]}) None (fun _ _ _ => 0))
      sampleConfig true sampleStart) as [out st1] eqn:Hrun.
  assert (out = Done tt /\ halt st1 = false) as [-> Hh].
  { vm_compute in Hrun. injection Hrun as <- <-. split; reflexivity. }
  destruct (unlockPendingBlocks_accounts_for_candidates _ _ _ _ _ Hrun Hh)
    as (evs & cs & ms & os & H).
  exists st1, evs, cs, ms, os. split; [reflexivity |].
  split; [exact Hh | exact H].
Defined.

(** X16: No candidate is lost in Pass 2.  When [unlockAndCreditMiners] returns
    without the halt flag, the store was asked for immature blocks once,
    and every block it handed back was classified exactly once, in order:
    the orphaned ones were written one by one with [WriteOrphan], in
    order, and for each matured one, one record was written, a matured
    credit or the "unable to credit" marker, in the order of the matured
    blocks. *)
Theorem unlockAndCreditMiners_accounts_for_candidates {W} (deps : Deps W)
    (config : UnlockerConfig) (mainNet : bool) (st st1 : St) :
  unlockAndCreditMiners deps config mainNet st = (Done tt, st1) ->
  halt st1 = false ->
  exists evs cs ms os,
    trace st1 = trace st ++ evs
    /\ candidatesRead evs = [cs]
    /\ classifies cs ms os
    /\ (length ms + length os = length cs)%nat
    /\ recordedBlocks evs = ms
    /\ orphansWritten evs = os.
Proof.
  intros Hrun Hh.
  destruct (wp_run _ _ _ _ _
              (unlockAndCreditMiners_accounts deps config mainNet st) Hrun)
    as (evs & Htr & Hacc).
  destruct (Hacc eq_refl Hh) as (os & (cs & ms & Hc & Hcl & Hr) & Hw).
  exists evs, cs, ms, os. split; [exact Htr |]. split; [exact Hc |].
  split; [exact Hcl |].
  split; [apply (classifies_facts _ _ _ Hcl) |]. split; [exact Hr |].
  exact Hw.
Qed.

Lemma unlockAndCreditMiners_accounts_for_candidates_witness :
  exists st1 evs cs ms os,
    unlockAndCreditMiners
      (sampleDeps (Ok (Some (sampleBlock "0x100" "" "" [] [])))
         (fun h => if h =? 100
                   then Ok (Some (sampleBlock "0x64" "0xaaaaaaaaaa" "0xABC"
                                    [] []))
                   else Ok (Some (sampleBlock "0x0" "0x0000000000" "0x0"
                                    [] [])))
         (fun _ _ => Ok None) (fun _ => Ok None)
         (Ok [sampleCandidate 100 "0xabc" "" 0;
              sampleCandidate 200 "0xdef" "" 0])
         (fun _ _ => Ok {[ "A" := 70; "B" := 30 ]}) None (fun _ _ _ => 0))
      sampleConfig true sampleStart = (Done tt, st1)
    /\ halt st1 = false
    /\ trace st1 = trace sampleStart ++ evs
    /\ candidatesRead evs = [cs]
    /\ classifies cs ms os
    /\ (length ms + length os = length cs)%nat
    /\ recordedBlocks evs = ms
    /\ orphansWritten evs = os.
Proof.
  destruct (unlockAndCreditMiners
      (sampleDeps (Ok (Some (sampleBlock "0x100" "" "" [] [])))
         (fun h => if h =? 100
                   then Ok (Some (sampleBlock "0x64" "0xaaaaaaaaaa" "0xABC"
                                    [] []))
                   else Ok (Some (sampleBlock "0x0" "0x0000000000" "0x0"
                                    [] [])))
         (fun _ _ => Ok None) (fun _ => Ok None)
         (Ok [sampleCandidate 100 "0xabc" "" 0;
              sampleCandidate 200 "0xdef" "" 0])
         (fun _ _ => Ok {[ "A" := 70; "B" := 30 ]}) None (fun _ _ _ => 0))
      sampleConfig true sampleStart) as [out st1] eqn:Hrun.
  assert (out = Done tt /\ halt st1 = false) as [-> Hh].
  { vm_compute in Hrun. injection Hrun as <- <-. split; reflexivity. }
  destruct (unlockAndCreditMiners_accounts_for_candidates _ _ _ _ _ Hrun Hh)
    as (evs & cs & ms & os & H).
  exists st1, evs, cs, ms, os. split; [reflexivity |].
  split; [exact Hh | exact H].
Defined.

(** * The window and the chain tip *)

Lemma windowHeights_bounds (height bound : Z) :
  height + minDepth <= bound ->
  Forall (fun h => 0 <= h < bound) (windowHeights height).
Proof.
  intros Hb. apply Forall_forall. intros h Hh. unfold windowHeights in Hh.
  apply list_elem_of_filter in Hh as [H0 Hh].
  apply elem_of_seqZ in Hh. lia.
Qed.

Lemma Forall_prefix {A} (P : A -> Prop) (l k : list A) :
  l `prefix_of` k -> Forall P k -> Forall P l.
Proof. intros [t ->] H. apply Forall_app in H as [H _]. exact H. Qed.

Lemma fetchedHeights_none (P : Event -> bool) evs :
  (forall h r, P (EvGetBlockByHeight h r) = false) ->
  only P evs -> fetchedHeights evs = [].
Proof.
  intros HP. induction 1 as [| ev evs Hev _ IH]; [reflexivity |].
  destruct ev; cbn; try exact IH. rewrite HP in Hev. discriminate.
Qed.

Lemma wrap64_range x : inInt64 (wrap64 x).
Proof.
  unfold inInt64, wrap64, minInt64, maxInt64.
  pose proof (Z.mod_pos_bound (x + 2 ^ 63) (2 ^ 64) ltac:(lia)). lia.
Qed.

Lemma parseNumber_inInt64 number v :
  parseNumber number = Ok v -> inInt64 v.
Proof.
  unfold parseNumber, ParseInt.
  destruct (removeAll0x number) as [| c rest]; [discriminate |].
  cbv zeta.
  destruct (ParseUint _ 16) as [un [[|] |]]; try discriminate;
    destruct (negb (Ascii.eqb c "-") && (2 ^ 63 <=? un)); try discriminate;
    destruct (Ascii.eqb c "-" && (2 ^ 63 <? un)); try discriminate;
    intros [= <-]; destruct (Ascii.eqb c "-"); apply wrap64_range.
Qed.

(** The heights fetched by a pass whose search stayed below
    [maxHeight + 16], read against the pending height. *)
Lemma tip_leaf (depth : Z) current currentHeight query evs :
  minDepth <= depth <= maxInt64 ->
  parseNumber (GetBlockReply.Number current) = Ok currentHeight ->
  fetchedHeights [query] = [] ->
  (wrap64 (currentHeight - depth) + minDepth <= maxInt64 ->
   Forall (fun h => 0 <= h < wrap64 (currentHeight - depth) + minDepth)
     (fetchedHeights evs)) ->
  forall rest number height,
    fetchedHeights rest = [] ->
    pendingNumber
      ([] ++ [EvGetPendingBlock (Ok (Some current))] ++ [query]
       ++ evs ++ rest) = Some number ->
    parseNumber number = Ok height ->
    0 <= height ->
    Forall (fun h => 0 <= h < height)
      (fetchedHeights
         ([] ++ [EvGetPendingBlock (Ok (Some current))] ++ [query]
          ++ evs ++ rest)).
Proof.
  intros Hdepth Hparse Hq Hevs rest number height Hrest [= <-] Hp Hh.
  rewrite Hparse in Hp. injection Hp as <-.
  apply parseNumber_inInt64 in Hparse.
  rewrite app_nil_l, !fetchedHeights_app, Hq, Hrest, app_nil_r. cbn.
  rewrite wrap64_small in Hevs
    by (unfold inInt64, minInt64, maxInt64, minDepth in *; lia).
  eapply Forall_impl;
    [apply Hevs; unfold inInt64, maxInt64, minDepth in *; lia |].
  intros h Hb. cbn in Hb. unfold minDepth in *. lia.
Qed.

Lemma tip_leaf_mature (depth : Z) current currentHeight query evs :
  minDepth * 2 <= depth <= maxInt64 ->
  parseNumber (GetBlockReply.Number current) = Ok currentHeight ->
  fetchedHeights [query] = [] ->
  (wrap64 (currentHeight - depth) + minDepth <= maxInt64 ->
   Forall (fun h => 0 <= h < wrap64 (currentHeight - depth) + minDepth)
     (fetchedHeights evs)) ->
  forall rest number height,
    fetchedHeights rest = [] ->
    pendingNumber
      ([] ++ [EvGetPendingBlock (Ok (Some current))] ++ [query]
       ++ evs ++ rest) = Some number ->
    parseNumber number = Ok height ->
    0 <= height ->
    Forall (fun h => 0 <= h < height - minDepth)
      (fetchedHeights
         ([] ++ [EvGetPendingBlock (Ok (Some current))] ++ [query]
          ++ evs ++ rest)).
Proof.
  intros Hdepth Hparse Hq Hevs rest number height Hrest [= <-] Hp Hh.
  rewrite Hparse in Hp. injection Hp as <-.
  apply parseNumber_inInt64 in Hparse.
  rewrite app_nil_l, !fetchedHeights_app, Hq, Hrest, app_nil_r. cbn.
  rewrite wrap64_small in Hevs
    by (unfold inInt64, minInt64, maxInt64, minDepth in *; lia).
  eapply Forall_impl;
    [apply Hevs; unfold inInt64, maxInt64, minDepth in *; lia |].
  intros h Hb. cbn in Hb. unfold minDepth in *. lia.
Qed.

Section Tip.
Context {W : Type}.
Variable deps : Deps W.
Variable config : UnlockerConfig.
Variable mainNet : bool.

Lemma candidatesLoop_below (bound : Z) cs : forall res st,
  Forall (fun c => 0 <= BlockData.Height c
                   /\ BlockData.Height c + minDepth <= bound) cs ->
  wp (candidatesLoop deps config mainNet cs res)
     (fun _ _ evs =>
        bound <= maxInt64 ->
        Forall (fun h => 0 <= h < bound) (fetchedHeights evs)) st.
Proof.
  intros res st Hcs. revert res st.
  induction Hcs as [| c rest [Hc0 Hc] _ IH]; intros res st;
    cbn [candidatesLoop].
  - apply wp_ret. constructor.
  - apply wp_bind. eapply wp_mono; [| apply unlockCandidate_wp].
    intros out st1 evs ([Hpre _] & _).
    assert (bound <= maxInt64 ->
            Forall (fun h => 0 <= h < bound) (fetchedHeights evs)) as Hevs.
    { intros Hbound.
      rewrite scanHeights_window in Hpre
        by (unfold minInt64, maxInt64, minDepth in *; lia).
      exact (Forall_prefix _ _ _ Hpre (windowHeights_bounds _ _ Hc)). }
    destruct out as [[res1 | err] | why].
    + eapply wp_mono; [| apply IH]. intros out2 st2 evs2 H2 Hbound.
      rewrite fetchedHeights_app. apply Forall_app. auto.
    + apply wp_ret. rewrite app_nil_r. exact Hevs.
    + exact Hevs.
Qed.

Lemma immatureLoop_fetches_nothing bs st :
  wp (immatureLoop deps config bs)
     (fun _ _ evs => fetchedHeights evs = []) st.
Proof.
  eapply wp_mono; [| apply immatureLoop_only].
  intros out st1 evs H.
  apply (fetchedHeights_none immatureLoopEvent); [reflexivity | exact H].
Qed.

Lemma maturedLoop_fetches_nothing bs st :
  wp (maturedLoop deps config bs)
     (fun _ _ evs => fetchedHeights evs = []) st.
Proof.
  eapply wp_mono; [| apply maturedLoop_only].
  intros out st1 evs H.
  apply (fetchedHeights_none maturedLoopEvent); [reflexivity | exact H].
Qed.

Lemma orphansLoop_fetches_nothing bs st :
  wp (orphansLoop deps bs) (fun _ _ evs => fetchedHeights evs = []) st.
Proof.
  eapply wp_mono; [| apply orphansLoop_only].
  intros out st1 evs H.
  apply (fetchedHeights_none matureCreditEvent); [reflexivity | exact H].
Qed.

Lemma unlockPendingBlocks_below st :
  minDepth <= ImmatureDepth config <= maxInt64 ->
  honoursBound (GetCandidates deps) ->
  wp (unlockPendingBlocks deps config mainNet)
     (fun _ _ evs =>
        forall number height,
          pendingNumber evs = Some number ->
          parseNumber number = Ok height ->
          0 <= height ->
          Forall (fun h => 0 <= h < height) (fetchedHeights evs)) st.
Proof.
  intros Hdepth Hstore. unfold unlockPendingBlocks.
  apply wp_bind, wp_getHalt. destruct (halt st).
  { apply wp_logf. discriminate. }
  apply wp_bind, wp_call. intros [[current |] | err] w _.
  - destruct (parseNumber (GetBlockReply.Number current))
      as [currentHeight | err] eqn:Hparse.
    + apply wp_bind, wp_call. intros [[| c cs] | err] w2 Hcall.
      * apply wp_logf. intros; constructor.
      * apply wp_bind. unfold unlockCandidates.
        eapply wp_mono;
          [| apply (candidatesLoop_below
                      (wrap64 (currentHeight - ImmatureDepth config)
                       + minDepth))].
        -- intros out st1 evs Hevs.
           pose proof (tip_leaf (ImmatureDepth config) current currentHeight
                         (EvGetCandidates
                            (wrap64 (currentHeight - ImmatureDepth config))
                            (Ok (c :: cs))) evs Hdepth Hparse eq_refl Hevs)
             as Hleaf.
           destruct out as [[res | err] | why].
           ++ apply wp_bind, wp_logf, wp_bind, wp_call. intros [err |] w3 _.
              ** apply wp_bind, wp_setHalt, wp_logf. intros number height; apply Hleaf.
                 reflexivity.
              ** apply wp_bind, wp_logf, wp_bind.
                 eapply wp_mono; [| apply immatureLoop_fetches_nothing].
                 intros out3 st3 evs3 H3. destruct out3 as [[|] | why];
                   [apply wp_logf | apply wp_ret |]; intros number height; apply Hleaf;
                   rewrite ?fetchedHeights_app, H3; reflexivity.
           ++ apply wp_bind, wp_setHalt, wp_logf. intros number height; apply Hleaf. reflexivity.
           ++ rewrite <- (app_nil_r evs). intros number height; apply Hleaf. reflexivity.
        -- pose proof (Hstore
              (wrap64 (currentHeight - ImmatureDepth config)) w (c :: cs))
             as Hb.
           cbn [world] in Hcall. rewrite Hcall in Hb.
           specialize (Hb eq_refl).
           eapply Forall_impl; [exact Hb |]. intros x Hx. cbn in Hx. lia.
      * apply wp_bind, wp_setHalt, wp_logf. intros; constructor.
    + apply wp_bind, wp_setHalt, wp_logf. intros; constructor.
  - apply wp_panic. discriminate.
  - apply wp_bind, wp_setHalt, wp_logf. discriminate.
Qed.

Lemma unlockAndCreditMiners_below st :
  minDepth * 2 <= Depth config <= maxInt64 ->
  honoursBound (GetImmatureBlocks deps) ->
  wp (unlockAndCreditMiners deps config mainNet)
     (fun _ _ evs =>
        forall number height,
          pendingNumber evs = Some number ->
          parseNumber number = Ok height ->
          0 <= height ->
          Forall (fun h => 0 <= h < height - minDepth)
            (fetchedHeights evs)) st.
Proof.
  intros Hdepth Hstore. unfold unlockAndCreditMiners.
  apply wp_bind, wp_getHalt. destruct (halt st).
  { apply wp_logf. discriminate. }
  apply wp_bind, wp_call. intros [[current |] | err] w _.
  - destruct (parseNumber (GetBlockReply.Number current))
      as [currentHeight | err] eqn:Hparse.
    + apply wp_bind, wp_call. intros [[| c cs] | err] w2 Hcall.
      * apply wp_logf. intros; constructor.
      * apply wp_bind. unfold unlockCandidates.
        eapply wp_mono;
          [| apply (candidatesLoop_below
                      (wrap64 (currentHeight - Depth config) + minDepth))].
        -- intros out st1 evs Hevs.
           pose proof (tip_leaf_mature (Depth config) current currentHeight
                         (EvGetImmatureBlocks
                            (wrap64 (currentHeight - Depth config))
                            (Ok (c :: cs))) evs Hdepth Hparse eq_refl Hevs)
             as Hleaf.
           destruct out as [[res | err] | why].
           ++ apply wp_bind, wp_logf, wp_bind.
              eapply wp_mono; [| apply orphansLoop_fetches_nothing].
              intros out2 st2 evs2 H2. destruct out2 as [[|] | why].
              ** apply wp_bind, wp_logf, wp_bind.
                 eapply wp_mono; [| apply maturedLoop_fetches_nothing].
                 intros out3 st3 evs3 H3. destruct out3 as [[|] | why];
                   [apply wp_logf | apply wp_ret |]; intros number height; apply Hleaf;
                   rewrite ?fetchedHeights_app, H2, H3; reflexivity.
              ** apply wp_ret. intros number height; apply Hleaf.
                 rewrite ?fetchedHeights_app, H2; reflexivity.
              ** intros number height; apply Hleaf. rewrite ?fetchedHeights_app, H2; reflexivity.
           ++ apply wp_bind, wp_setHalt, wp_logf. intros number height; apply Hleaf. reflexivity.
           ++ rewrite <- (app_nil_r evs). intros number height; apply Hleaf. reflexivity.
        -- pose proof (Hstore (wrap64 (currentHeight - Depth config)) w
                         (c :: cs)) as Hb.
           cbn [world] in Hcall. rewrite Hcall in Hb.
           specialize (Hb eq_refl).
           eapply Forall_impl; [exact Hb |]. intros x Hx. cbn in Hx. lia.
      * apply wp_bind, wp_setHalt, wp_logf. intros; constructor.
    + apply wp_bind, wp_setHalt, wp_logf. intros; constructor.
  - apply wp_panic. discriminate.
  - apply wp_bind, wp_setHalt, wp_logf. discriminate.
Qed.
End Tip.

Lemma NewBlockUnlocker_checks isValidHexAddress cfg mainnet config mainNet :
  NewBlockUnlocker isValidHexAddress cfg mainnet = Some (config, mainNet) ->
  config = cfg
  /\ minDepth * 2 <= Depth cfg
  /\ minDepth <= ImmatureDepth cfg
  /\ (len (PoolFeeAddress cfg) = 0
      \/ isValidHexAddress (PoolFeeAddress cfg) = true)
  /\ (mainNet = false <-> mainnet = "testnet").
Proof.
  unfold NewBlockUnlocker.
  destruct (Z.eqb_spec (len (PoolFeeAddress cfg)) 0) as [Hlen | Hlen];
    destruct (isValidHexAddress (PoolFeeAddress cfg)) eqn:Hvalid;
    cbn [negb andb]; try discriminate;
    destruct (Z.ltb_spec (Depth cfg) (minDepth * 2)); try discriminate;
    destruct (Z.ltb_spec (ImmatureDepth cfg) minDepth); try discriminate;
    intros [= <- <-];
    (split; [reflexivity |]); (split; [assumption |]);
    (split; [assumption |]); (split; [auto |]);
    destruct (String.eqb_spec mainnet "testnet"); cbn;
    split; congruence.
Qed.

Lemma boundedStore_honours (stored : list BlockData.t) :
  honoursBound (W := unit) (fun maxHeight w => (boundedStore stored maxHeight, w)).
Proof.
  intros maxHeight w cs [= <-]. apply Forall_forall. intros c Hc.
  apply list_elem_of_filter in Hc as [Hc _]. exact Hc.
Qed.

(** X18: What the depth checks of the constructor buy.  For an unlocker that
    [NewBlockUnlocker] accepted (depths within [int64]), a store that
    honours the height bound of a query, and a pending block whose number
    parses to a height [H >= 0]: Pass 1 only asks the node for blocks at
    heights from 0 to [H - 1], and Pass 2 only for heights from 0 to
    [H - 17]; neither asks for the pending block itself or anything above
    it. *)
Theorem constructed_unlocker_reads_below_pending {W} (deps : Deps W)
    (isValidHexAddress : string -> bool) (cfg config : UnlockerConfig)
    (mainnet : string) (mainNet : bool) (st : St) :
  NewBlockUnlocker isValidHexAddress cfg mainnet = Some (config, mainNet) ->
  ImmatureDepth cfg <= maxInt64 ->
  Depth cfg <= maxInt64 ->
  honoursBound (GetCandidates deps) ->
  honoursBound (GetImmatureBlocks deps) ->
  (exists evs,
     trace (snd (unlockPendingBlocks deps config mainNet st))
       = trace st ++ evs
     /\ forall number height,
          pendingNumber evs = Some number ->
          parseNumber number = Ok height ->
          0 <= height ->
          Forall (fun h => 0 <= h < height) (fetchedHeights evs))
  /\ (exists evs,
        trace (snd (unlockAndCreditMiners deps config mainNet st))
          = trace st ++ evs
        /\ forall number height,
             pendingNumber evs = Some number ->
             parseNumber number = Ok height ->
             0 <= height ->
             Forall (fun h => 0 <= h < height - minDepth)
               (fetchedHeights evs)).
Proof.
  intros Hnew Himm Hdepth Hcand Himmature.
  apply NewBlockUnlocker_checks in Hnew as (-> & Hd & Hi & _ & _).
  split.
  - apply (unlockPendingBlocks_below deps cfg mainNet st); [lia | exact Hcand].
  - apply (unlockAndCreditMiners_below deps cfg mainNet st);
      [lia | exact Himmature].
Qed.

Lemma constructed_unlocker_reads_below_pending_witness :
  NewBlockUnlocker (fun _ => true) sampleConfig "mainnet"
    = Some (sampleConfig, true)
  /\ exists evs,
       trace (snd (unlockPendingBlocks
                     (sampleBoundedDeps
                        (Ok (Some (sampleBlock "0x100" "" "" [] [])))
                        (fun h => Ok (Some (sampleBlock "0x0" "0x0000000000"
                                              "0x0" [] [])))
                        [sampleCandidate 100 "0xabc" "" 0;
                         sampleCandidate 250 "0xdef" "" 0]
                        (fun _ _ => Ok ∅))
                     sampleConfig true sampleStart))
         = trace sampleStart ++ evs
       /\ forall number height,
            pendingNumber evs = Some number ->
            parseNumber number = Ok height ->
            0 <= height ->
            Forall (fun h => 0 <= h < height) (fetchedHeights evs).
Proof.
  split; [reflexivity |].
  refine (proj1 (constructed_unlocker_reads_below_pending
                   (sampleBoundedDeps
                      (Ok (Some (sampleBlock "0x100" "" "" [] [])))
                      (fun h => Ok (Some (sampleBlock "0x0" "0x0000000000"
                                            "0x0" [] [])))
                      [sampleCandidate 100 "0xabc" "" 0;
                       sampleCandidate 250 "0xdef" "" 0]
                      (fun _ _ => Ok ∅))
                   (fun _ => true) sampleConfig sampleConfig "mainnet" true
                   sampleStart eq_refl _ _ _ _)).
  - vm_compute. discriminate.
  - vm_compute. discriminate.
  - apply boundedStore_honours.
  - apply boundedStore_honours.
Defined.

(** X17: The credit loops go through the matured blocks in order and stop at
    the first failure.  In the loop of Pass 1 and in the loop of Pass 2 the
    rounds whose shares are asked for, and the blocks for which a record is
    written (a credit or the "unable to credit" marker), are prefixes of
    the matured blocks: no block is skipped, none is recorded twice, and
    nothing is written for a block after one that failed.  When the loop
    runs to its end, every block was asked for and recorded once. *)
Theorem credit_loops_record_in_order {W} (deps : Deps W)
    (config : UnlockerConfig) (bs : list BlockData.t) (st : St) :
  (exists evs,
     trace (snd (immatureLoop deps config bs st)) = trace st ++ evs
     /\ askedRounds evs `prefix_of` (roundOf <$> bs)
     /\ recordedBlocks evs `prefix_of` bs
     /\ (fst (immatureLoop deps config bs st) = Done true ->
         askedRounds evs = roundOf <$> bs /\ recordedBlocks evs = bs))
  /\ (exists evs,
        trace (snd (maturedLoop deps config bs st)) = trace st ++ evs
        /\ askedRounds evs `prefix_of` (roundOf <$> bs)
        /\ recordedBlocks evs `prefix_of` bs
        /\ (fst (maturedLoop deps config bs st) = Done true ->
            askedRounds evs = roundOf <$> bs /\ recordedBlocks evs = bs)).
Proof.
  split.
  - destruct (immatureLoop_records deps config bs st)
      as (evs & Htr & Ha & Hr & Hd).
    exists evs. auto.
  - destruct (maturedLoop_records deps config bs st)
      as (evs & Htr & Ha & Hr & Hd).
    exists evs. auto.
Qed.

(** * The order of a map walk *)

Lemma foldl_foldr_reverse {A B} (f : A -> B -> A) (l : list B) : forall a,
  foldl f a l = foldr (fun x acc => f acc x) a (reverse l).
Proof.
  induction l as [| x l IH]; intros a; [reflexivity |].
  cbn [foldl]. rewrite IH, reverse_cons, foldr_app. reflexivity.
Qed.

Lemma rewardStep_comm total reward k1 n1 k2 n2 acc :
  k1 <> k2 ->
  rewardStep total reward k1 n1 (rewardStep total reward k2 n2 acc)
  = rewardStep total reward k2 n2 (rewardStep total reward k1 n1 acc).
Proof.
  intros Hne. unfold rewardStep.
  destruct acc as [[rewards percents] |]; [| reflexivity].
  destruct (NewRat n1 total) as [p1 |] eqn:H1;
    destruct (NewRat n2 total) as [p2 |] eqn:H2;
    rewrite ?H1, ?H2; try reflexivity.
  unfold addReward.
  rewrite !lookup_insert_ne by congruence.
  f_equal. f_equal; apply insert_insert_ne; congruence.
Qed.

Lemma distinct_keys (shares : gmap string Z) j1 j2 (e1 e2 : string * Z) :
  j1 <> j2 ->
  map_to_list shares !! j1 = Some e1 ->
  map_to_list shares !! j2 = Some e2 ->
  e1.1 <> e2.1.
Proof.
  intros Hne H1 H2 Heq.
  pose proof (NoDup_fst_map_to_list shares) as Hnd.
  apply Hne. eapply NoDup_lookup; [exact Hnd | |];
    rewrite list_lookup_fmap; [rewrite H1 | rewrite H2]; cbn;
    [reflexivity | congruence].
Qed.

(** X19: The order in which Go walks the share map does not matter: run over
    the entries of the map in any order, the split of the reward yields
    the same two maps (or the same panic), and the summing loop the same
    total. *)
Theorem range_order_irrelevant (shares : gmap string Z)
    (order : list (string * Z)) (total : Z) (reward : Qc) :
  order ≡ₚ map_to_list shares ->
  splitInOrder order total reward
    = calculateRewardsForShares shares total reward
  /\ sumInOrder order = sumShares shares.
Proof.
  intros Hperm.
  assert (map_to_list shares ≡ₚ reverse order) as Hrev
    by (rewrite reverse_Permutation; symmetry; exact Hperm).
  unfold splitInOrder, sumInOrder, calculateRewardsForShares, sumShares.
  rewrite !foldl_foldr_reverse, !map_fold_foldr. split.
  - symmetry.
    apply (foldr_permutation eq
             (uncurry (rewardStep total reward)) (Some (∅, ∅)));
      [| exact Hrev].
    intros j1 [k1 n1] j2 [k2 n2] acc Hne H1 H2.
    apply rewardStep_comm.
    exact (distinct_keys shares j1 j2 _ _ Hne H1 H2).
  - transitivity
      (foldr (fun (entry : string * Z) acc => wrap64 (acc + entry.2)) 0
             (map_to_list shares)).
    + symmetry.
      apply (foldr_permutation eq
               (fun (entry : string * Z) acc => wrap64 (acc + entry.2)) 0);
        [| exact Hrev].
      intros j1 [k1 n1] j2 [k2 n2] acc _ _ _. cbn.
      rewrite !wrap64_add_l. f_equal. lia.
    + clear Hperm Hrev.
      induction (map_to_list shares) as [| [k n] l IH]; [reflexivity |].
      cbn. rewrite IH. reflexivity.
Qed.

Lemma range_order_irrelevant_witness :
  [("B", 30); ("A", 70)] ≡ₚ map_to_list ({[ "A" := 70; "B" := 30 ]} : gmap string Z)
  /\ splitInOrder [("B", 30); ("A", 70)] 100 (Qc_of_Z 1500000000)
     = calculateRewardsForShares {[ "A" := 70; "B" := 30 ]} 100
         (Qc_of_Z 1500000000)
  /\ sumInOrder [("B", 30); ("A", 70)] = sumShares {[ "A" := 70; "B" := 30 ]}.
Proof.
  assert (H : [("B", 30); ("A", 70)]
              ≡ₚ map_to_list ({[ "A" := 70; "B" := 30 ]} : gmap string Z)).
  { apply NoDup_Permutation.
    - apply NoDup_cons. split; [| apply NoDup_singleton].
      rewrite list_elem_of_singleton. discriminate.
    - apply NoDup_map_to_list.
    - intros [k n]. rewrite elem_of_map_to_list.
      rewrite !elem_of_cons, elem_of_nil. split.
      + intros [[= -> ->] | [[= -> ->] | []]]; reflexivity.
      + intros Hl. rewrite lookup_insert in Hl.
        destruct (decide ("A" = k)) as [<- | HA];
          [injection Hl as <-; auto |].
        rewrite lookup_singleton in Hl.
        destruct (decide ("B" = k)) as [<- | HB];
          [injection Hl as <-; auto | discriminate]. }
  split; [exact H |].
  exact (range_order_irrelevant _ _ 100 (Qc_of_Z 1500000000) H).
Defined.

(** * Panics *)

Lemma panicCause_app config why evs1 evs2 :
  panicCause config why evs2 -> panicCause config why (evs1 ++ evs2).
Proof.
  intros H. destruct H as [evs Hl | evs b c Hl Hm Hlen | evs Hf
                          | evs rh nonce shares Hl Hne Hz].
  - apply panic_no_pending. rewrite last_app, Hl. reflexivity.
  - apply (panic_short_hash _ _ b c); [| exact Hm | exact Hlen].
    rewrite replies_app, last_app, Hl. reflexivity.
  - apply panic_pool_fee. exact Hf.
  - apply (panic_zero_total _ _ rh nonce shares); [| assumption..].
    rewrite last_app, Hl. reflexivity.
Qed.

Lemma panicSpec_app {A} config (out : Outcome A) evs1 evs2 :
  panicSpec config out evs2 -> panicSpec config out (evs1 ++ evs2).
Proof. intros H why Hout. apply panicCause_app, H, Hout. Qed.

Lemma panicSpec_cast {A B} config why evs :
  panicSpec config (Panic why : Outcome A) evs ->
  panicSpec config (Panic why : Outcome B) evs.
Proof. intros H why' [= <-]. apply H. reflexivity. Qed.

Lemma panicSpec_done {A} config (a : A) evs : panicSpec config (Done a) evs.
Proof. intros why H. discriminate. Qed.

Ltac panic_from H :=
  first [exact H | exact (panicSpec_cast _ _ _ H)].

Section Panics.
Context {W : Type}.
Variable deps : Deps W.
Variable config : UnlockerConfig.
Variable mainNet : bool.

Lemma calculateRewards_panics block st :
  wp (calculateRewards deps config block)
     (fun out _ evs => panicSpec config out evs) st.
Proof.
  unfold calculateRewards, chargeFee.
  destruct (SetFloat64 (PoolFee config / 100)%float) as [f |] eqn:Hf.
  2:{ apply wp_panic. intros why [= <-]. apply panic_pool_fee, Hf. }
  apply wp_bind, wp_call. intros [shares | err] w _;
    [| apply wp_ret, panicSpec_done].
  destruct (Z.eqb_spec (Z.of_nat (size shares)) 0) as [Hsz | Hsz];
    [apply wp_ret, panicSpec_done |].
  destruct (calculateRewardsForShares _ _ _) as [[rewards percents] |]
    eqn:Hsplit.
  - match goal with
    | |- context [creditPool ?c ?b ?rv ?mp ?pp ?rw ?pc] =>
        destruct (creditPool_total c b rv mp pp rw pc)
          as (rev & pp' & rw' & -> & _)
    end.
    apply wp_ret, panicSpec_done.
  - apply wp_panic. intros why [= <-].
    apply (panic_zero_total _ _ (BlockData.RoundHeight block)
             (BlockData.Nonce block) shares); [reflexivity | |].
    + intros ->. apply Hsz. rewrite map_size_empty. reflexivity.
    + destruct (Z.eq_dec (sumShares shares) 0) as [Hz | Hnz];
        [exact Hz |].
      rewrite calculateRewardsForShares_fmap in Hsplit by assumption.
      discriminate.
Qed.

Lemma immatureLoop_panics bs : forall st,
  wp (immatureLoop deps config bs)
     (fun out _ evs => panicSpec config out evs) st.
Proof.
  induction bs as [| block rest IH]; intros st; cbn [immatureLoop].
  - apply wp_ret, panicSpec_done.
  - apply wp_bind. eapply wp_mono; [| apply calculateRewards_panics].
    intros out st1 evs Hc.
    destruct out as [[err | | rev mp pp rw pc] | why]; [| | | panic_from Hc].
    + apply wp_bind, wp_setHalt, wp_bind, wp_logf, wp_ret, panicSpec_done.
    + apply wp_bind, wp_call. intros r w _.
      apply wp_bind, wp_logf. eapply wp_mono; [| apply IH].
      intros out2 st2 evs2 H2. repeat apply panicSpec_app. panic_from H2.
    + apply wp_bind, wp_call. intros [err |] w _.
      * apply wp_bind, wp_setHalt, wp_bind, wp_logf, wp_ret, panicSpec_done.
      * apply wp_bind, wp_logf, wp_bind, wp_logf.
        eapply wp_mono; [| apply IH].
        intros out2 st2 evs2 H2. repeat apply panicSpec_app. panic_from H2.
Qed.

Lemma maturedLoop_panics bs : forall st,
  wp (maturedLoop deps config bs)
     (fun out _ evs => panicSpec config out evs) st.
Proof.
  induction bs as [| block rest IH]; intros st; cbn [maturedLoop].
  - apply wp_ret, panicSpec_done.
  - apply wp_bind. eapply wp_mono; [| apply calculateRewards_panics].
    intros out st1 evs Hc.
    destruct out as [[err | | rev mp pp rw pc] | why]; [| | | panic_from Hc].
    + apply wp_bind, wp_setHalt, wp_bind, wp_logf, wp_ret, panicSpec_done.
    + apply wp_bind, wp_call. intros r w _.
      apply wp_bind, wp_logf, wp_bind, wp_logf.
      eapply wp_mono; [| apply IH].
      intros out2 st2 evs2 H2. repeat apply panicSpec_app. panic_from H2.
    + apply wp_bind, wp_call. intros [err |] w _.
      * apply wp_bind, wp_setHalt, wp_bind, wp_logf, wp_ret, panicSpec_done.
      * apply wp_bind, wp_logf, wp_bind, wp_logf.
        eapply wp_mono; [| apply IH].
        intros out2 st2 evs2 H2. repeat apply panicSpec_app. panic_from H2.
Qed.

Lemma orphansLoop_panics bs : forall st,
  wp (orphansLoop deps bs) (fun out _ evs => panicSpec config out evs) st.
Proof.
  induction bs as [| block rest IH]; intros st; cbn [orphansLoop].
  - apply wp_ret, panicSpec_done.
  - apply wp_bind, wp_call. intros [err |] w _.
    + apply wp_bind, wp_setHalt, wp_bind, wp_logf, wp_ret, panicSpec_done.
    + eapply wp_mono; [| apply IH]. intros out2 st2 evs2 H2.
      apply panicSpec_app. exact H2.
Qed.

Lemma unlockCandidates_panics cs st :
  wp (unlockCandidates deps config mainNet cs)
     (fun out _ evs => panicSpec config out evs) st.
Proof.
  unfold unlockCandidates.
  eapply wp_mono;
    [| apply (candidatesLoop_class deps config mainNet cs []);
       [apply classifies_nil | repeat split; cbn; lia]].
  intros out st1 evs H why ->.
  destruct H as (-> & c & _ & b & Hlast & Hm & Hlen).
  exact (panic_short_hash _ _ b c Hlast Hm Hlen).
Qed.

Lemma unlockPendingBlocks_panics st :
  wp (unlockPendingBlocks deps config mainNet)
     (fun out _ evs => panicSpec config out evs) st.
Proof.
  unfold unlockPendingBlocks.
  apply wp_bind, wp_getHalt. destruct (halt st).
  { apply wp_logf, panicSpec_done. }
  apply wp_bind, wp_call. intros [[current |] | err] w _.
  - destruct (parseNumber (GetBlockReply.Number current))
      as [currentHeight | err].
    + apply wp_bind, wp_call. intros [[| c cs] | err] w2 _.
      * apply wp_logf, panicSpec_done.
      * apply wp_bind.
        eapply wp_mono; [| apply unlockCandidates_panics].
        intros out st1 evs Hp.
        destruct out as [[res | err] | why].
        -- apply wp_bind, wp_logf, wp_bind, wp_call. intros [err |] w3 _.
           ++ apply wp_bind, wp_setHalt, wp_logf, panicSpec_done.
           ++ apply wp_bind, wp_logf, wp_bind.
              eapply wp_mono; [| apply immatureLoop_panics].
              intros out3 st3 evs3 H3. destruct out3 as [[|] | why];
                [apply wp_logf, panicSpec_done
                | apply wp_ret, panicSpec_done |].
              repeat apply panicSpec_app. panic_from H3.
        -- apply wp_bind, wp_setHalt, wp_logf, panicSpec_done.
        -- repeat apply panicSpec_app. panic_from Hp.
      * apply wp_bind, wp_setHalt, wp_logf, panicSpec_done.
    + apply wp_bind, wp_setHalt, wp_logf, panicSpec_done.
  - apply wp_panic. intros why [= <-]. apply panic_no_pending. reflexivity.
  - apply wp_bind, wp_setHalt, wp_logf, panicSpec_done.
Qed.

Lemma unlockAndCreditMiners_panics st :
  wp (unlockAndCreditMiners deps config mainNet)
     (fun out _ evs => panicSpec config out evs) st.
Proof.
  unfold unlockAndCreditMiners.
  apply wp_bind, wp_getHalt. destruct (halt st).
  { apply wp_logf, panicSpec_done. }
  apply wp_bind, wp_call. intros [[current |] | err] w _.
  - destruct (parseNumber (GetBlockReply.Number current))
      as [currentHeight | err].
    + apply wp_bind, wp_call. intros [[| c cs] | err] w2 _.
      * apply wp_logf, panicSpec_done.
      * apply wp_bind.
        eapply wp_mono; [| apply unlockCandidates_panics].
        intros out st1 evs Hp.
        destruct out as [[res | err] | why].
        -- apply wp_bind, wp_logf, wp_bind.
           eapply wp_mono; [| apply orphansLoop_panics].
           intros out2 st2 evs2 H2. destruct out2 as [[|] | why].
           ++ apply wp_bind, wp_logf, wp_bind.
              eapply wp_mono; [| apply maturedLoop_panics].
              intros out3 st3 evs3 H3. destruct out3 as [[|] | why];
                [apply wp_logf, panicSpec_done
                | apply wp_ret, panicSpec_done |].
              repeat apply panicSpec_app. panic_from H3.
           ++ apply wp_ret, panicSpec_done.
           ++ repeat apply panicSpec_app. panic_from H2.
        -- apply wp_bind, wp_setHalt, wp_logf, panicSpec_done.
        -- repeat apply panicSpec_app. panic_from Hp.
      * apply wp_bind, wp_setHalt, wp_logf, panicSpec_done.
    + apply wp_bind, wp_setHalt, wp_logf, panicSpec_done.
  - apply wp_panic. intros why [= <-]. apply panic_no_pending. reflexivity.
  - apply wp_bind, wp_setHalt, wp_logf, panicSpec_done.
Qed.
End Panics.

(** X20: The four ways a pass can panic, and no other.  When
    [unlockPendingBlocks] or [unlockAndCreditMiners] panics, the events of
    the pass end at the cause: the node handed back no pending block (nil
    dereference), or a block or uncle that matched a candidate has a hash
    of fewer than ten bytes (slice out of range), or the pool fee is not a
    finite number (nil dereference), or the shares just read for a round
    are not empty and add up to zero in 64 bits (division by zero). *)
Theorem passes_panic_causes {W} (deps : Deps W) (config : UnlockerConfig)
    (mainNet : bool) (st st1 : St) (why : PanicKind) :
  unlockPendingBlocks deps config mainNet st = (Panic why, st1)
  \/ unlockAndCreditMiners deps config mainNet st = (Panic why, st1) ->
  exists evs,
    trace st1 = trace st ++ evs /\ panicCause config why evs.
Proof.
  intros [Hrun | Hrun].
  - destruct (wp_run _ _ _ _ _
                (unlockPendingBlocks_panics deps config mainNet st) Hrun)
      as (evs & Htr & Hp).
    exists evs. split; [exact Htr | apply Hp; reflexivity].
  - destruct (wp_run _ _ _ _ _
                (unlockAndCreditMiners_panics deps config mainNet st) Hrun)
      as (evs & Htr & Hp).
    exists evs. split; [exact Htr | apply Hp; reflexivity].
Qed.

Lemma passes_panic_causes_witness :
  exists why st1 evs,
    unlockPendingBlocks
      (sampleDeps (Ok (Some (sampleBlock "0x100" "" "" [] [])))
         (fun h => if h =? 100
                   then Ok (Some (sampleBlock "0x64" "0xaaa" "0xABC" [] []))
                   else Ok (Some (sampleBlock "0x0" "0x0000000000" "0x0"
                                    [] [])))
         (fun _ _ => Ok None) (fun _ => Ok None)
         (Ok [sampleCandidate 100 "0xabc" "" 0])
         (fun _ _ => Ok ∅) None (fun _ _ _ => 0))
      sampleConfig true sampleStart = (Panic why, st1)
    /\ trace st1 = trace sampleStart ++ evs
    /\ panicCause sampleConfig why evs.
Proof.
  destruct (unlockPendingBlocks
      (sampleDeps (Ok (Some (sampleBlock "0x100" "" "" [] [])))
         (fun h => if h =? 100
                   then Ok (Some (sampleBlock "0x64" "0xaaa" "0xABC" [] []))
                   else Ok (Some (sampleBlock "0x0" "0x0000000000" "0x0"
                                    [] [])))
         (fun _ _ => Ok None) (fun _ => Ok None)
         (Ok [sampleCandidate 100 "0xabc" "" 0])
         (fun _ _ => Ok ∅) None (fun _ _ _ => 0))
      sampleConfig true sampleStart) as [out st1] eqn:Hrun.
  assert (exists why, out = Panic why) as [why ->].
  { vm_compute in Hrun. injection Hrun as <- _. eexists. reflexivity. }
  destruct (passes_panic_causes _ _ _ _ _ _ (or_introl Hrun))
    as (evs & Htr & Hcause).
  exists why, st1, evs. auto.
Defined.

(** * The cost of rounding *)

Lemma roundHalfAway_within_half (x : Qc) :
  (Qc_of_Z (roundHalfAway x) - half <= x)%Qc
  /\ (x <= Qc_of_Z (roundHalfAway x) + half)%Qc.
Proof.
  pose proof (roundHalfAway_nearest x) as Hn.
  set (r := roundHalfAway x) in *.
  unfold Qcle, Qcminus, Qcplus, Qcopp, half, Qc_of_Z. cbn [this Q2Qc].
  rewrite !Qred_correct. unfold Qle. cbn.
  destruct x as [[num den] Hcanon]. cbn in *. split; lia.
Qed.

Lemma exactTotal_fmap_insert (f : Z -> Z) (m : gmap string Z) i n :
  m !! i = None ->
  exactTotal (f <$> <[i := n]> m) = exactTotal (f <$> m) + f n.
Proof.
  intros Hi. rewrite fmap_insert. apply exactTotal_insert.
  rewrite lookup_fmap, Hi. reflexivity.
Qed.

Lemma rounded_sum_bounds (f : Z -> Z) (x : Z -> Qc) (m : gmap string Z) :
  (forall n, (Qc_of_Z (f n) - half <= x n)%Qc
             /\ (x n <= Qc_of_Z (f n) + half)%Qc) ->
  forall (sumx : gmap string Z -> Qc),
    sumx ∅ = 0%Qc ->
    (forall i n m', m' !! i = None ->
       sumx (<[i := n]> m') = (sumx m' + x n)%Qc) ->
    (Qc_of_Z (exactTotal (f <$> m))
     - Qc_of_Z (Z.of_nat (size m)) * half <= sumx m)%Qc
    /\ (sumx m <= Qc_of_Z (exactTotal (f <$> m))
                  + Qc_of_Z (Z.of_nat (size m)) * half)%Qc.
Proof.
  intros Hx sumx H0 Hins.
  induction m as [| i n m Hi IH] using map_ind.
  - rewrite fmap_empty, map_size_empty, H0. unfold exactTotal.
    rewrite map_fold_empty. cbn. rewrite Z2Qc_inj_0.
    split; (replace (0 - 0 * half)%Qc with 0%Qc by ring)
           || (replace (0 + 0 * half)%Qc with 0%Qc by ring);
      apply Qcle_refl.
  - rewrite exactTotal_fmap_insert, map_size_insert_None, Hins
      by assumption.
    rewrite Nat2Z.inj_succ, <- Z.add_1_r, !Z2Qc_inj_add, Z2Qc_inj_1.
    destruct IH as [IHl IHu]. destruct (Hx n) as [Hl Hu]. split.
    + replace (Qc_of_Z (exactTotal (f <$> m)) + Qc_of_Z (f n)
               - (Qc_of_Z (Z.of_nat (size m)) + 1) * half)%Qc
        with ((Qc_of_Z (exactTotal (f <$> m))
               - Qc_of_Z (Z.of_nat (size m)) * half)
              + (Qc_of_Z (f n) - half))%Qc by ring.
      apply Qcplus_le_compat; assumption.
    + replace (Qc_of_Z (exactTotal (f <$> m)) + Qc_of_Z (f n)
               + (Qc_of_Z (Z.of_nat (size m)) + 1) * half)%Qc
        with ((Qc_of_Z (exactTotal (f <$> m))
               + Qc_of_Z (Z.of_nat (size m)) * half)
              + (Qc_of_Z (f n) + half))%Qc by ring.
      apply Qcplus_le_compat; assumption.
Qed.

(** X21: What rounding costs.  When the shares of a round add up, without
    overflow, to a non-zero total and no credit saturates, the credits of
    the miners add up to the reward in Shannon up to half a Shannon per
    miner, in either direction: the miners together can be credited more
    than the reward that was split, by at most that much. *)
Theorem rounding_error_bound (shares : gmap string Z) (reward : Qc) :
  inInt64 (exactTotal shares) ->
  exactTotal shares <> 0 ->
  (forall login n,
     shares !! login = Some n ->
     inInt64 (roundHalfAway
                (reward * (Qc_of_Z n / Qc_of_Z (exactTotal shares))
                 / Qc_of_Z Shannon)%Qc)) ->
  exists rewards percents,
    calculateRewardsForShares shares (sumShares shares) reward
      = Some (rewards, percents)
    /\ (Qc_of_Z (exactTotal rewards)
        - Qc_of_Z (Z.of_nat (size shares)) * half
        <= reward / Qc_of_Z Shannon)%Qc
    /\ (reward / Qc_of_Z Shannon
        <= Qc_of_Z (exactTotal rewards)
           + Qc_of_Z (Z.of_nat (size shares)) * half)%Qc.
Proof.
  intros Hrange Hnz Hfit.
  rewrite sumShares_exactTotal, wrap64_small by assumption.
  rewrite calculateRewardsForShares_fmap by assumption.
  eexists _, _. split; [reflexivity |].
  set (T := exactTotal shares) in *.
  set (x := fun n : Z =>
              (reward * (Qc_of_Z n / Qc_of_Z T) / Qc_of_Z Shannon)%Qc).
  rewrite (map_fmap_ext _ (fun n => roundHalfAway (x n)) shares).
  2:{ intros login n Hn. rewrite weiToShannonInt64_round.
      specialize (Hfit login n Hn). unfold clamp64, inInt64 in *.
      subst x. cbn. lia. }
  pose proof (rounded_sum_bounds (fun n => roundHalfAway (x n)) x shares
                (fun n => roundHalfAway_within_half (x n))
                (fun m => (reward * (Qc_of_Z (exactTotal m) / Qc_of_Z T)
                           / Qc_of_Z Shannon)%Qc)) as Hsum.
  cbv beta in Hsum.
  replace (reward * (Qc_of_Z (exactTotal shares) / Qc_of_Z T)
           / Qc_of_Z Shannon)%Qc
    with (reward / Qc_of_Z Shannon)%Qc in Hsum.
  - apply Hsum.
    + unfold exactTotal. rewrite map_fold_empty, Z2Qc_inj_0.
      unfold Qcdiv. ring.
    + intros i n m' Hi. rewrite exactTotal_insert by assumption.
      rewrite Z2Qc_inj_add. subst x. cbn. unfold Qcdiv. ring.
  - fold T. field.
    split; apply Qc_of_Z_nonzero; first [exact Hnz | unfold Shannon; lia].
Qed.

Lemma rounding_error_bound_witness :
  exists rewards percents,
    calculateRewardsForShares {[ "A" := 1; "B" := 1 ]}
      (sumShares {[ "A" := 1; "B" := 1 ]}) (Qc_of_Z 3000000000)
      = Some (rewards, percents)
    /\ (Qc_of_Z (exactTotal rewards)
        - Qc_of_Z (Z.of_nat (size ({[ "A" := 1%Z; "B" := 1%Z ]}
                                    : gmap string Z))) * half
        <= Qc_of_Z 3000000000 / Qc_of_Z Shannon)%Qc
    /\ (Qc_of_Z 3000000000 / Qc_of_Z Shannon
        <= Qc_of_Z (exactTotal rewards)
           + Qc_of_Z (Z.of_nat (size ({[ "A" := 1%Z; "B" := 1%Z ]}
                                       : gmap string Z))) * half)%Qc.
Proof.
  apply (rounding_error_bound {[ "A" := 1; "B" := 1 ]}
           (Qc_of_Z 3000000000)).
  - unfold inInt64. vm_compute. split; discriminate.
  - vm_compute. discriminate.
  - intros login n Hn.
    assert (n = 1) as ->.
    { rewrite lookup_insert in Hn.
      destruct (decide ("A" = login)); [congruence |].
      rewrite lookup_singleton in Hn.
      destruct (decide ("B" = login)); [congruence | discriminate]. }
    unfold inInt64. vm_compute. split; discriminate.
Defined.

(** * The work of the search *)

Lemma scanHeights_budget (height : Z) :
  (length (scanHeights height (-16) 32) <= 32)%nat
  /\ Forall (fun h => 0 <= h <= maxInt64) (scanHeights height (-16) 32).
Proof.
  unfold scanHeights. split.
  - etransitivity; [apply length_filter |].
    rewrite length_fmap, length_seqZ. reflexivity.
  - apply Forall_forall. intros h Hh.
    apply list_elem_of_filter in Hh as [H0 Hh].
    apply list_elem_of_fmap in Hh as (k & -> & _).
    pose proof (wrap64_range (height + k)) as Hr. unfold inInt64 in Hr. lia.
Qed.

Section Budget.
Context {W : Type}.
Variable deps : Deps W.
Variable config : UnlockerConfig.
Variable mainNet : bool.

Lemma candidatesLoop_budget cs : forall res st,
  wp (candidatesLoop deps config mainNet cs res)
     (fun _ _ evs =>
        (length (fetchedHeights evs) <= 32 * length cs)%nat
        /\ Forall (fun h => 0 <= h <= maxInt64) (fetchedHeights evs)) st.
Proof.
  induction cs as [| c rest IH]; intros res st; cbn [candidatesLoop].
  - apply wp_ret. split; [cbn; lia | constructor].
  - apply wp_bind. eapply wp_mono; [| apply unlockCandidate_wp].
    intros out st1 evs ([Hpre _] & _).
    destruct (scanHeights_budget (BlockData.Height c)) as [Hlen Hall].
    assert ((length (fetchedHeights evs) <= 32)%nat
            /\ Forall (fun h => 0 <= h <= maxInt64) (fetchedHeights evs))
      as [Hl Ha].
    { split; [| exact (Forall_prefix _ _ _ Hpre Hall)].
      apply prefix_length in Hpre. lia. }
    destruct out as [[res1 | err] | why].
    + eapply wp_mono; [| apply IH]. intros out2 st2 evs2 [Hl2 Ha2].
      rewrite fetchedHeights_app, length_app. split.
      * cbn [length]. lia.
      * apply Forall_app. auto.
    + apply wp_ret. rewrite app_nil_r. split; [cbn [length]; lia | exact Ha].
    + split; [cbn [length]; lia | exact Ha].
Qed.
End Budget.

(** X22: The work of the search is bounded.  Whatever the candidates and
    whatever the node answers, [unlockCandidates] asks for at most 32
    blocks per candidate, and only at heights from 0 to the largest
    [int64]: a candidate height near the ends of the [int64] range makes
    the window wrap around, and the heights that come out negative are
    skipped. *)
Theorem unlockCandidates_fetch_budget {W} (deps : Deps W)
    (config : UnlockerConfig) (mainNet : bool) (cs : list BlockData.t)
    (st : St) :
  exists evs,
    trace (snd (unlockCandidates deps config mainNet cs st)) = trace st ++ evs
    /\ (length (fetchedHeights evs) <= 32 * length cs)%nat
    /\ Forall (fun h => 0 <= h <= maxInt64) (fetchedHeights evs).
Proof.
  unfold unlockCandidates.
  destruct (candidatesLoop_budget deps config mainNet cs
              (mkResult [] [] 0 0 0) st) as (evs & Htr & Hlen & Hall).
  exists evs. auto.
Qed.
